(** * Session orchestrator of the mediasoup demo server ([server/server.js])

    A shallow embedding of the orchestrator: the worker pool and its
    round-robin cursor, the room registry ([rooms], a JS [Map]), the
    serialized admission queue ([queue], an [AwaitQueue]), the two ingress
    adapters (protoo [connectionrequest] handler and the Express
    [roomId] parameter handler with its error handler), the periodic
    status reporter and the start-up of the workers.

    JavaScript objects that are shared and mutated ([Room] instances, the
    [listenInfo] objects of the configuration) live in stores indexed by
    reference.  Calls into collaborators whose code is not part of
    [server.js] ([Room.create], [room.handleProtooConnection],
    [room.logStatus], [Number]) are either inputs of the model (the
    settlement of a promise is an event) or fields of a class the
    development is generic in. *)

From stdpp Require Import base option list strings gmap.
From Stdlib Require Import ZArith Lia.

Open Scope Z_scope.
Open Scope nat_scope.
Open Scope string_scope.
Open Scope list_scope.

(** ** JavaScript [Map] with string keys

    Entries are kept in insertion order, one per key: [set] on a key that
    is present replaces the value in place, on a new key it appends. *)
Module JSMap.

Abbreviation t V := (list (string * V)).

Section Ops.
Context {V : Type}.

Fixpoint get (m : t V) (k : string) : option V :=
  match m with
  | [] => None
  | (k', v) :: m' => if decide (k' = k) then Some v else get m' k
  end.

Fixpoint set (m : t V) (k : string) (v : V) : t V :=
  match m with
  | [] => [(k, v)]
  | (k', v') :: m' =>
      if decide (k' = k) then (k', v) :: m' else (k', v') :: set m' k v
  end.

Fixpoint delete (m : t V) (k : string) : t V :=
  match m with
  | [] => []
  | (k', v') :: m' =>
      if decide (k' = k) then delete m' k else (k', v') :: delete m' k
  end.

Definition keys (m : t V) : list string := m.*1.
Definition values (m : t V) : list V := m.*2.

End Ops.
End JSMap.

(** ** Data *)

(** One entry of [webRtcServerOptions.listenInfos]. *)
Record ListenInfo := {
  protocol : string;
  ip : string;
  port : Z
}.

(** A mediasoup [Worker] handle.  [worker_no] is the identity of the
    process (the ordinal of its launch); [appData_webRtcServer] is
    [worker.appData.webRtcServer], the listen infos the server was created
    with. *)
Record Worker := {
  worker_no : nat;
  appData_webRtcServer : option (list ListenInfo)
}.

(** A JS [Error]: [name], [message] and the optional [status] property
    ([None] is [undefined]). *)
Record Error := {
  err_name : string;
  err_message : string;
  err_status : option Z
}.

(** What is sent back on an Express response. *)
Record Response := {
  res_status : Z;
  res_statusMessage : option string;
  res_body : string
}.

(** The two ways [reject] is called by the protoo handler. *)
Inductive Rejection :=
| RejectCode (code : Z) (reason : string)
| RejectError (e : Error).

(** References to [Room] objects. *)
Abbreviation handle := nat.

(** The numbers of JavaScript are kept abstract: [JS_Number] is [Number(v)]
    on a query value ([None] is [undefined]), [zero] is the literal [0]. *)
Class JSNumber := {
  number : Type;
  JS_Number : option string → number;
  isNaN : number → bool;
  zero : number
}.

(** ** The Express error handler

    [error.status = error.status || (error.name === 'TypeError' ? 400 : 500)]:
    a status that is [undefined] or [0] is falsy. *)
Definition status_or (status : option Z) (otherwise : Z) : Z :=
  match status with
  | Some s => if (s =? 0)%Z then otherwise else s
  | None => otherwise
  end.

(** [String(error)], that is [Error.prototype.toString]. *)
Definition Error_toString (error : Error) : string :=
  if decide (err_name error = "") then err_message error
  else if decide (err_message error = "") then err_name error
  else err_name error ++ ": " ++ err_message error.

(** The error-handling middleware; [None] as result is the call [next()]
    of the branch where [error] is falsy ([None] as argument). *)
Definition errorHandler (error : option Error) : option Response :=
  match error with
  | Some error =>
      let status :=
        status_or (err_status error)
          (if decide (err_name error = "TypeError") then 400%Z else 500%Z) in
      Some {| res_status := status;
              res_statusMessage := Some (err_message error);
              res_body := Error_toString error |}
  | None => None
  end.

(** Outcome of a delegated [Room] operation of a route handler. *)
Inductive RoomOpResult :=
| OpReturns (data : string)
| OpThrows (e : Error).

(** The route handlers [POST .../broadcasters], [.../transports] and
    [.../producers]: [res.status(200).json(data)], or [next(error)] from
    the [catch], which runs the error handler. *)
Definition routeHandler (delegated : RoomOpResult) : option Response :=
  match delegated with
  | OpReturns data =>
      Some {| res_status := 200%Z; res_statusMessage := None; res_body := data |}
  | OpThrows error => errorHandler (Some error)
  end.

(** How a promise of a collaborator settles. *)
Inductive Settled :=
| Resolved
| Rejected (e : Error).

(** JavaScript truthiness of a query value: [undefined] and the empty
    string are falsy. *)
Definition truthy (v : option string) : bool :=
  match v with
  | Some s => if decide (s = "") then false else true
  | None => false
  end.

Section Orchestrator.
Context {num : JSNumber}.

(** A [Room] object: the worker and the arguments it was created with and
    whether it has been closed. *)
Record Room := {
  room_mediasoupWorker : option Worker;
  room_roomId : string;
  room_consumerReplicas : number;
  room_closed : bool
}.

(** Calls of the orchestrator on [Room] objects that may throw; [None] is a
    normal return. *)
Class RoomCollaborator := {
  handleProtooConnection : Room → string → option Error;
  logStatus : Room → option Error
}.
Context {collab : RoomCollaborator}.

(** The tasks pushed on the queue: by the protoo [connectionrequest]
    handler (for connection [conn]) and by the Express [roomId] parameter
    handler (for request [req]). *)
Inductive Task :=
| SignalingTask (conn : nat) (roomId peerId : string) (consumerReplicas : number)
| BroadcasterTask (req : nat) (roomId : string).

Definition task_roomId (t : Task) : string :=
  match t with
  | SignalingTask _ roomId _ _ => roomId
  | BroadcasterTask _ roomId => roomId
  end.

Definition task_consumerReplicas (t : Task) : number :=
  match t with
  | SignalingTask _ _ _ consumerReplicas => consumerReplicas
  | BroadcasterTask _ _ => zero
  end.

(** Calls that leave the orchestrator, in the order they are made. *)
Inductive Action :=
| RoomCreateCall (mediasoupWorker : option Worker) (roomId : string)
    (consumerReplicas : number)
| Accept (conn : nat)
| HandleProtooConnection (room : handle) (peerId : string) (conn : nat)
| Reject (conn : nat) (how : Rejection)
| Next (req : nat)
| Send (req : nat) (res : Response)
| LogStatus (room : handle).

(** The module-level state of [server.js].  [roomStore] holds every [Room]
    object constructed so far, a [handle] is an index into it.
    [executing] is the task of the queue that is suspended in
    [Room.create], with the worker it drew; [pendingTasks] are the tasks
    behind it.  [req_room] is the property [req.room] of the requests. *)
Record State := {
  mediasoupWorkers : list Worker;
  nextMediasoupWorkerIdx : nat;
  rooms : JSMap.t handle;
  roomStore : list Room;
  executing : option (Task * option Worker);
  pendingTasks : list Task;
  req_room : gmap nat handle;
  trace : list Action
}.

Definition with_nextMediasoupWorkerIdx (idx : nat) (st : State) : State :=
  {| mediasoupWorkers := mediasoupWorkers st;
     nextMediasoupWorkerIdx := idx;
     rooms := rooms st;
     roomStore := roomStore st;
     executing := executing st;
     pendingTasks := pendingTasks st;
     req_room := req_room st;
     trace := trace st |}.

Definition with_rooms (m : JSMap.t handle) (st : State) : State :=
  {| mediasoupWorkers := mediasoupWorkers st;
     nextMediasoupWorkerIdx := nextMediasoupWorkerIdx st;
     rooms := m;
     roomStore := roomStore st;
     executing := executing st;
     pendingTasks := pendingTasks st;
     req_room := req_room st;
     trace := trace st |}.

Definition with_roomStore (store : list Room) (st : State) : State :=
  {| mediasoupWorkers := mediasoupWorkers st;
     nextMediasoupWorkerIdx := nextMediasoupWorkerIdx st;
     rooms := rooms st;
     roomStore := store;
     executing := executing st;
     pendingTasks := pendingTasks st;
     req_room := req_room st;
     trace := trace st |}.

Definition with_queue (e : option (Task * option Worker)) (p : list Task)
    (st : State) : State :=
  {| mediasoupWorkers := mediasoupWorkers st;
     nextMediasoupWorkerIdx := nextMediasoupWorkerIdx st;
     rooms := rooms st;
     roomStore := roomStore st;
     executing := e;
     pendingTasks := p;
     req_room := req_room st;
     trace := trace st |}.

Definition with_req_room (req : nat) (room : handle) (st : State) : State :=
  {| mediasoupWorkers := mediasoupWorkers st;
     nextMediasoupWorkerIdx := nextMediasoupWorkerIdx st;
     rooms := rooms st;
     roomStore := roomStore st;
     executing := executing st;
     pendingTasks := pendingTasks st;
     req_room := <[req := room]> (req_room st);
     trace := trace st |}.

Definition emit (a : Action) (st : State) : State :=
  {| mediasoupWorkers := mediasoupWorkers st;
     nextMediasoupWorkerIdx := nextMediasoupWorkerIdx st;
     rooms := rooms st;
     roomStore := roomStore st;
     executing := executing st;
     pendingTasks := pendingTasks st;
     req_room := req_room st;
     trace := trace st ++ [a] |}.

(** State when [run] has launched the workers: no room, cursor at 0, an
    empty queue. *)
Definition initial (workers : list Worker) : State :=
  {| mediasoupWorkers := workers;
     nextMediasoupWorkerIdx := 0;
     rooms := [];
     roomStore := [];
     executing := None;
     pendingTasks := [];
     req_room := ∅;
     trace := [] |}.

(** ** Worker pool *)

(** [getMediasoupWorker]: the worker under the cursor ([undefined], here
    [None], when the index is out of range), then [++nextMediasoupWorkerIdx]
    with the reset to 0 when it equals the length. *)
Definition getMediasoupWorker (st : State) : option Worker * State :=
  let worker := mediasoupWorkers st !! nextMediasoupWorkerIdx st in
  let idx := S (nextMediasoupWorkerIdx st) in
  (worker,
   with_nextMediasoupWorkerIdx
     (if decide (idx = length (mediasoupWorkers st)) then 0 else idx) st).

(** ** Room registry *)

(** Modelled from the spec: [Room.create] of [lib/Room.js], which is not
    part of [server.js].  "create(worker, roomId, consumerReplicas) → Room |
    fails": when the promise resolves a new [Room] object bound to the
    worker and to [consumerReplicas] exists, when it rejects there is
    none. *)
Definition Room_create (mediasoupWorker : option Worker) (roomId : string)
    (consumerReplicas : number) (o : Settled) (st : State)
    : (Error + handle) * State :=
  match o with
  | Resolved =>
      (inr (length (roomStore st)),
       with_roomStore
         (roomStore st ++
            [{| room_mediasoupWorker := mediasoupWorker;
                room_roomId := roomId;
                room_consumerReplicas := consumerReplicas;
                room_closed := false |}]) st)
  | Rejected e => (inl e, st)
  end.

(** Where [getOrCreateRoom] stands when it gives up control: it has
    returned the room it found, or it is suspended in
    [await Room.create(...)]. *)
Inductive Progress :=
| Returned (room : handle)
| AwaitingRoomCreate (mediasoupWorker : option Worker).

(** [getOrCreateRoom] up to its [await]. *)
Definition getOrCreateRoom (roomId : string) (consumerReplicas : number)
    (st : State) : Progress * State :=
  match JSMap.get (rooms st) roomId with
  | Some room => (Returned room, st)
  | None =>
      let '(mediasoupWorker, st1) := getMediasoupWorker st in
      (AwaitingRoomCreate mediasoupWorker,
       emit (RoomCreateCall mediasoupWorker roomId consumerReplicas) st1)
  end.

(** [getOrCreateRoom] from its [await] on: a rejection is thrown to the
    caller, otherwise [rooms.set(roomId, room)].  The listener
    [room.on('close', ...)] it installs is [on_RoomClose] below. *)
Definition getOrCreateRoom_resume (roomId : string)
    (mediasoupWorker : option Worker) (consumerReplicas : number)
    (o : Settled) (st : State) : (Error + handle) * State :=
  match Room_create mediasoupWorker roomId consumerReplicas o st with
  | (inr room, st1) =>
      (inr room, with_rooms (JSMap.set (rooms st1) roomId room) st1)
  | (inl e, st1) => (inl e, st1)
  end.

(** [room.close()] as far as the orchestrator sees it. *)
Definition closed_room (r : Room) : Room :=
  {| room_mediasoupWorker := room_mediasoupWorker r;
     room_roomId := room_roomId r;
     room_consumerReplicas := room_consumerReplicas r;
     room_closed := true |}.

(** The ['close'] listener installed for room [room]:
    [rooms.delete(roomId)], with the [roomId] the room was created for.  The
    listener runs every time the room emits ['close'] and deletes whatever
    is registered under [roomId] at that moment. *)
Definition on_RoomClose (room : handle) (st : State) : State :=
  match roomStore st !! room with
  | Some r =>
      with_rooms (JSMap.delete (rooms st) (room_roomId r))
        (with_roomStore (<[room := closed_room r]> (roomStore st)) st)
  | None => st
  end.

(** ** The tasks of the queue *)

(** What a task does once [await getOrCreateRoom(...)] has produced
    [room].  The signaling task accepts the connection and hands the
    transport to the room; an exception of [handleProtooConnection] reaches
    the [catch] of the task, which calls [reject(error)].  The broadcaster
    task stores the room on the request and calls [next()]. *)
Definition task_then (t : Task) (room : handle) (st : State) : State :=
  match t with
  | SignalingTask conn roomId peerId consumerReplicas =>
      let st1 := emit (Accept conn) st in
      let st2 := emit (HandleProtooConnection room peerId conn) st1 in
      match roomStore st !! room ≫= λ r, handleProtooConnection r peerId with
      | Some error => emit (Reject conn (RejectError error)) st2
      | None => st2
      end
  | BroadcasterTask req roomId =>
      emit (Next req) (with_req_room req room st)
  end.

(** The [catch] of a task whose [getOrCreateRoom] threw: [reject(error)]
    for the signaling task; [next(error)] for the broadcaster task, which
    runs the error handler. *)
Definition task_catch (t : Task) (error : Error) (st : State) : State :=
  match t with
  | SignalingTask conn roomId peerId consumerReplicas =>
      emit (Reject conn (RejectError error)) st
  | BroadcasterTask req roomId =>
      match errorHandler (Some error) with
      | Some res => emit (Send req res) st
      | None => emit (Next req) st
      end
  end.

(** ** The admission queue

    [AwaitQueue] (package [awaitqueue]) runs the pushed tasks one at a
    time, in the order of the pushes.  [AwaitQueue_next] starts the tasks
    of [pending] from the head: a task that finds its room waits for
    nothing outside the process, it runs to its end and the next one
    starts before any other event is handled; a task that has to create
    its room stays as [executing] until [Room.create] settles. *)
Fixpoint AwaitQueue_next (pending : list Task) (st : State) : State :=
  match pending with
  | [] => with_queue None [] st
  | t :: pending' =>
      match getOrCreateRoom (task_roomId t) (task_consumerReplicas t) st with
      | (Returned room, st1) => AwaitQueue_next pending' (task_then t room st1)
      | (AwaitingRoomCreate mediasoupWorker, st1) =>
          with_queue (Some (t, mediasoupWorker)) pending' st1
      end
  end.

(** [queue.push(task)]: behind the tasks that wait when one is executing,
    started at once otherwise. *)
Definition AwaitQueue_push (t : Task) (st : State) : State :=
  match executing st with
  | Some e => with_queue (Some e) (pendingTasks st ++ [t]) st
  | None => AwaitQueue_next (pendingTasks st ++ [t]) st
  end.

(** The [Room.create] the executing task waits for settles: the task runs
    to its end and the queue goes on with the tasks that wait. *)
Definition on_RoomCreateSettled (o : Settled) (st : State) : State :=
  match executing st with
  | Some (t, mediasoupWorker) =>
      match getOrCreateRoom_resume (task_roomId t) mediasoupWorker
              (task_consumerReplicas t) o st with
      | (inr room, st1) => AwaitQueue_next (pendingTasks st) (task_then t room st1)
      | (inl error, st1) => AwaitQueue_next (pendingTasks st) (task_catch t error st1)
      end
  | None => st
  end.

(** ** Signaling ingress: the [connectionrequest] handler

    [query] is [url.parse(info.request.url, true).query], each key given
    at most once. *)
Definition on_connectionrequest (conn : nat) (query : gmap string string)
    (st : State) : State :=
  let roomId := query !! "roomId" in
  let peerId := query !! "peerId" in
  if negb (truthy roomId) || negb (truthy peerId) then
    emit (Reject conn
            (RejectCode 400 "Connection request without roomId and/or peerId")) st
  else
    let consumerReplicas := JS_Number (query !! "consumerReplicas") in
    let consumerReplicas :=
      if isNaN consumerReplicas then zero else consumerReplicas in
    AwaitQueue_push
      (SignalingTask conn (default "" roomId) (default "" peerId) consumerReplicas)
      st.

(** ** Broadcaster ingress: [expressApp.param('roomId', ...)] *)
Definition on_roomId_param (req : nat) (roomId : string) (st : State) : State :=
  AwaitQueue_push (BroadcasterTask req roomId) st.

(** ** Status reporter

    [for (const room of rooms.values()) room.logStatus()].  The iterator of
    a [Map] is live: an entry deleted before the iterator reaches it is not
    visited.  [todo] are the entries the iterator has not reached yet;
    [closing] gives, for each of them, the rooms that emit ['close']
    between the previous visit and this one (any rooms may do so there; no
    room is created while the loop runs, rooms are created by the tasks of
    the queue).  The result is the exception that ended the loop, if
    any. *)
Fixpoint logStatus_loop (todo : JSMap.t handle) (closing : list (list handle))
    (st : State) : option Error * State :=
  match todo with
  | [] => (None, st)
  | (roomId, room) :: todo' =>
      let st1 := foldl (λ s h, on_RoomClose h s) st (hd [] closing) in
      match JSMap.get (rooms st1) roomId with
      | Some room' =>
          if decide (room' = room) then
            match roomStore st1 !! room ≫= logStatus with
            | Some error => (Some error, emit (LogStatus room) st1)
            | None => logStatus_loop todo' (tl closing) (emit (LogStatus room) st1)
            end
          else logStatus_loop todo' (tl closing) st1
      | None => logStatus_loop todo' (tl closing) st1
      end
  end.

Definition on_statusInterval (closing : list (list handle)) (st : State)
    : option Error * State :=
  logStatus_loop (rooms st) closing st.

(** ** The orchestrator as a machine

    What happens to the orchestrator from outside: a connection request
    arrives, a broadcaster request reaches the [roomId] parameter handler,
    the [Room.create] the queue waits for settles, a room emits ['close']
    (a room may do so more than once), the timer of the status reporter
    fires. *)
Inductive Event :=
| ConnectionRequest (conn : nat) (query : gmap string string)
| BroadcasterRequest (req : nat) (roomId : string)
| RoomCreateSettled (o : Settled)
| RoomClose (room : handle)
| StatusInterval (closing : list (list handle)).

Definition step (st : State) (ev : Event) : State :=
  match ev with
  | ConnectionRequest conn query => on_connectionrequest conn query st
  | BroadcasterRequest req roomId => on_roomId_param req roomId st
  | RoomCreateSettled o => on_RoomCreateSettled o st
  | RoomClose room => on_RoomClose room st
  | StatusInterval closing => (on_statusInterval closing st).2
  end.

Definition run_events (st : State) (evs : list Event) : State :=
  foldl step st evs.

End Orchestrator.


(** ** Start-up of the workers

    The [listenInfo] objects are mutated in place, so they live in a store
    and arrays hold references (indices) into it. *)
Record Config := {
  numWorkers : nat;
  webRtcServerOptions : list ListenInfo
}.

(** [listenInfoStore]: the [listenInfo] objects that exist;
    [launched]: the array [mediasoupWorkers]. *)
Record Startup := {
  listenInfoStore : list ListenInfo;
  launched : list Worker
}.

(** The store when [config.js] has been loaded holds the objects of
    [config.mediasoup.webRtcServerOptions.listenInfos], and that array
    refers to them. *)
Definition loaded (config : Config) : Startup :=
  {| listenInfoStore := webRtcServerOptions config; launched := [] |}.

Definition config_listenInfos (config : Config) : list nat :=
  seq 0 (length (webRtcServerOptions config)).

(** Modelled from the spec: [utils.clone] of [lib/utils.js], which is not
    part of [server.js]; "each worker's options are a deep clone of the
    shared configuration": every object of the array is copied to a new
    object and the result refers to the copies. *)
Definition utils_clone (listenInfos : list nat) (store : list ListenInfo)
    : list nat * list ListenInfo :=
  let copies := omap (λ listenInfo, store !! listenInfo) listenInfos in
  (seq (length store) (length copies), store ++ copies).

(** [listenInfo.port += portIncrement] *)
Definition port_add (portIncrement : nat) (listenInfo : ListenInfo) : ListenInfo :=
  {| protocol := protocol listenInfo;
     ip := ip listenInfo;
     port := (port listenInfo + Z.of_nat portIncrement)%Z |}.

Definition set_webRtcServer (webRtcServer : list ListenInfo) (worker : Worker)
    : Worker :=
  {| worker_no := worker_no worker; appData_webRtcServer := Some webRtcServer |}.

(** Body of the loop of [runMediasoupWorkers], on the path where
    [mediasoup.createWorker] and [worker.createWebRtcServer] resolve (a
    rejection ends [run]).  [useWebRtcServer] is
    [process.env.MEDIASOUP_USE_WEBRTC_SERVER !== 'false']; the server is
    created with the ports the options have at the call. *)
Definition launchWorker (config : Config) (useWebRtcServer : bool)
    (s : Startup) : Startup :=
  let worker :=
    {| worker_no := length (launched s); appData_webRtcServer := None |} in
  let mediasoupWorkers := launched s ++ [worker] in
  if useWebRtcServer then
    let '(webRtcServerOptions, store) :=
      utils_clone (config_listenInfos config) (listenInfoStore s) in
    let portIncrement := length mediasoupWorkers - 1 in
    let store :=
      foldl (λ store listenInfo, alter (port_add portIncrement) listenInfo store)
        store webRtcServerOptions in
    let webRtcServer := omap (λ listenInfo, store !! listenInfo) webRtcServerOptions in
    {| listenInfoStore := store;
       launched :=
         alter (set_webRtcServer webRtcServer) (length mediasoupWorkers - 1)
           mediasoupWorkers |}
  else
    {| listenInfoStore := listenInfoStore s; launched := mediasoupWorkers |}.

(** [for (let i = 0; i < numWorkers; ++i) ...] *)
Definition runMediasoupWorkers (config : Config) (useWebRtcServer : bool)
    : Startup :=
  Nat.iter (numWorkers config) (launchWorker config useWebRtcServer)
    (loaded config).

(** ** Instances to run the model on *)

(** Decimal digits, for a [Number] on unsigned integers; [None] is [NaN]. *)
Fixpoint decimal (s : string) (acc : Z) : option Z :=
  match s with
  | EmptyString => Some acc
  | String c s' =>
      let d := Z.of_nat (Ascii.nat_of_ascii c) in
      if ((48 <=? d) && (d <=? 57))%Z then decimal s' (10 * acc + (d - 48))%Z
      else None
  end.

Definition integers : JSNumber :=
  {| number := option Z;
     JS_Number := λ v, v ≫= λ s, decimal s 0%Z;
     isNaN := λ n, match n with Some _ => false | None => true end;
     zero := Some 0%Z |}.

(** Rooms whose methods return normally. *)
Definition quietRooms : @RoomCollaborator integers :=
  {| handleProtooConnection := λ _ _, None;
     logStatus := λ _, None |}.

(** Rooms whose [logStatus] throws once the room is closed. *)
Definition strictRooms : @RoomCollaborator integers :=
  {| handleProtooConnection := λ _ _, None;
     logStatus := λ r,
       if room_closed r then
         Some {| err_name := "InvalidStateError";
                 err_message := "closed";
                 err_status := None |}
       else None |}.

Definition demoConfig : Config :=
  {| numWorkers := 2;
     webRtcServerOptions :=
       [ {| protocol := "udp"; ip := "0.0.0.0"; port := 44444 |};
         {| protocol := "tcp"; ip := "0.0.0.0"; port := 44444 |} ] |}.

Definition demoWorkers : list Worker := launched (runMediasoupWorkers demoConfig true).

Definition demoQuery (roomId peerId : string) : gmap string string :=
  {[ "roomId" := roomId; "peerId" := peerId ]}.

Definition demoError : Error :=
  {| err_name := "Error"; err_message := "router creation failed"; err_status := None |}.

(** A burst of three calls for room ["R1"]: two peers and a broadcaster. *)
Definition demoBurst : list (@Task integers) :=
  [ SignalingTask (num := integers) 1 "R1" "alice" (Some 0%Z);
    SignalingTask (num := integers) 2 "R1" "bob" (Some 2%Z);
    BroadcasterTask 3 "R1" ].

(** Rooms ["A"], ["B"], ["C"] created one after the other. *)
Definition demoThreeRooms : list Event :=
  [ ConnectionRequest 1 (demoQuery "A" "alice"); RoomCreateSettled Resolved;
    BroadcasterRequest 2 "B"; RoomCreateSettled Resolved;
    ConnectionRequest 3 (demoQuery "C" "carol"); RoomCreateSettled Resolved ].

(** The construction of ["A"] fails, then ["B"] is created. *)
Definition demoFailedFirst : list Event :=
  [ ConnectionRequest 1 (demoQuery "A" "alice");
    RoomCreateSettled (Rejected demoError);
    ConnectionRequest 2 (demoQuery "B" "bob"); RoomCreateSettled Resolved ].

(** An error that carries a status. *)
Definition demoNotFound : Error :=
  {| err_name := "Error";
     err_message := "no such broadcaster";
     err_status := Some 404%Z |}.

Definition demoTypeError : Error :=
  {| err_name := "TypeError"; err_message := "missing body.id"; err_status := None |}.

(** Room ["A"], as the first signaling connection creates it. *)
Definition demoRoomA : @Room integers :=
  @Build_Room integers (demoWorkers !! 0) "A" (Some 0%Z) false.

(** The state with room ["A"] and one peer in it. *)
Definition demoOneRoom : @State integers :=
  run_events (collab := quietRooms) (initial demoWorkers)
    [ ConnectionRequest 1 (demoQuery "A" "alice"); RoomCreateSettled Resolved ].

(** Two broadcaster requests create the rooms ["A"] and ["B"]. *)
Definition demoTwoRooms : list Event :=
  [ BroadcasterRequest 1 "A"; RoomCreateSettled Resolved;
    BroadcasterRequest 2 "B"; RoomCreateSettled Resolved ].

(** ** Vocabulary of the statements *)
Section Vocabulary.
Context {num : JSNumber}.

(** What the registry holds: one entry per identifier, and the room
    registered under an identifier is a room of the store that was created
    for this identifier and has not closed. *)
Record rooms_ok (m : JSMap.t handle) (store : list Room) : Prop := {
  ok_keys : NoDup (JSMap.keys m);
  ok_registered : ∀ roomId room,
    JSMap.get m roomId = Some room →
    ∃ r, store !! room = Some r ∧ room_roomId r = roomId
         ∧ room_closed r = false
}.

(** The queue and the registry: the identifier of the task that is
    creating a room is not registered, and tasks wait only behind an
    executing task. *)
Record registry_ok (st : State) : Prop := {
  ok_rooms : rooms_ok (rooms st) (roomStore st);
  ok_executing : ∀ t w,
    executing st = Some (t, w) → JSMap.get (rooms st) (task_roomId t) = None;
  ok_idle : executing st = None → pendingTasks st = []
}.

(** The rooms that emit ['close'] just before the iterator of the status
    reporter looks at its [j]-th entry. *)
Definition closing_before (closing : list (list handle)) (j : nat) : list handle :=
  default [] (closing !! j).

(** The caller that pushed [t] got [room] from [getOrCreateRoom]: the
    signaling task handed its connection to that room, the broadcaster task
    stored it on its request. *)
Definition received (t : Task) (room : handle) (tr : list Action) (st : State)
    : Prop :=
  match t with
  | SignalingTask conn _ peerId _ =>
      Accept conn ∈ tr ∧ HandleProtooConnection room peerId conn ∈ tr
  | BroadcasterTask req _ => Next req ∈ tr ∧ req_room st !! req = Some room
  end.

(** The workers handed to [Room.create], call after call. *)
Definition creations (tr : list Action) : list (option Worker) :=
  omap (λ a, match a with RoomCreateCall w _ _ => Some w | _ => None end) tr.

(** The [consumerReplicas] the [connectionrequest] handler passes on. *)
Definition query_consumerReplicas (query : gmap string string) : number :=
  let consumerReplicas := JS_Number (query !! "consumerReplicas") in
  if isNaN consumerReplicas then zero else consumerReplicas.

(** What the round-robin depends on: the pool, the cursor, the workers
    handed to [Room.create] so far and the workers of the rooms of the
    store. *)
Record PoolView := {
  pv_workers : list Worker;
  pv_idx : nat;
  pv_creations : list (option Worker);
  pv_rooms : list (option Worker)
}.

Definition pool_view (st : State) : PoolView :=
  {| pv_workers := mediasoupWorkers st;
     pv_idx := nextMediasoupWorkerIdx st;
     pv_creations := creations (trace st);
     pv_rooms := room_mediasoupWorker <$> roomStore st |}.

(** The cursor counts the calls of [Room.create] modulo the size of the
    pool, and the [k]-th call got the worker at [k mod P]. *)
Definition round_robin (workers : list Worker) (v : PoolView) : Prop :=
  pv_workers v = workers
  ∧ pv_idx v = length (pv_creations v) mod length workers
  ∧ ∀ k w, pv_creations v !! k = Some w → w = workers !! (k mod length workers).

(** The workers of the rooms of the store, followed by the worker of the
    room that is being created, are the workers handed to [Room.create]:
    no construction has failed. *)
Definition all_constructed (st : State) : Prop :=
  pv_rooms (pool_view st)
  ++ match executing st with Some (_, w) => [w] | None => [] end
  = pv_creations (pool_view st).

Definition is_rejection (ev : Event) : bool :=
  match ev with
  | RoomCreateSettled (Rejected _) => true
  | _ => false
  end.

(** Every [accept()] of the trace is directly followed by the hand-over of
    that connection to a room, and [ok conn room peerId] holds of the
    hand-over. *)
Fixpoint accepts_ok (ok : nat → handle → string → Prop) (tr : list Action)
    : Prop :=
  match tr with
  | [] => True
  | Accept conn :: tr' =>
      match tr' with
      | HandleProtooConnection room peerId conn' :: _ =>
          conn' = conn ∧ ok conn room peerId
      | _ => False
      end ∧ accepts_ok ok tr'
  | _ :: tr' => accepts_ok ok tr'
  end.

End Vocabulary.

(** ** Further vocabulary *)

(** [process.env.MEDIASOUP_USE_WEBRTC_SERVER !== 'false'], on the value of
    the variable ([None] when it is not set). *)
Definition useWebRtcServer (env : option string) : bool :=
  negb (bool_decide (env = Some "false")).

(** The error object when the error handler has run:
    [error.status = error.status || ...] assigns the status. *)
Definition errorHandler_error (error : Error) : Error :=
  {| err_name := err_name error;
     err_message := err_message error;
     err_status :=
       Some (status_or (err_status error)
               (if decide (err_name error = "TypeError") then 400%Z else 500%Z)) |}.

(** The rooms that emit ['close'] when the event happens. *)
Definition closes_of (ev : Event) : list handle :=
  match ev with
  | RoomClose room => [room]
  | StatusInterval closing => mjoin closing
  | _ => []
  end.

(** Who waits for an answer: a signaling connection or a broadcaster
    request. *)
Inductive Caller :=
| Connection (conn : nat)
| Request (req : nat).

Section MoreVocabulary.
Context {num : JSNumber} {collab : RoomCollaborator}.

(** [n] calls of [getMediasoupWorker] in a row. *)
Fixpoint getMediasoupWorker_times (n : nat) (st : State)
    : list (option Worker) * State :=
  match n with
  | 0 => ([], st)
  | S n' =>
      let '(worker, st1) := getMediasoupWorker st in
      let '(workers, st2) := getMediasoupWorker_times n' st1 in
      (worker :: workers, st2)
  end.

(** The state in which [run] starts to serve: the workers of
    [runMediasoupWorkers], no room yet. *)
Definition started (config : Config) (env : option string) : State :=
  initial (launched (runMediasoupWorkers config (useWebRtcServer env))).

Definition task_caller (t : Task) : Caller :=
  match t with
  | SignalingTask conn _ _ _ => Connection conn
  | BroadcasterTask req _ => Request req
  end.

(** The answer a queued task gives to its caller: [accept()] or
    [reject(error)] for a connection, [next()] or an error response for a
    request. *)
Definition answer_of (a : Action) : option Caller :=
  match a with
  | Accept conn => Some (Connection conn)
  | Reject conn (RejectError _) => Some (Connection conn)
  | Next req => Some (Request req)
  | Send req _ => Some (Request req)
  | _ => None
  end.

Definition answered (tr : list Action) : list Caller := omap answer_of tr.

(** The tasks of the queue, the executing one first. *)
Definition queued (st : State) : list Task :=
  match executing st with Some (t, _) => [t] | None => [] end
  ++ pendingTasks st.

(** The task an event pushes on the queue, if any. *)
Definition admitted (ev : Event) : list Task :=
  match ev with
  | ConnectionRequest conn query =>
      if negb (truthy (query !! "roomId")) || negb (truthy (query !! "peerId"))
      then []
      else [SignalingTask conn (default "" (query !! "roomId"))
              (default "" (query !! "peerId")) (query_consumerReplicas query)]
  | BroadcasterRequest req roomId => [BroadcasterTask req roomId]
  | _ => []
  end.

(** [r'] is the [Room] object [r] later on: the same worker, identifier
    and [consumerReplicas]; once closed it stays closed. *)
Definition same_room (r r' : Room) : Prop :=
  room_mediasoupWorker r' = room_mediasoupWorker r
  ∧ room_roomId r' = room_roomId r
  ∧ room_consumerReplicas r' = room_consumerReplicas r
  ∧ (room_closed r = true → room_closed r' = true).

(** A call that is not [reject] with a status code. *)
Definition not_reject_code (a : Action) : Prop :=
  match a with
  | Reject _ (RejectCode _ _) => False
  | _ => True
  end.

(** No [NaN] as [consumerReplicas]. *)
Definition replicas_ok (a : Action) : Prop :=
  match a with
  | RoomCreateCall _ _ consumerReplicas => isNaN consumerReplicas = false
  | _ => True
  end.

(** The event is the settlement of a [Room.create]. *)
Definition is_settlement (ev : Event) : bool :=
  match ev with
  | RoomCreateSettled _ => true
  | _ => false
  end.

(** [store'] is [store] later on: the rooms of [store] are there, each
    with the worker and the identifier it had. *)
Definition keeps_rooms (store store' : list Room) : Prop :=
  ∀ room r, store !! room = Some r →
            ∃ r', store' !! room = Some r' ∧ same_room r r'.

(** Connection [conn] is handed to a room of the store that has the
    identifier a task of [pushed] for this connection and [peerId] asked
    for. *)
Definition own_room (pushed : list Task) (store : list Room)
    (conn : nat) (room : handle) (peerId : string) : Prop :=
  ∃ r consumerReplicas,
    store !! room = Some r
    ∧ SignalingTask conn (room_roomId r) peerId consumerReplicas ∈ pushed.

(** Who is let in where, [pushed] being the tasks pushed on the queue so
    far.  Every [accept()] is directly followed by the hand-over of the
    connection to its own room; every request whose route handler has
    been started with [next()] has as [req.room] a room of the store with
    the identifier a task of this request asked for. *)
Record admissions_ok (pushed : list Task) (st : State) : Prop := {
  ok_accepts : accepts_ok (own_room pushed (roomStore st)) (trace st);
  ok_routes : ∀ req,
    Next req ∈ trace st →
    ∃ room r, req_room st !! req = Some room ∧ roomStore st !! room = Some r
              ∧ BroadcasterTask req (room_roomId r) ∈ pushed
}.

(** What holds in addition as long as no room emits ['close'] a second
    time, [closed_rooms] being the rooms that have emitted ['close']: a
    room that has not closed is the room registered under its identifier,
    and a room that has closed is one of [closed_rooms]. *)
Record registry_exact (closed_rooms : list handle) (st : State) : Prop := {
  exact_live : ∀ room r,
    roomStore st !! room = Some r → room_closed r = false →
    JSMap.get (rooms st) (room_roomId r) = Some room;
  exact_closed : ∀ room r,
    roomStore st !! room = Some r → room_closed r = true →
    room ∈ closed_rooms
}.

(** The request a task answers, and the request an action answers:
    [next()] or a response. *)
Definition request_of (t : Task) : option nat :=
  match t with
  | BroadcasterTask req _ => Some req
  | SignalingTask _ _ _ _ => None
  end.

Definition response_to (a : Action) : option nat :=
  match a with
  | Next req => Some req
  | Send req _ => Some req
  | _ => None
  end.

(** The calls [room.logStatus()] of the rooms [hs], in that order. *)
Definition logStatus_calls (hs : list handle) (st : State) : State :=
  foldl (λ s h, emit (LogStatus h) s) st hs.

End MoreVocabulary.

(** Rooms whose [logStatus] throws for the room ["B"]. *)
Definition moodyRooms : @RoomCollaborator integers :=
  {| handleProtooConnection := λ _ _, None;
     logStatus := λ r,
       if decide (room_roomId r = "B") then
         Some {| err_name := "Error"; err_message := "B"; err_status := None |}
       else None |}.

(** Room ["A"] exists and a broadcaster request is creating room ["B"]. *)
Definition demoCreatingB : @State integers :=
  step (collab := quietRooms) demoOneRoom (BroadcasterRequest 5 "B").

(** Requests that arrive meanwhile: a peer for room ["A"], a request
    without [peerId], a run of the status reporter. *)
Definition demoMeanwhile : list Event :=
  [ ConnectionRequest 6 (demoQuery "A" "bob");
    ConnectionRequest 7 {[ "roomId" := "A" ]};
    StatusInterval [] ].

(** Room ["A"] has closed and has been created again by a broadcaster
    request. *)
Definition demoReopened : @State integers :=
  run_events (collab := quietRooms) (initial demoWorkers)
    [ ConnectionRequest 1 (demoQuery "A" "alice"); RoomCreateSettled Resolved;
      RoomClose 0; BroadcasterRequest 4 "A"; RoomCreateSettled Resolved ].

(** * Properties *)

(** ** The [Map] *)
Section JSMapFacts.
Context {V : Type}.
Implicit Types (m : JSMap.t V) (k : string) (v : V).

Lemma JSMap_get_set_eq m k v : JSMap.get (JSMap.set m k v) k = Some v.
Proof.
  induction m as [|[k' v'] m IH]; simpl.
  - by rewrite decide_True.
  - destruct (decide (k' = k)) as [->|Hne]; simpl.
    + by rewrite decide_True.
    + by rewrite decide_False.
Qed.

Lemma JSMap_get_set_ne m k k' v :
  k ≠ k' → JSMap.get (JSMap.set m k v) k' = JSMap.get m k'.
Proof.
  intros Hne. induction m as [|[k0 v0] m IH]; simpl.
  - by rewrite decide_False.
  - destruct (decide (k0 = k)) as [->|Hne0]; simpl.
    + by rewrite !decide_False.
    + by rewrite IH.
Qed.

Lemma JSMap_get_delete_eq m k : JSMap.get (JSMap.delete m k) k = None.
Proof.
  induction m as [|[k0 v0] m IH]; simpl; [done|].
  destruct (decide (k0 = k)) as [->|Hne0]; simpl; [done|].
  by rewrite decide_False.
Qed.

Lemma JSMap_get_delete_ne m k k' :
  k ≠ k' → JSMap.get (JSMap.delete m k) k' = JSMap.get m k'.
Proof.
  intros Hne. induction m as [|[k0 v0] m IH]; simpl; [done|].
  destruct (decide (k0 = k)) as [->|Hne0]; simpl.
  - by rewrite decide_False.
  - by rewrite IH.
Qed.

Lemma JSMap_get_delete_None m k k' :
  JSMap.get m k' = None → JSMap.get (JSMap.delete m k) k' = None.
Proof.
  intros Hnone. destruct (decide (k = k')) as [->|Hne].
  - apply JSMap_get_delete_eq.
  - by rewrite JSMap_get_delete_ne.
Qed.

Lemma JSMap_get_None_keys m k : JSMap.get m k = None ↔ k ∉ JSMap.keys m.
Proof.
  unfold JSMap.keys. induction m as [|[k0 v0] m IH]; simpl.
  - split; [intros _; apply not_elem_of_nil | done].
  - rewrite not_elem_of_cons. destruct (decide (k0 = k)) as [->|Hne0].
    + split; [done | by intros [? _]].
    + rewrite IH. split; [by intros; split | by intros [_ ?]].
Qed.

Lemma JSMap_keys_set m k v :
  NoDup (JSMap.keys m) → NoDup (JSMap.keys (JSMap.set m k v)).
Proof.
  unfold JSMap.keys. induction m as [|[k0 v0] m IH]; simpl; intros Hnd.
  - apply NoDup_singleton.
  - apply NoDup_cons in Hnd as [Hnotin Hnd].
    destruct (decide (k0 = k)) as [->|Hne0]; simpl.
    + by apply NoDup_cons.
    + apply NoDup_cons. split; [|by apply IH].
      apply (JSMap_get_None_keys (JSMap.set m k v) k0).
      rewrite JSMap_get_set_ne by done.
      by apply JSMap_get_None_keys.
Qed.

Lemma JSMap_keys_delete m k :
  NoDup (JSMap.keys m) → NoDup (JSMap.keys (JSMap.delete m k)).
Proof.
  unfold JSMap.keys. induction m as [|[k0 v0] m IH]; simpl; intros Hnd; [done|].
  apply NoDup_cons in Hnd as [Hnotin Hnd].
  destruct (decide (k0 = k)) as [->|Hne0]; simpl; [by apply IH|].
  apply NoDup_cons. split; [|by apply IH].
  apply (JSMap_get_None_keys (JSMap.delete m k) k0).
  apply JSMap_get_delete_None. by apply JSMap_get_None_keys.
Qed.

Lemma JSMap_get_entry m k v :
  NoDup (JSMap.keys m) → (k, v) ∈ m → JSMap.get m k = Some v.
Proof.
  unfold JSMap.keys. induction m as [|[k0 v0] m IH]; simpl; intros Hnd Hin.
  - by apply elem_of_nil in Hin.
  - apply NoDup_cons in Hnd as [Hnotin Hnd].
    apply elem_of_cons in Hin as [Heq|Hin].
    + inversion Heq; subst. by rewrite decide_True.
    + destruct (decide (k0 = k)) as [->|Hne0]; [|by apply IH].
      exfalso. apply Hnotin. apply list_elem_of_fmap. by exists (k, v).
Qed.

End JSMapFacts.

Ltac elem_cases H :=
  repeat (apply elem_of_cons in H as [H|H]; [try congruence|]);
  try (by apply elem_of_nil in H).

(** ** Frame properties of the handlers *)
Section Frames.
Context {num : JSNumber} {collab : RoomCollaborator}.
Implicit Types (st : State) (t : Task) (room : handle).

Lemma with_queue_rooms e p st : rooms (with_queue e p st) = rooms st.
Proof. done. Qed.

Lemma with_queue_roomStore e p st : roomStore (with_queue e p st) = roomStore st.
Proof. done. Qed.

Lemma with_queue_trace e p st : trace (with_queue e p st) = trace st.
Proof. done. Qed.

Lemma task_then_rooms t room st : rooms (task_then t room st) = rooms st.
Proof. destruct t; simpl; [destruct (_ ≫= _)|]; done. Qed.

Lemma task_then_roomStore t room st :
  roomStore (task_then t room st) = roomStore st.
Proof. destruct t; simpl; [destruct (_ ≫= _)|]; done. Qed.

Lemma task_then_workers t room st :
  mediasoupWorkers (task_then t room st) = mediasoupWorkers st.
Proof. destruct t; simpl; [destruct (_ ≫= _)|]; done. Qed.

Lemma task_then_idx t room st :
  nextMediasoupWorkerIdx (task_then t room st) = nextMediasoupWorkerIdx st.
Proof. destruct t; simpl; [destruct (_ ≫= _)|]; done. Qed.

Lemma task_catch_rooms t e st : rooms (task_catch t e st) = rooms st.
Proof. by destruct t. Qed.

Lemma task_catch_roomStore t e st :
  roomStore (task_catch t e st) = roomStore st.
Proof. by destruct t. Qed.

Lemma task_catch_workers t e st :
  mediasoupWorkers (task_catch t e st) = mediasoupWorkers st.
Proof. by destruct t. Qed.

Lemma task_catch_idx t e st :
  nextMediasoupWorkerIdx (task_catch t e st) = nextMediasoupWorkerIdx st.
Proof. by destruct t. Qed.

Lemma AwaitQueue_next_rooms pending st :
  rooms (AwaitQueue_next pending st) = rooms st.
Proof.
  revert st. induction pending as [|t pending IH]; intros st; simpl; [done|].
  unfold getOrCreateRoom.
  destruct (JSMap.get (rooms st) (task_roomId t)); simpl; [|done].
  by rewrite IH, task_then_rooms.
Qed.

Lemma AwaitQueue_next_roomStore pending st :
  roomStore (AwaitQueue_next pending st) = roomStore st.
Proof.
  revert st. induction pending as [|t pending IH]; intros st; simpl; [done|].
  unfold getOrCreateRoom.
  destruct (JSMap.get (rooms st) (task_roomId t)); simpl; [|done].
  by rewrite IH, task_then_roomStore.
Qed.

Lemma AwaitQueue_next_workers pending st :
  mediasoupWorkers (AwaitQueue_next pending st) = mediasoupWorkers st.
Proof.
  revert st. induction pending as [|t pending IH]; intros st; simpl; [done|].
  unfold getOrCreateRoom.
  destruct (JSMap.get (rooms st) (task_roomId t)); simpl; [|done].
  by rewrite IH, task_then_workers.
Qed.

Lemma AwaitQueue_next_queue pending st :
  (∀ t w, executing (AwaitQueue_next pending st) = Some (t, w) →
          JSMap.get (rooms st) (task_roomId t) = None)
  ∧ (executing (AwaitQueue_next pending st) = None →
     pendingTasks (AwaitQueue_next pending st) = []).
Proof.
  revert st. induction pending as [|t pending IH]; intros st; simpl; [done|].
  unfold getOrCreateRoom.
  destruct (JSMap.get (rooms st) (task_roomId t)) as [h|] eqn:Hget; simpl.
  - destruct (IH (task_then t h st)) as [IH1 IH2]. split; [|done].
    intros t' w Hex. rewrite <- (task_then_rooms t h st). by eapply IH1.
  - split; [|done]. intros t' w [= <- <-]. done.
Qed.

Lemma AwaitQueue_next_ok pending st :
  rooms_ok (rooms st) (roomStore st) → registry_ok (AwaitQueue_next pending st).
Proof.
  intros Hok. destruct (AwaitQueue_next_queue pending st) as [H1 H2].
  split.
  - by rewrite AwaitQueue_next_rooms, AwaitQueue_next_roomStore.
  - intros t w Hex. rewrite AwaitQueue_next_rooms. by eapply H1.
  - done.
Qed.

Lemma AwaitQueue_push_ok t st : registry_ok st → registry_ok (AwaitQueue_push t st).
Proof.
  intros [Hrooms Hexec Hidle]. unfold AwaitQueue_push.
  destruct (executing st) as [e|] eqn:Hex.
  - split; simpl; [done| |done]. intros t' w Heq. rewrite Heq in Hex. eauto.
  - by apply AwaitQueue_next_ok.
Qed.

Lemma rooms_ok_set (m : JSMap.t handle) (store : list Room) w roomId c :
  rooms_ok m store →
  rooms_ok (JSMap.set m roomId (length store))
    (store ++ [{| room_mediasoupWorker := w; room_roomId := roomId;
                  room_consumerReplicas := c; room_closed := false |}]).
Proof.
  intros [Hkeys Hreg]. split.
  - by apply JSMap_keys_set.
  - intros k room Hget. destruct (decide (roomId = k)) as [->|Hne].
    + rewrite JSMap_get_set_eq in Hget. injection Hget as <-.
      eexists. split; [apply list_lookup_middle; lia|done].
    + rewrite JSMap_get_set_ne in Hget by done.
      destruct (Hreg _ _ Hget) as (r & Hr & ? & ?).
      exists r. split; [|done]. by apply lookup_app_l_Some.
Qed.

Lemma rooms_ok_close (m : JSMap.t handle) (store : list Room) room r :
  rooms_ok m store → store !! room = Some r →
  rooms_ok (JSMap.delete m (room_roomId r)) (<[room := closed_room r]> store).
Proof.
  intros [Hkeys Hreg] Hr. split.
  - by apply JSMap_keys_delete.
  - intros k room' Hget. destruct (decide (room_roomId r = k)) as [<-|Hne].
    + by rewrite JSMap_get_delete_eq in Hget.
    + rewrite JSMap_get_delete_ne in Hget by done.
      destruct (Hreg _ _ Hget) as (r' & Hr' & Hid & Hopen').
      exists r'. split; [|done]. rewrite list_lookup_insert_ne; [done|].
      intros ->. congruence.
Qed.

Lemma on_RoomClose_ok room st : registry_ok st → registry_ok (on_RoomClose room st).
Proof.
  intros Hok. unfold on_RoomClose.
  destruct (roomStore st !! room) as [r|] eqn:Hr; [|done].
  destruct Hok as [Hrooms Hexec Hidle]. split; simpl.
  - by apply rooms_ok_close.
  - intros t w Hex. apply JSMap_get_delete_None. eauto.
  - done.
Qed.

Lemma on_RoomCreateSettled_ok o st :
  registry_ok st → registry_ok (on_RoomCreateSettled o st).
Proof.
  intros Hok. unfold on_RoomCreateSettled.
  destruct (executing st) as [[t w]|] eqn:Hex; [|done].
  destruct Hok as [Hrooms Hexec Hidle].
  destruct o as [|e]; simpl; apply AwaitQueue_next_ok.
  - rewrite task_then_rooms, task_then_roomStore. simpl.
    apply rooms_ok_set; eauto.
  - by rewrite task_catch_rooms, task_catch_roomStore.
Qed.

Lemma emit_ok a st : registry_ok st → registry_ok (emit a st).
Proof. by intros [? ? ?]. Qed.

Lemma closes_ok rooms_closing st :
  registry_ok st → registry_ok (foldl (λ s h, on_RoomClose h s) st rooms_closing).
Proof.
  revert st. induction rooms_closing as [|h hs IH]; intros st Hok; simpl; [done|].
  by apply IH, on_RoomClose_ok.
Qed.

Lemma logStatus_loop_ok todo closing st :
  registry_ok st → registry_ok (logStatus_loop todo closing st).2.
Proof.
  revert closing st. induction todo as [|[roomId room] todo IH];
    intros closing st Hok; simpl; [done|].
  pose proof (closes_ok (hd [] closing) st Hok) as Hok1.
  destruct (JSMap.get _ roomId) as [room'|]; [|by apply IH].
  destruct (decide (room' = room)); [|by apply IH].
  destruct (_ ≫= logStatus); simpl.
  - by apply emit_ok.
  - by apply IH, emit_ok.
Qed.

Lemma on_connectionrequest_ok conn query st :
  registry_ok st → registry_ok (on_connectionrequest conn query st).
Proof.
  intros Hok. unfold on_connectionrequest.
  destruct (_ || _); [by apply emit_ok | by apply AwaitQueue_push_ok].
Qed.

Lemma step_ok st ev : registry_ok st → registry_ok (step st ev).
Proof.
  intros Hok. destruct ev; simpl.
  - by apply on_connectionrequest_ok.
  - by apply AwaitQueue_push_ok.
  - by apply on_RoomCreateSettled_ok.
  - by apply on_RoomClose_ok.
  - by apply logStatus_loop_ok.
Qed.

Lemma initial_ok workers : registry_ok (initial workers).
Proof.
  split; simpl; [|done|done]. split; simpl.
  - apply NoDup_nil_2.
  - done.
Qed.

Lemma run_events_ok st evs : registry_ok st → registry_ok (run_events st evs).
Proof.
  revert st. induction evs as [|ev evs IH]; intros st Hok; simpl; [done|].
  by apply IH, step_ok.
Qed.

(** *** What the handlers leave alone *)

Lemma on_RoomClose_executing room st :
  executing (on_RoomClose room st) = executing st.
Proof.
  unfold on_RoomClose. by destruct (roomStore st !! room) as [r|].
Qed.

Lemma closes_executing hs st :
  executing (foldl (λ s h, on_RoomClose h s) st hs) = executing st.
Proof.
  revert st. induction hs as [|h hs IH]; intros st; simpl; [done|].
  by rewrite IH, on_RoomClose_executing.
Qed.

Lemma on_RoomClose_length room st :
  length (roomStore (on_RoomClose room st)) = length (roomStore st).
Proof.
  unfold on_RoomClose. destruct (roomStore st !! room) as [r|]; [|done].
  simpl. apply length_insert.
Qed.

Lemma on_RoomClose_trace room st : trace (on_RoomClose room st) = trace st.
Proof.
  unfold on_RoomClose. by destruct (roomStore st !! room) as [r|].
Qed.

Lemma closes_length hs st :
  length (roomStore (foldl (λ s h, on_RoomClose h s) st hs))
  = length (roomStore st).
Proof.
  revert st. induction hs as [|h hs IH]; intros st; simpl; [done|].
  by rewrite IH, on_RoomClose_length.
Qed.

Lemma closes_trace hs st :
  trace (foldl (λ s h, on_RoomClose h s) st hs) = trace st.
Proof.
  revert st. induction hs as [|h hs IH]; intros st; simpl; [done|].
  by rewrite IH, on_RoomClose_trace.
Qed.

Lemma logStatus_loop_executing todo closing st :
  executing (logStatus_loop todo closing st).2 = executing st.
Proof.
  revert closing st. induction todo as [|[roomId room] todo IH];
    intros closing st; simpl; [done|].
  destruct (JSMap.get _ roomId) as [room'|];
    [|by rewrite IH, closes_executing].
  destruct (decide (room' = room)); [|by rewrite IH, closes_executing].
  destruct (_ ≫= logStatus); simpl.
  - by rewrite closes_executing.
  - by rewrite IH; simpl; rewrite closes_executing.
Qed.

Lemma task_then_queue t room st :
  executing (task_then t room st) = executing st
  ∧ pendingTasks (task_then t room st) = pendingTasks st.
Proof. destruct t; simpl; [destruct (_ ≫= _)|]; done. Qed.

Lemma on_RoomClose_pendingTasks room st :
  pendingTasks (on_RoomClose room st) = pendingTasks st.
Proof.
  unfold on_RoomClose. by destruct (roomStore st !! room) as [r|].
Qed.

Lemma closes_pendingTasks hs st :
  pendingTasks (foldl (λ s h, on_RoomClose h s) st hs) = pendingTasks st.
Proof.
  revert st. induction hs as [|h hs IH]; intros st; simpl; [done|].
  by rewrite IH, on_RoomClose_pendingTasks.
Qed.

Lemma logStatus_loop_pendingTasks todo closing st :
  pendingTasks (logStatus_loop todo closing st).2 = pendingTasks st.
Proof.
  revert closing st. induction todo as [|[roomId room] todo IH];
    intros closing st; simpl; [done|].
  destruct (JSMap.get _ roomId) as [room'|];
    [|by rewrite IH, closes_pendingTasks].
  destruct (decide (room' = room)); [|by rewrite IH, closes_pendingTasks].
  destruct (_ ≫= logStatus); simpl.
  - by rewrite closes_pendingTasks.
  - by rewrite IH; simpl; rewrite closes_pendingTasks.
Qed.

Lemma on_RoomClose_req_room room st :
  req_room (on_RoomClose room st) = req_room st.
Proof.
  unfold on_RoomClose. by destruct (roomStore st !! room) as [r|].
Qed.

Lemma same_room_refl (r : Room) : same_room r r.
Proof. by repeat split. Qed.

Lemma same_room_trans (r1 r2 r3 : Room) :
  same_room r1 r2 → same_room r2 r3 → same_room r1 r3.
Proof.
  intros (? & ? & ? & ?) (? & ? & ? & ?). repeat split; try congruence. auto.
Qed.

Lemma on_RoomClose_same_room room st room' r :
  roomStore st !! room' = Some r →
  ∃ r', roomStore (on_RoomClose room st) !! room' = Some r' ∧ same_room r r'.
Proof.
  intros Hr. unfold on_RoomClose.
  destruct (roomStore st !! room) as [r0|] eqn:Hr0;
    [|exists r; split; [done|apply same_room_refl]].
  simpl. destruct (decide (room = room')) as [->|Hne].
  - exists (closed_room r0).
    rewrite list_lookup_insert_eq by (by eapply lookup_lt_Some).
    split; [done|]. assert (r0 = r) as -> by congruence. by repeat split.
  - exists r. rewrite list_lookup_insert_ne by done.
    split; [done|apply same_room_refl].
Qed.

Lemma closes_same_room hs st room' r :
  roomStore st !! room' = Some r →
  ∃ r', roomStore (foldl (λ s h, on_RoomClose h s) st hs) !! room' = Some r'
        ∧ same_room r r'.
Proof.
  revert st r. induction hs as [|h hs IH]; intros st r Hr; simpl.
  - exists r. split; [done|apply same_room_refl].
  - destruct (on_RoomClose_same_room h st room' r Hr) as (r1 & Hr1 & Hsame1).
    destruct (IH _ _ Hr1) as (r2 & Hr2 & Hsame2).
    exists r2. split; [done|]. by eapply same_room_trans.
Qed.

Lemma logStatus_loop_same_room todo closing st room' r :
  roomStore st !! room' = Some r →
  ∃ r', roomStore (logStatus_loop todo closing st).2 !! room' = Some r'
        ∧ same_room r r'.
Proof.
  revert closing st r. induction todo as [|[roomId room] todo IH];
    intros closing st r Hr; simpl.
  - exists r. split; [done|apply same_room_refl].
  - destruct (closes_same_room (hd [] closing) st room' r Hr)
      as (r1 & Hr1 & Hsame1).
    set (st1 := foldl (λ s h, on_RoomClose h s) st (hd [] closing)) in *.
    clearbody st1.
    assert (∀ s, roomStore s = roomStore st1 →
              ∃ r', roomStore (logStatus_loop todo (tl closing) s).2 !! room'
                    = Some r' ∧ same_room r r') as Hnext.
    { intros s Hs. destruct (IH (tl closing) s r1) as (r2 & Hr2 & Hsame2);
        [by rewrite Hs|].
      exists r2. split; [done|]. by eapply same_room_trans. }
    destruct (JSMap.get _ roomId) as [room''|]; [|by apply Hnext].
    destruct (decide (room'' = room)); [|by apply Hnext].
    destruct (_ ≫= logStatus); simpl; [by exists r1|by apply Hnext].
Qed.

Lemma step_same_room st ev room r :
  roomStore st !! room = Some r →
  ∃ r', roomStore (step st ev) !! room = Some r' ∧ same_room r r'.
Proof.
  intros Hr.
  assert (∀ s, roomStore s = roomStore st →
            ∃ r', roomStore s !! room = Some r' ∧ same_room r r') as Hframe.
  { intros s ->. exists r. split; [done|apply same_room_refl]. }
  assert (∀ t, roomStore (AwaitQueue_push t st) = roomStore st) as Hpush.
  { intros t. unfold AwaitQueue_push. destruct (executing st); [done|].
    apply AwaitQueue_next_roomStore. }
  destruct ev as [conn query|req roomId|o|room'|closing]; cbn [step].
  - apply Hframe. unfold on_connectionrequest. by destruct (_ || _).
  - apply Hframe, Hpush.
  - unfold on_RoomCreateSettled.
    destruct (executing st) as [[t w]|]; [|by apply Hframe].
    destruct o as [|e]; simpl.
    + rewrite AwaitQueue_next_roomStore, task_then_roomStore. simpl.
      exists r. split; [by apply lookup_app_l_Some|apply same_room_refl].
    + apply Hframe. by rewrite AwaitQueue_next_roomStore, task_catch_roomStore.
  - by apply on_RoomClose_same_room.
  - by apply logStatus_loop_same_room.
Qed.

Lemma run_events_same_room st (evs : list Event) room r :
  roomStore st !! room = Some r →
  ∃ r', roomStore (run_events st evs) !! room = Some r' ∧ same_room r r'.
Proof.
  revert st r. induction evs as [|ev evs IH]; intros st r Hr.
  - exists r. split; [done|apply same_room_refl].
  - change (run_events st (ev :: evs)) with (run_events (step st ev) evs).
    destruct (step_same_room st ev room r Hr) as (r1 & Hr1 & Hsame1).
    destruct (IH _ _ Hr1) as (r2 & Hr2 & Hsame2).
    exists r2. split; [done|]. by eapply same_room_trans.
Qed.

(** *** A burst of calls for one identifier *)


Lemma AwaitQueue_next_found ts st roomId room :
  JSMap.get (rooms st) roomId = Some room →
  Forall (λ t, task_roomId t = roomId) ts →
  AwaitQueue_next ts st
  = with_queue None [] (foldl (λ s t, task_then t room s) st ts).
Proof.
  revert st. induction ts as [|t ts IH]; intros st Hget Hall; simpl; [done|].
  apply Forall_cons in Hall as [Ht Hall].
  unfold getOrCreateRoom. rewrite Ht, Hget. apply IH; [|done].
  by rewrite task_then_rooms.
Qed.

Lemma task_then_trace t room st :
  ∃ delta, trace (task_then t room st) = trace st ++ delta
    ∧ creations delta = []
    ∧ (∀ room' p c, HandleProtooConnection room' p c ∈ delta → room' = room)
    ∧ received t room delta (task_then t room st)
    ∧ (∀ req, req_room st !! req = Some room →
              req_room (task_then t room st) !! req = Some room).
Proof.
  destruct t as [conn roomId peerId c|req roomId]; simpl.
  - destruct (_ ≫= _) as [e|]; simpl; rewrite <- ?app_assoc; simpl;
      eexists; (split; [done|]); (split; [done|]);
      (split; [|split; [split|done]]);
      try (intros room' p c' Hin; elem_cases Hin);
      rewrite !elem_of_cons; auto.
  - eexists. split; [done|]. split; [done|]. split; [|split; [split|]].
    + intros room' p c' Hin. elem_cases Hin.
    + rewrite !elem_of_cons; auto.
    + apply lookup_insert_eq.
    + intros req' Hreq. destruct (decide (req = req')) as [->|Hne].
      * apply lookup_insert_eq.
      * by rewrite lookup_insert_ne.
Qed.


End Frames.

(** ** The room registry under the admission queue *)
Section Registry.
Context {num : JSNumber} {collab : RoomCollaborator}.
Implicit Types (st : State) (t : Task) (room : handle).

Lemma push_creates t st :
  executing st = None → pendingTasks st = [] →
  JSMap.get (rooms st) (task_roomId t) = None →
  AwaitQueue_push t st
  = with_queue (Some (t, mediasoupWorkers st !! nextMediasoupWorkerIdx st)) []
      (getOrCreateRoom (task_roomId t) (task_consumerReplicas t) st).2.
Proof.
  intros Hex Hpend Hget. unfold AwaitQueue_push. rewrite Hex, Hpend. simpl.
  unfold getOrCreateRoom. by rewrite Hget.
Qed.

Lemma push_joins t st room :
  executing st = None → pendingTasks st = [] →
  JSMap.get (rooms st) (task_roomId t) = Some room →
  AwaitQueue_push t st = with_queue None [] (task_then t room st).
Proof.
  intros Hex Hpend Hget. unfold AwaitQueue_push. rewrite Hex, Hpend. simpl.
  unfold getOrCreateRoom. by rewrite Hget.
Qed.

Lemma settle_resolved st t w :
  executing st = Some (t, w) →
  on_RoomCreateSettled Resolved st
  = AwaitQueue_next (pendingTasks st)
      (task_then t (length (roomStore st))
         (with_rooms
            (JSMap.set (rooms st) (task_roomId t) (length (roomStore st)))
            (with_roomStore
               (roomStore st ++
                  [{| room_mediasoupWorker := w;
                      room_roomId := task_roomId t;
                      room_consumerReplicas := task_consumerReplicas t;
                      room_closed := false |}]) st))).
Proof. intros Hex. unfold on_RoomCreateSettled. by rewrite Hex. Qed.

Lemma settle_rejected st t w e :
  executing st = Some (t, w) →
  on_RoomCreateSettled (Rejected e) st
  = AwaitQueue_next (pendingTasks st) (task_catch t e st).
Proof. intros Hex. unfold on_RoomCreateSettled. by rewrite Hex. Qed.

Lemma pushes_ok ts st :
  registry_ok st → registry_ok (foldl (λ s t, AwaitQueue_push t s) st ts).
Proof.
  revert st. induction ts as [|t ts IH]; intros st Hok; simpl; [done|].
  by apply IH, AwaitQueue_push_ok.
Qed.






End Registry.

(** ** Round-robin assignment of the workers *)
Section RoundRobin.
Context {num : JSNumber} {collab : RoomCollaborator}.
Implicit Types (st : State) (t : Task) (room : handle).

Lemma creations_app (tr1 tr2 : list Action) :
  creations (tr1 ++ tr2) = creations tr1 ++ creations tr2.
Proof. apply omap_app. Qed.

Lemma task_then_pool t room st : pool_view (task_then t room st) = pool_view st.
Proof.
  unfold pool_view. rewrite task_then_workers, task_then_idx, task_then_roomStore.
  destruct (task_then_trace t room st) as (d & -> & Hd & _).
  by rewrite creations_app, Hd, app_nil_r.
Qed.

Lemma task_catch_pool t e st : pool_view (task_catch t e st) = pool_view st.
Proof.
  unfold pool_view. destruct t; simpl; by rewrite creations_app, app_nil_r.
Qed.

Lemma on_RoomClose_pool room st : pool_view (on_RoomClose room st) = pool_view st.
Proof.
  unfold on_RoomClose. destruct (roomStore st !! room) as [r|] eqn:Hr; [|done].
  unfold pool_view.
  cbn [mediasoupWorkers nextMediasoupWorkerIdx trace roomStore with_rooms
       with_roomStore].
  f_equal. rewrite list_fmap_insert. apply list_insert_id.
  rewrite list_lookup_fmap. by rewrite Hr.
Qed.

Lemma closes_pool hs st :
  pool_view (foldl (λ s h, on_RoomClose h s) st hs) = pool_view st.
Proof.
  revert st. induction hs as [|h hs IH]; intros st; simpl; [done|].
  by rewrite IH, on_RoomClose_pool.
Qed.

Lemma logStatus_loop_pool todo closing st :
  pool_view (logStatus_loop todo closing st).2 = pool_view st.
Proof.
  revert closing st. induction todo as [|[roomId room] todo IH];
    intros closing st; simpl; [done|].
  assert (∀ s, pool_view (emit (LogStatus room) s) = pool_view s) as Hemit.
  { intros s. unfold pool_view. simpl. by rewrite creations_app, app_nil_r. }
  destruct (JSMap.get _ roomId) as [room'|];
    [|by rewrite IH, closes_pool].
  destruct (decide (room' = room)); [|by rewrite IH, closes_pool].
  destruct (_ ≫= logStatus); simpl.
  - by rewrite Hemit, closes_pool.
  - by rewrite IH, Hemit, closes_pool.
Qed.

Lemma succ_mod (n P : nat) :
  0 < P → S n mod P = if decide (S (n mod P) = P) then 0 else S (n mod P).
Proof.
  intros HP. pose proof (Nat.mod_upper_bound n P) as Hlt.
  replace (S n) with (n + 1) by lia.
  rewrite <- Nat.Div0.add_mod_idemp_l.
  destruct (decide (S (n mod P) = P)) as [Heq|Hne].
  - replace (n mod P + 1) with P by lia. apply Nat.Div0.mod_same.
  - rewrite Nat.mod_small; lia.
Qed.

Lemma getOrCreateRoom_round_robin workers roomId c st :
  0 < length workers →
  round_robin workers (pool_view st) →
  round_robin workers (pool_view (getOrCreateRoom roomId c st).2).
Proof.
  intros HP (Hw & Hidx & Hk). unfold getOrCreateRoom.
  destruct (JSMap.get (rooms st) roomId); [done|].
  simpl in *. unfold round_robin. simpl.
  rewrite creations_app, length_app. simpl.
  replace (length (creations (trace st)) + 1) with (S (length (creations (trace st))))
    by lia.
  split; [done|]. split.
  - rewrite succ_mod by done. by rewrite Hw, Hidx.
  - intros k w Hlook.
    destruct (decide (k < length (creations (trace st)))) as [Hlt|Hge].
    + rewrite lookup_app_l in Hlook by done. eauto.
    + apply lookup_lt_Some in Hlook as Hlen. rewrite length_app in Hlen.
      simpl in Hlen.
      assert (k = length (creations (trace st))) as -> by lia.
      rewrite list_lookup_middle in Hlook by done. injection Hlook as <-.
      by rewrite Hw, Hidx.
Qed.

Lemma AwaitQueue_next_round_robin workers pending st :
  0 < length workers →
  round_robin workers (pool_view st) →
  round_robin workers (pool_view (AwaitQueue_next pending st)).
Proof.
  intros HP. revert st. induction pending as [|t pending IH]; intros st Hrr;
    simpl; [done|].
  pose proof (getOrCreateRoom_round_robin workers (task_roomId t)
                (task_consumerReplicas t) st HP Hrr) as Hrr'.
  destruct (getOrCreateRoom _ _ st) as [[room|w] st1]; simpl in *.
  - apply IH. by rewrite task_then_pool.
  - done.
Qed.

Lemma AwaitQueue_push_round_robin workers t st :
  0 < length workers →
  round_robin workers (pool_view st) →
  round_robin workers (pool_view (AwaitQueue_push t st)).
Proof.
  intros HP Hrr. unfold AwaitQueue_push.
  destruct (executing st); [done|]. by apply AwaitQueue_next_round_robin.
Qed.

Lemma emit_pool a st :
  creations [a] = [] → pool_view (emit a st) = pool_view st.
Proof.
  intros Ha. unfold pool_view. simpl. by rewrite creations_app, Ha, app_nil_r.
Qed.

Lemma step_round_robin workers st ev :
  0 < length workers →
  round_robin workers (pool_view st) →
  round_robin workers (pool_view (step st ev)).
Proof.
  intros HP Hrr. destruct ev as [conn query|req roomId|o|room|closing]; simpl.
  - unfold on_connectionrequest. destruct (_ || _).
    + by rewrite emit_pool.
    + by apply AwaitQueue_push_round_robin.
  - by apply AwaitQueue_push_round_robin.
  - unfold on_RoomCreateSettled. destruct (executing st) as [[t w]|]; [|done].
    destruct o as [|e]; simpl; apply AwaitQueue_next_round_robin; try done.
    + by rewrite task_then_pool.
    + by rewrite task_catch_pool.
  - by rewrite on_RoomClose_pool.
  - unfold on_statusInterval. by rewrite logStatus_loop_pool.
Qed.

Lemma run_events_round_robin workers st evs :
  0 < length workers →
  round_robin workers (pool_view st) →
  round_robin workers (pool_view (run_events st evs)).
Proof.
  intros HP. revert st. induction evs as [|ev evs IH]; intros st Hrr; simpl;
    [done|].
  by apply IH, step_round_robin.
Qed.

(** *** When no construction fails *)

Lemma AwaitQueue_next_constructed pending st :
  pv_rooms (pool_view st) = pv_creations (pool_view st) →
  all_constructed (AwaitQueue_next pending st).
Proof.
  revert st. induction pending as [|t pending IH]; intros st Heq; simpl.
  - unfold all_constructed. simpl in *. by rewrite app_nil_r.
  - unfold getOrCreateRoom.
    destruct (JSMap.get (rooms st) (task_roomId t)) as [room|]; simpl.
    + apply IH. by rewrite task_then_pool.
    + unfold all_constructed. simpl in *. by rewrite creations_app, Heq.
Qed.

Lemma all_constructed_frame st st' :
  pool_view st' = pool_view st → executing st' = executing st →
  all_constructed st → all_constructed st'.
Proof. unfold all_constructed. by intros -> ->. Qed.

Lemma AwaitQueue_push_constructed t st :
  all_constructed st → all_constructed (AwaitQueue_push t st).
Proof.
  intros Hall. unfold AwaitQueue_push.
  destruct (executing st) as [e|] eqn:Hex.
  - unfold all_constructed in *. simpl. by rewrite Hex in Hall.
  - apply AwaitQueue_next_constructed. unfold all_constructed in Hall.
    rewrite Hex, app_nil_r in Hall. done.
Qed.

Lemma step_constructed st ev :
  is_rejection ev = false →
  all_constructed st → all_constructed (step st ev).
Proof.
  intros Hev Hall.
  destruct ev as [conn query|req roomId|o|room|closing]; simpl.
  - unfold on_connectionrequest. destruct (_ || _).
    + eapply all_constructed_frame; [by apply emit_pool|done|done].
    + by apply AwaitQueue_push_constructed.
  - by apply AwaitQueue_push_constructed.
  - destruct o as [|e]; [|done]. unfold on_RoomCreateSettled.
    destruct (executing st) as [[t w]|] eqn:Hex; [|done]. simpl.
    apply AwaitQueue_next_constructed. rewrite task_then_pool.
    unfold all_constructed in Hall. rewrite Hex in Hall. simpl in *.
    by rewrite fmap_app.
  - eapply all_constructed_frame;
      [apply on_RoomClose_pool|apply on_RoomClose_executing|done].
  - eapply all_constructed_frame;
      [apply logStatus_loop_pool|apply logStatus_loop_executing|done].
Qed.

Lemma run_events_constructed st evs :
  forallb (λ ev, negb (is_rejection ev)) evs = true →
  all_constructed st → all_constructed (run_events st evs).
Proof.
  revert st. induction evs as [|ev evs IH]; intros st Hevs Hall; simpl;
    [done|].
  simpl in Hevs. apply andb_prop in Hevs as [Hev Hevs].
  apply negb_true_iff in Hev.
  apply IH; [done|by apply step_constructed].
Qed.

(** C2, as amended: the worker pool is handed out round-robin over the
    calls of [Room.create].  With a pool of [P ≥ 1] workers the cursor stays
    in [[0, P)] and the [k]-th call of [Room.create] (from 0, whether the
    construction then succeeds or fails) is given the worker at index
    [k mod P]; in a run without a failed construction the [k]-th room
    created has the worker at index [k mod P], so that with two workers the
    first three rooms have the workers 0, 1, 0. *)
Theorem round_robin_over_creation_calls (workers : list Worker) (evs : list Event) :
  0 < length workers →
  let st := run_events (initial workers) evs in
  let P := length workers in
  nextMediasoupWorkerIdx st < P
  ∧ (∀ k w, creations (trace st) !! k = Some w → w = workers !! (k mod P))
  ∧ (forallb (λ ev, negb (is_rejection ev)) evs = true →
     (∀ k r, roomStore st !! k = Some r →
             room_mediasoupWorker r = workers !! (k mod P))
     ∧ (∀ w0 w1 a b c rest,
          workers = [w0; w1] → roomStore st = a :: b :: c :: rest →
          room_mediasoupWorker a = Some w0
          ∧ room_mediasoupWorker b = Some w1
          ∧ room_mediasoupWorker c = Some w0)).
Proof.
  intros HP st P.
  assert (round_robin workers (pool_view st)) as (Hw & Hidx & Hk).
  { apply run_events_round_robin; [done|]. split; [done|]. split.
    - simpl. by rewrite Nat.Div0.mod_0_l.
    - intros k w Hlook. simpl in Hlook. by rewrite lookup_nil in Hlook. }
  simpl in Hw, Hidx, Hk.
  split; [rewrite Hidx; by apply Nat.mod_upper_bound, Nat.neq_0_lt_0|].
  split; [done|]. intros Hevs.
  assert (all_constructed st) as Hall.
  { by apply run_events_constructed. }
  assert (∀ k r, roomStore st !! k = Some r →
                 room_mediasoupWorker r = workers !! (k mod P)) as Hrooms.
  { intros k r Hr. apply Hk. unfold all_constructed in Hall. simpl in Hall.
    rewrite <- Hall. apply lookup_app_l_Some.
    by rewrite list_lookup_fmap, Hr. }
  split; [done|].
  intros w0 w1 a b c rest Hpool Hstore.
  pose proof (Hrooms 0 a) as H0. pose proof (Hrooms 1 b) as H1.
  pose proof (Hrooms 2 c) as H2. rewrite Hstore in H0, H1, H2.
  subst P. rewrite Hpool in H0, H1, H2. simpl in *. auto.
Qed.

End RoundRobin.

(** ** Joining and re-creating rooms *)
Section GetOrCreateRoom.
Context {num : JSNumber} {collab : RoomCollaborator}.
Implicit Types (st : State) (t : Task) (room : handle).

(** C8: for a [roomId] that is in the registry [getOrCreateRoom] returns
    the registered Room and changes nothing, whatever [consumerReplicas]
    is: the state after the call is the state before it (no worker drawn,
    no Room constructed, registry untouched).  A task of the queue that
    joins this way leaves the registry, the store of rooms and the cursor
    as they were, calls [Room.create] not once, and its caller receives the
    registered room. *)
Theorem existing_room_is_returned st roomId room :
  JSMap.get (rooms st) roomId = Some room →
  (∀ consumerReplicas,
     getOrCreateRoom roomId consumerReplicas st = (Returned room, st))
  ∧ ∀ t, task_roomId t = roomId →
         executing st = None → pendingTasks st = [] →
         let st' := AwaitQueue_push t st in
         rooms st' = rooms st
         ∧ roomStore st' = roomStore st
         ∧ mediasoupWorkers st' = mediasoupWorkers st
         ∧ nextMediasoupWorkerIdx st' = nextMediasoupWorkerIdx st
         ∧ creations (trace st') = creations (trace st)
         ∧ ∃ delta, trace st' = trace st ++ delta ∧ received t room delta st'.
Proof.
  intros Hget. split.
  - intros c. unfold getOrCreateRoom. by rewrite Hget.
  - intros t Ht Hex Hpend. cbv zeta.
    rewrite (push_joins t st room) by (by rewrite ?Ht).
    pose proof (task_then_pool t room st) as Hpool.
    injection Hpool as Hw Hidx Hcr _.
    destruct (task_then_trace t room st) as (d & Htr & _ & _ & Hrec & _).
    split; [by rewrite <- (task_then_rooms t room st)|].
    split; [by rewrite <- (task_then_roomStore t room st)|].
    split; [done|]. split; [done|]. split; [done|].
    exists d. split; [done|]. by destruct t.
Qed.

(** C3: when the ['close'] notification of a live Room has fired its
    identifier is not in the registry; the next [getOrCreateRoom] with that
    identifier draws the worker under the cursor (advancing the cursor) and
    calls [Room.create] with it, and the Room this call resolves to is a
    new Room, not the closed one, bound to that worker and registered under
    the identifier. *)
Theorem closed_room_is_recreated st room r consumerReplicas :
  roomStore st !! room = Some r → room_closed r = false →
  let roomId := room_roomId r in
  let worker := mediasoupWorkers st !! nextMediasoupWorkerIdx st in
  let st1 := on_RoomClose room st in
  JSMap.get (rooms st1) roomId = None
  ∧ ∃ st2,
      getOrCreateRoom roomId consumerReplicas st1 = (AwaitingRoomCreate worker, st2)
      ∧ trace st2 = trace st ++ [RoomCreateCall worker roomId consumerReplicas]
      ∧ nextMediasoupWorkerIdx st2
        = (if decide (S (nextMediasoupWorkerIdx st) = length (mediasoupWorkers st))
           then 0 else S (nextMediasoupWorkerIdx st))
      ∧ ∃ room' st3,
          getOrCreateRoom_resume roomId worker consumerReplicas Resolved st2
          = (inr room', st3)
          ∧ room' ≠ room
          ∧ roomStore st3 !! room'
            = Some {| room_mediasoupWorker := worker;
                      room_roomId := roomId;
                      room_consumerReplicas := consumerReplicas;
                      room_closed := false |}
          ∧ roomStore st3 !! room = Some (closed_room r)
          ∧ JSMap.get (rooms st3) roomId = Some room'.
Proof.
  intros Hr Hopen roomId worker st1.
  assert (st1 = with_rooms (JSMap.delete (rooms st) roomId)
                  (with_roomStore (<[room := closed_room r]> (roomStore st)) st))
    as Hst1.
  { subst st1. unfold on_RoomClose. by rewrite Hr. }
  assert (JSMap.get (rooms st1) roomId = None) as Hnone.
  { rewrite Hst1. simpl. apply JSMap_get_delete_eq. }
  split; [done|].
  eexists. split; [unfold getOrCreateRoom; rewrite Hnone; rewrite Hst1; done|].
  split; [done|]. split; [done|].
  pose proof (lookup_lt_Some _ _ _ Hr) as Hlt.
  eexists _, _. split; [done|]. simpl.
  rewrite length_insert. split; [lia|]. split; [|split].
  - apply list_lookup_middle. by rewrite length_insert.
  - apply lookup_app_l_Some. by apply list_lookup_insert_eq.
  - apply JSMap_get_set_eq.
Qed.

End GetOrCreateRoom.

(** ** The ingress adapters *)
Section Ingress.
Context {num : JSNumber} {collab : RoomCollaborator}.
Implicit Types (st : State) (t : Task) (room : handle).

(** C5: a connection request whose query has no [roomId] or no [peerId]
    is rejected with status 400 and nothing else happens: no task is
    pushed on the queue and the registry, the store of rooms and the cursor
    are unchanged. *)
Theorem missing_ids_are_rejected st conn (query : gmap string string) :
  query !! "roomId" = None ∨ query !! "peerId" = None →
  let st' := step st (ConnectionRequest conn query) in
  st' = emit (Reject conn
                (RejectCode 400 "Connection request without roomId and/or peerId"))
          st
  ∧ trace st'
    = trace st ++
        [Reject conn
           (RejectCode 400 "Connection request without roomId and/or peerId")]
  ∧ rooms st' = rooms st
  ∧ roomStore st' = roomStore st
  ∧ mediasoupWorkers st' = mediasoupWorkers st
  ∧ nextMediasoupWorkerIdx st' = nextMediasoupWorkerIdx st
  ∧ executing st' = executing st
  ∧ pendingTasks st' = pendingTasks st
  ∧ req_room st' = req_room st.
Proof.
  intros Hmissing st'.
  assert (st' = emit (Reject conn
                (RejectCode 400 "Connection request without roomId and/or peerId"))
          st) as ->; [|done].
  subst st'. simpl. unfold on_connectionrequest.
  destruct Hmissing as [-> | ->]; simpl; [done|].
  by rewrite orb_true_r.
Qed.

(** *** Accepting a connection *)

Lemma accepts_ok_app ok (tr1 tr2 : list Action) :
  accepts_ok ok tr1 → accepts_ok ok tr2 → accepts_ok ok (tr1 ++ tr2).
Proof.
  intros H1 H2. induction tr1 as [|a tr1 IH]; simpl; [done|].
  destruct a; simpl in *; try by apply IH.
  destruct H1 as [Hnext H1]. split; [|by apply IH].
  destruct tr1 as [|[] tr1]; simpl in *; done.
Qed.

Lemma accepts_ok_mono (ok ok' : nat → handle → string → Prop) (tr : list Action) :
  (∀ conn room peerId, ok conn room peerId → ok' conn room peerId) →
  accepts_ok ok tr → accepts_ok ok' tr.
Proof.
  intros Himp. induction tr as [|a tr IH]; simpl; [done|].
  destruct a; try done. intros [Hnext H1]. split; [|by apply IH].
  destruct tr as [|[] tr]; simpl in *; try done.
  destruct Hnext. split; [done|auto].
Qed.

Lemma accepts_ok_lookup ok (tr : list Action) (i conn : nat) :
  accepts_ok ok tr → tr !! i = Some (Accept conn) →
  ∃ room peerId,
    tr !! S i = Some (HandleProtooConnection room peerId conn)
    ∧ ok conn room peerId.
Proof.
  revert i. induction tr as [|a tr IH]; intros i Hok Hlook.
  - by rewrite lookup_nil in Hlook.
  - destruct i as [|i]; simpl in *.
    + injection Hlook as ->. destruct Hok as [Hnext _].
      destruct tr as [|[] tr]; simpl in *; try done.
      destruct Hnext as [-> ?]. eauto.
    + apply IH; [|done]. destruct a; try done. by destruct Hok.
Qed.

Lemma accepts_ok_quiet ok (delta : list Action) :
  (∀ conn, Accept conn ∉ delta) → accepts_ok ok delta.
Proof.
  induction delta as [|a delta IH]; intros Hno; simpl; [done|].
  assert (accepts_ok ok delta) as Hd.
  { apply IH. intros conn Hin. apply (Hno conn). by apply list_elem_of_further. }
  destruct a; try done. exfalso. apply (Hno conn), list_elem_of_here.
Qed.

Lemma keeps_rooms_refl (store : list Room) : keeps_rooms store store.
Proof. intros room r Hr. exists r. split; [done|apply same_room_refl]. Qed.

Lemma keeps_rooms_app (store : list Room) r0 : keeps_rooms store (store ++ [r0]).
Proof.
  intros room r Hr. exists r.
  split; [by apply lookup_app_l_Some|apply same_room_refl].
Qed.

Lemma closes_req_room hs st :
  req_room (foldl (λ s h, on_RoomClose h s) st hs) = req_room st.
Proof.
  revert st. induction hs as [|h hs IH]; intros st; simpl; [done|].
  by rewrite IH, on_RoomClose_req_room.
Qed.

Lemma admissions_ok_frame pushed pushed' st st' (delta : list Action) :
  trace st' = trace st ++ delta →
  (∀ conn, Accept conn ∉ delta) → (∀ req, Next req ∉ delta) →
  req_room st' = req_room st →
  keeps_rooms (roomStore st) (roomStore st') →
  (∀ t, t ∈ pushed → t ∈ pushed') →
  admissions_ok pushed st → admissions_ok pushed' st'.
Proof.
  intros Htr Hacc Hnext Hreq Hkeep Hsub [Ha Hr]. split.
  - rewrite Htr. apply accepts_ok_app; [|by apply accepts_ok_quiet].
    eapply accepts_ok_mono; [|exact Ha].
    intros conn room peerId (r & c & Hlook & Hin).
    destruct (Hkeep _ _ Hlook) as (r' & Hlook' & _ & Hid & _).
    exists r', c. split; [done|]. rewrite Hid. auto.
  - intros req Hin. rewrite Htr in Hin.
    apply elem_of_app in Hin as [Hin|Hin]; [|by apply Hnext in Hin].
    destruct (Hr req Hin) as (room & r & Hroom & Hlook & Hp).
    destruct (Hkeep _ _ Hlook) as (r' & Hlook' & _ & Hid & _).
    exists room, r'. rewrite Hreq, Hid. auto.
Qed.

Lemma task_then_admissions pushed t room r st :
  t ∈ pushed → roomStore st !! room = Some r → room_roomId r = task_roomId t →
  admissions_ok pushed st → admissions_ok pushed (task_then t room st).
Proof.
  intros Hin Hlook Hid [Ha Hr].
  destruct t as [conn roomId peerId c|req0 roomId]; simpl in Hid.
  - assert (own_room pushed (roomStore st) conn room peerId) as Hown.
    { exists r, c. split; [done|]. by rewrite Hid. }
    split.
    + rewrite task_then_roomStore. simpl. rewrite Hlook. simpl.
      destruct (handleProtooConnection r peerId); simpl;
        rewrite <- ?app_assoc; (apply accepts_ok_app; [done|]); simpl; done.
    + intros req Hnext. rewrite task_then_roomStore.
      assert (Next req ∈ trace st) as Hold.
      { simpl in Hnext. rewrite Hlook in Hnext. simpl in Hnext.
        destruct (handleProtooConnection r peerId); simpl in Hnext;
          rewrite !elem_of_app, !list_elem_of_singleton in Hnext;
          intuition congruence. }
      destruct (Hr req Hold) as (room' & r' & Hroom' & Hlook' & Hp).
      exists room', r'. split; [|done].
      simpl. rewrite Hlook. simpl.
      by destruct (handleProtooConnection r peerId).
  - split.
    + simpl. by apply accepts_ok_app.
    + intros req Hnext. simpl in *.
      destruct (decide (req = req0)) as [->|Hne].
      * exists room, r. rewrite lookup_insert_eq. split; [done|].
        split; [done|]. by rewrite Hid.
      * rewrite lookup_insert_ne by done. apply Hr.
        apply elem_of_app in Hnext as [Hnext|Hnext]; [done|].
        apply list_elem_of_singleton in Hnext. congruence.
Qed.

Lemma AwaitQueue_next_admissions pushed pending st :
  rooms_ok (rooms st) (roomStore st) →
  (∀ t, t ∈ pending → t ∈ pushed) →
  admissions_ok pushed st → admissions_ok pushed (AwaitQueue_next pending st).
Proof.
  revert st. induction pending as [|t pending IH]; intros st Hrooms Hsub Hinv.
  - by destruct Hinv.
  - cbn [AwaitQueue_next]. unfold getOrCreateRoom.
    destruct (JSMap.get (rooms st) (task_roomId t)) as [room|] eqn:Hget.
    + destruct (ok_registered _ _ Hrooms _ _ Hget) as (r & Hr & Hid & _).
      apply IH.
      * by rewrite task_then_rooms, task_then_roomStore.
      * intros t' Hin. by apply Hsub, list_elem_of_further.
      * eapply task_then_admissions; [apply Hsub, list_elem_of_here|done..].
    + eapply (admissions_ok_frame pushed pushed st _ [_]); try done.
      * intros conn Hin. elem_cases Hin.
      * intros req Hin. elem_cases Hin.
      * apply keeps_rooms_refl.
Qed.

Lemma AwaitQueue_next_queued pending st t :
  t ∈ queued (AwaitQueue_next pending st) → t ∈ pending.
Proof.
  revert st. induction pending as [|t0 pending IH]; intros st.
  - unfold queued. simpl. done.
  - cbn [AwaitQueue_next]. unfold getOrCreateRoom.
    destruct (JSMap.get (rooms st) (task_roomId t0)) as [room|].
    + intros Hin. apply list_elem_of_further. by eapply IH.
    + unfold queued. simpl. done.
Qed.

Lemma closes_admissions pushed hs st :
  admissions_ok pushed st →
  admissions_ok pushed (foldl (λ s h, on_RoomClose h s) st hs).
Proof.
  intros Hinv. eapply (admissions_ok_frame pushed pushed st _ []); try done.
  - by rewrite closes_trace, app_nil_r.
  - intros conn Hin. by apply elem_of_nil in Hin.
  - intros req Hin. by apply elem_of_nil in Hin.
  - apply closes_req_room.
  - intros room r Hr. by apply closes_same_room.
Qed.

Lemma logStatus_loop_admissions pushed todo closing st :
  admissions_ok pushed st →
  admissions_ok pushed (logStatus_loop todo closing st).2.
Proof.
  revert closing st. induction todo as [|[roomId room] todo IH];
    intros closing st Hinv; simpl; [done|].
  pose proof (closes_admissions pushed (hd [] closing) st Hinv) as Hinv1.
  set (st1 := foldl (λ s h, on_RoomClose h s) st (hd [] closing)) in *.
  clearbody st1.
  assert (admissions_ok pushed (emit (LogStatus room) st1)) as Hemit.
  { eapply (admissions_ok_frame pushed pushed st1 _ [_]); try done.
    - intros conn Hin. elem_cases Hin.
    - intros req Hin. elem_cases Hin.
    - apply keeps_rooms_refl. }
  destruct (JSMap.get _ roomId) as [room'|]; [|by apply IH].
  destruct (decide (room' = room)); [|by apply IH].
  destruct (_ ≫= logStatus); simpl; [done|by apply IH].
Qed.

Lemma step_admissions pushed st ev :
  registry_ok st → (∀ t, t ∈ queued st → t ∈ pushed) →
  admissions_ok pushed st →
  admissions_ok (pushed ++ admitted ev) (step st ev)
  ∧ ∀ t, t ∈ queued (step st ev) → t ∈ pushed ++ admitted ev.
Proof.
  intros Hreg Hqueue Hinv0. pose proof Hreg as [Hrooms Hexec Hidle].
  assert (∀ t, t ∈ pushed → t ∈ pushed ++ admitted ev) as Hsub.
  { intros t Hin. apply elem_of_app. by left. }
  assert (admissions_ok (pushed ++ admitted ev) st) as Hinv.
  { eapply (admissions_ok_frame pushed _ st st []); try done.
    - by rewrite app_nil_r.
    - intros conn Hin. by apply elem_of_nil in Hin.
    - intros req Hin. by apply elem_of_nil in Hin.
    - apply keeps_rooms_refl. }
  assert (∀ t, t ∈ queued st → t ∈ pushed ++ admitted ev) as Hqueue'
    by (intros t Hin; by apply Hsub, Hqueue).
  clear Hinv0. set (P := pushed ++ admitted ev) in *.
  assert (∀ t, t ∈ P →
            admissions_ok P (AwaitQueue_push t st)
            ∧ ∀ t', t' ∈ queued (AwaitQueue_push t st) → t' ∈ P) as Hpush.
  { intros t Ht. unfold AwaitQueue_push.
    destruct (executing st) as [[t0 w0]|] eqn:Hex.
    - split; [by destruct Hinv|].
      intros t'. unfold queued in *. rewrite Hex in Hqueue'. simpl in *.
      rewrite app_comm_cons, elem_of_app. intros [Hin|Hin]; [by apply Hqueue'|].
      apply list_elem_of_singleton in Hin. by subst.
    - assert (∀ t', t' ∈ pendingTasks st ++ [t] → t' ∈ P) as Hpend.
      { intros t'. rewrite elem_of_app. intros [Hin|Hin].
        - apply Hqueue'. unfold queued. rewrite Hex. done.
        - apply list_elem_of_singleton in Hin. by subst. }
      split; [by apply AwaitQueue_next_admissions|].
      intros t' Hin. by eapply Hpend, AwaitQueue_next_queued. }
  destruct ev as [conn query|req roomId|o|room|closing]; cbn [step].
  - unfold on_connectionrequest. subst P. cbn [admitted] in *.
    destruct (_ || _).
    + split; [|done].
      eapply (admissions_ok_frame _ _ st _ [_]);
        [reflexivity| | |reflexivity|apply keeps_rooms_refl
        |intros ? H; exact H|exact Hinv].
      * intros conn' Hin. elem_cases Hin.
      * intros req Hin. elem_cases Hin.
    + apply Hpush. apply elem_of_app. right. apply list_elem_of_here.
  - apply Hpush. subst P. apply elem_of_app. right. apply list_elem_of_here.
  - unfold on_RoomCreateSettled.
    destruct (executing st) as [[t w]|] eqn:Hex; [|done].
    assert (t ∈ P) as Ht.
    { apply Hqueue'. unfold queued. rewrite Hex. apply list_elem_of_here. }
    assert (∀ t', t' ∈ pendingTasks st → t' ∈ P) as Hpend.
    { intros t' Hin. apply Hqueue'. unfold queued. rewrite Hex.
      by apply list_elem_of_further. }
    destruct o as [|e]; simpl.
    + split; [|intros t' Hin; by eapply Hpend, AwaitQueue_next_queued].
      apply AwaitQueue_next_admissions; [|done|].
      * rewrite task_then_rooms, task_then_roomStore. simpl.
        by apply rooms_ok_set.
      * eapply task_then_admissions; [done| | |].
        -- simpl. by apply list_lookup_middle.
        -- done.
        -- eapply (admissions_ok_frame P P st _ []); try done.
           ++ simpl. by rewrite app_nil_r.
           ++ intros conn Hin. by apply elem_of_nil in Hin.
           ++ intros req Hin. by apply elem_of_nil in Hin.
           ++ simpl. apply keeps_rooms_app.
    + split; [|intros t' Hin; by eapply Hpend, AwaitQueue_next_queued].
      apply AwaitQueue_next_admissions; [|done|].
      * by rewrite task_catch_rooms, task_catch_roomStore.
      * destruct t as [conn roomId peerId c|req0 roomId]; simpl.
        -- eapply (admissions_ok_frame P P st _ [_]); try done.
           ++ intros conn' Hin. elem_cases Hin.
           ++ intros req Hin. elem_cases Hin.
           ++ apply keeps_rooms_refl.
        -- eapply (admissions_ok_frame P P st _ [_]); try done.
           ++ intros conn' Hin. elem_cases Hin.
           ++ intros req Hin. elem_cases Hin.
           ++ apply keeps_rooms_refl.
  - split.
    + by apply (closes_admissions P [room]).
    + unfold queued in *.
      by rewrite on_RoomClose_executing, on_RoomClose_pendingTasks.
  - split.
    + by apply logStatus_loop_admissions.
    + unfold queued, on_statusInterval in *.
      by rewrite logStatus_loop_executing, logStatus_loop_pendingTasks.
Qed.

Lemma run_events_admissions pushed st (evs : list Event) :
  registry_ok st → (∀ t, t ∈ queued st → t ∈ pushed) →
  admissions_ok pushed st →
  admissions_ok (pushed ++ (evs ≫= admitted)) (run_events st evs).
Proof.
  revert pushed st. induction evs as [|ev evs IH]; intros pushed st Hreg Hq Hinv.
  - simpl. by rewrite app_nil_r.
  - change (run_events st (ev :: evs)) with (run_events (step st ev) evs).
    rewrite bind_cons, app_assoc.
    destruct (step_admissions pushed st ev Hreg Hq Hinv) as [Hinv' Hq'].
    apply IH; [by apply step_ok|done|done].
Qed.

Lemma initial_admissions workers : admissions_ok [] (initial workers).
Proof.
  split; simpl; [done|]. intros req Hin. by apply elem_of_nil in Hin.
Qed.

Lemma admitted_signaling (evs : list Event) conn roomId peerId c :
  SignalingTask conn roomId peerId c ∈ evs ≫= admitted →
  ∃ query, ConnectionRequest conn query ∈ evs
           ∧ query !! "roomId" = Some roomId ∧ query !! "peerId" = Some peerId.
Proof.
  intros Hin. apply list_elem_of_bind in Hin as (ev & Hin & Hev).
  destruct ev as [conn0 query| | | |]; simpl in Hin;
    try (by apply elem_of_nil in Hin);
    try (by apply list_elem_of_singleton in Hin).
  destruct (query !! "roomId") as [x|] eqn:Hx; simpl in Hin;
    [|by apply elem_of_nil in Hin].
  destruct (query !! "peerId") as [y|] eqn:Hy; simpl in Hin;
    [|destruct (decide (x = "")); by apply elem_of_nil in Hin].
  destruct (decide (x = "")), (decide (y = "")); simpl in Hin;
    try (by apply elem_of_nil in Hin).
  apply list_elem_of_singleton in Hin. injection Hin as -> -> -> _.
  exists query. by rewrite Hx, Hy.
Qed.


Lemma connectionrequest_pushes st conn (query : gmap string string) roomId peerId :
  query !! "roomId" = Some roomId → roomId ≠ "" →
  query !! "peerId" = Some peerId → peerId ≠ "" →
  on_connectionrequest conn query st
  = AwaitQueue_push
      (SignalingTask conn roomId peerId (query_consumerReplicas query)) st.
Proof.
  intros Hroom Hr Hpeer Hp. unfold on_connectionrequest.
  rewrite Hroom, Hpeer. simpl. by rewrite !decide_False.
Qed.

Lemma push_on_reachable t st :
  registry_ok st →
  AwaitQueue_push t st
  = match executing st with
    | Some e => with_queue (Some e) (pendingTasks st ++ [t]) st
    | None => AwaitQueue_next [t] st
    end.
Proof.
  intros Hok. unfold AwaitQueue_push.
  destruct (executing st) eqn:Hex; [done|]. by rewrite (ok_idle _ Hok Hex).
Qed.

(** C4: the signaling adapter accepts a connection only once its Room is
    resolved, wherever the connection stood in the queue.  In every run,
    and so at every moment of a run, every [accept()] made so far is
    directly followed by the hand-over of that connection to a Room that
    exists and that has the [roomId] a connection request of this
    connection asked for.  A connection request with both
    identifiers pushes its task: it starts at once on an idle queue and
    waits on a busy one.  When the queue reaches the task, with any tasks
    [rest] behind it: if its [roomId] is registered the connection is
    accepted and handed to the registered room; if not, [Room.create] is
    called and nothing else, the task waits for the construction.  When
    the construction fails all the task does is [reject(error)], there is
    no [accept()]; when it resolves the Room is registered, and after that
    the connection is accepted and handed to it.  ([reject(error)] after
    an [accept()] happens only when [handleProtooConnection] throws.) *)
Theorem accept_only_after_room_resolved (workers : list Worker) (evs : list Event) :
  let st := run_events (initial workers) evs in
  (∀ i conn,
     trace st !! i = Some (Accept conn) →
     ∃ room peerId r query,
       trace st !! S i = Some (HandleProtooConnection room peerId conn)
       ∧ roomStore st !! room = Some r
       ∧ ConnectionRequest conn query ∈ evs
       ∧ query !! "roomId" = Some (room_roomId r)
       ∧ query !! "peerId" = Some peerId)
  ∧ ∀ conn roomId peerId consumerReplicas,
      let t := SignalingTask conn roomId peerId consumerReplicas in
      (∀ query : gmap string string,
         query !! "roomId" = Some roomId → roomId ≠ "" →
         query !! "peerId" = Some peerId → peerId ≠ "" →
         query_consumerReplicas query = consumerReplicas →
         step st (ConnectionRequest conn query)
         = match executing st with
           | Some e => with_queue (Some e) (pendingTasks st ++ [t]) st
           | None => AwaitQueue_next [t] st
           end)
      ∧ (∀ rest st0,
           let st1 := AwaitQueue_next (t :: rest) st0 in
           match JSMap.get (rooms st0) roomId with
           | Some room =>
               ∃ tail,
                 st1 = AwaitQueue_next rest (task_then t room st0)
                 ∧ trace (task_then t room st0)
                   = trace st0 ++
                       Accept conn :: HandleProtooConnection room peerId conn :: tail
                 ∧ Forall (λ a, ∃ e, a = Reject conn (RejectError e)) tail
           | None =>
               let worker := mediasoupWorkers st0 !! nextMediasoupWorkerIdx st0 in
               executing st1 = Some (t, worker)
               ∧ pendingTasks st1 = rest
               ∧ rooms st1 = rooms st0 ∧ roomStore st1 = roomStore st0
               ∧ trace st1
                 = trace st0 ++ [RoomCreateCall worker roomId consumerReplicas]
           end)
      ∧ ∀ st1 worker,
          executing st1 = Some (t, worker) →
          (∀ e,
             on_RoomCreateSettled (Rejected e) st1
             = AwaitQueue_next (pendingTasks st1)
                 (emit (Reject conn (RejectError e)) st1))
          ∧ let room := length (roomStore st1) in
            ∃ stB tail,
              on_RoomCreateSettled Resolved st1
              = AwaitQueue_next (pendingTasks st1) (task_then t room stB)
              ∧ JSMap.get (rooms stB) roomId = Some room
              ∧ roomStore stB !! room
                = Some {| room_mediasoupWorker := worker;
                          room_roomId := roomId;
                          room_consumerReplicas := consumerReplicas;
                          room_closed := false |}
              ∧ trace stB = trace st1
              ∧ trace (task_then t room stB)
                = trace st1 ++
                    Accept conn :: HandleProtooConnection room peerId conn :: tail
              ∧ Forall (λ a, ∃ e, a = Reject conn (RejectError e)) tail.
Proof.
  intros st. assert (registry_ok st) as Hok by apply run_events_ok, initial_ok.
  assert (admissions_ok (evs ≫= admitted) st) as [Hacc _].
  { apply (run_events_admissions [] (initial workers) evs).
    - apply initial_ok.
    - intros t Hin. by apply elem_of_nil in Hin.
    - apply initial_admissions. }
  clearbody st. split.
  - intros i conn Hlook.
    destruct (accepts_ok_lookup _ _ _ _ Hacc Hlook)
      as (room & p & Hnext & r & c & Hr & Hin).
    destruct (admitted_signaling _ _ _ _ _ Hin) as (query & Hev & Hq1 & Hq2).
    by exists room, p, r, query.
  - intros conn roomId peerId c t.
    assert (∀ room st0,
              ∃ tail,
                trace (task_then t room st0)
                = trace st0 ++
                    Accept conn :: HandleProtooConnection room peerId conn :: tail
                ∧ Forall (λ a, ∃ e, a = Reject conn (RejectError e)) tail)
      as Hthen.
    { intros room st0. subst t. simpl.
      destruct (roomStore st0 !! room ≫= _) as [e|]; simpl; rewrite <- ?app_assoc; simpl.
      - exists [Reject conn (RejectError e)]. split; [done|].
        constructor; [by exists e|constructor].
      - exists []. split; [done|constructor]. }
    split; [|split].
    + intros query Hroom Hr Hpeer Hp <-. simpl.
      rewrite (connectionrequest_pushes st conn query roomId peerId) by done.
      by apply push_on_reachable.
    + intros rest st0. cbv zeta. cbn [AwaitQueue_next]. unfold getOrCreateRoom.
      subst t. cbn [task_roomId task_consumerReplicas].
      destruct (JSMap.get (rooms st0) roomId) as [room|] eqn:Hget.
      * destruct (Hthen room st0) as (tail & Htr & Htail).
        exists tail. by repeat split.
      * by repeat split.
    + intros st1 worker Hex. split.
      * intros e. by rewrite (settle_rejected st1 t worker).
      * cbv zeta. rewrite (settle_resolved st1 t worker) by done.
        eexists. destruct (Hthen (length (roomStore st1))
          (with_rooms
             (JSMap.set (rooms st1) roomId (length (roomStore st1)))
             (with_roomStore
                (roomStore st1 ++
                   [{| room_mediasoupWorker := worker;
                       room_roomId := roomId;
                       room_consumerReplicas := c;
                       room_closed := false |}]) st1))) as (tail & Htr & Htail).
        exists tail. split; [done|].
        split; [apply JSMap_get_set_eq|].
        split; [simpl; by apply list_lookup_middle|].
        split; [done|]. split; [exact Htr|exact Htail].
Qed.


End Ingress.

(** ** The error handler of the broadcaster API *)

(** C7, as amended: for an error that reaches the error handler the status
    of the response is the status the error already carries when it
    carries one (a truthy [error.status]); otherwise it is 400 exactly when
    the name of the error is [TypeError] and 500 for every other name.
    The body of the response is [String(error)] and the status message is
    the message of the error.  A route handler whose delegated Room
    operation throws answers with what the error handler produces. *)
Theorem error_status_mapping (error : Error) :
  ∃ res,
    errorHandler (Some error) = Some res
    ∧ routeHandler (OpThrows error) = Some res
    ∧ res_body res = Error_toString error
    ∧ res_statusMessage res = Some (err_message error)
    ∧ (∀ s, err_status error = Some s → s ≠ 0%Z → res_status res = s)
    ∧ (err_status error = None ∨ err_status error = Some 0%Z →
       (err_name error = "TypeError" → res_status res = 400%Z)
       ∧ (err_name error ≠ "TypeError" → res_status res = 500%Z)
       ∧ (res_status res = 400%Z ↔ err_name error = "TypeError")).
Proof.
  eexists. split; [done|]. split; [done|]. split; [done|]. split; [done|].
  simpl. split.
  - intros s -> Hs. simpl. apply Z.eqb_neq in Hs. by rewrite Hs.
  - intros Hnone.
    assert (status_or (err_status error)
              (if decide (err_name error = "TypeError") then 400%Z else 500%Z)
            = if decide (err_name error = "TypeError") then 400%Z else 500%Z)
      as ->.
    { by destruct Hnone as [-> | ->]. }
    destruct (decide (err_name error = "TypeError")) as [Heq|Hne].
    + split; [done|]. split; [done|]. done.
    + split; [done|]. split; [done|]. split; [discriminate|done].
Qed.

(** ** The status reporter *)
Section StatusReporter.
Context {num : JSNumber} {collab : RoomCollaborator}.
Implicit Types (st : State) (room : handle).

Lemma on_RoomClose_store_inv room st room' r' :
  roomStore (on_RoomClose room st) !! room' = Some r' →
  ∃ r, roomStore st !! room' = Some r ∧ room_roomId r = room_roomId r'.
Proof.
  unfold on_RoomClose. destruct (roomStore st !! room) as [r0|] eqn:Hr0;
    [|by eauto].
  simpl. destruct (decide (room = room')) as [->|Hne].
  - rewrite list_lookup_insert_eq by (by eapply lookup_lt_Some).
    intros [= <-]. by exists r0.
  - rewrite list_lookup_insert_ne by done. eauto.
Qed.

Lemma closes_store_inv hs st room' r' :
  roomStore (foldl (λ s h, on_RoomClose h s) st hs) !! room' = Some r' →
  ∃ r, roomStore st !! room' = Some r ∧ room_roomId r = room_roomId r'.
Proof.
  revert st. induction hs as [|h hs IH]; intros st Hr'; simpl in *; [by eauto|].
  destruct (IH _ Hr') as (r1 & Hr1 & Hid1).
  destruct (on_RoomClose_store_inv _ _ _ _ Hr1) as (r & Hr & Hid).
  exists r. split; [done|congruence].
Qed.

Lemma closes_get_None hs st roomId :
  JSMap.get (rooms st) roomId = None →
  JSMap.get (rooms (foldl (λ s h, on_RoomClose h s) st hs)) roomId = None.
Proof.
  revert st. induction hs as [|h hs IH]; intros st Hnone; simpl; [done|].
  apply IH. unfold on_RoomClose.
  destruct (roomStore st !! h); [|done]. simpl. by apply JSMap_get_delete_None.
Qed.

Lemma closes_get_hit hs st h r :
  h ∈ hs → roomStore st !! h = Some r →
  JSMap.get (rooms (foldl (λ s h, on_RoomClose h s) st hs)) (room_roomId r)
  = None.
Proof.
  revert st r. induction hs as [|h0 hs IH]; intros st r Hin Hr; simpl.
  - by apply elem_of_nil in Hin.
  - apply elem_of_cons in Hin as [->|Hin].
    + apply closes_get_None. unfold on_RoomClose. rewrite Hr. simpl.
      apply JSMap_get_delete_eq.
    + destruct (on_RoomClose_same_room h0 st h r Hr) as (r1 & Hr1 & _ & Hid & _).
      rewrite <- Hid. by apply IH.
Qed.

Lemma closes_get_miss hs st roomId :
  (∀ h r, h ∈ hs → roomStore st !! h = Some r → room_roomId r ≠ roomId) →
  JSMap.get (rooms (foldl (λ s h, on_RoomClose h s) st hs)) roomId
  = JSMap.get (rooms st) roomId.
Proof.
  revert st. induction hs as [|h0 hs IH]; intros st Hmiss; simpl; [done|].
  rewrite IH.
  - unfold on_RoomClose. destruct (roomStore st !! h0) as [r0|] eqn:Hr0; [|done].
    simpl. apply JSMap_get_delete_ne. eapply Hmiss; [apply list_elem_of_here|done].
  - intros h r' Hin Hr'.
    destruct (on_RoomClose_store_inv _ _ _ _ Hr') as (r & Hr & Hid).
    rewrite <- Hid. eapply Hmiss; [by apply list_elem_of_further|done].
Qed.

Lemma closing_before_0 (closing : list (list handle)) :
  closing_before closing 0 = hd [] closing.
Proof. by destruct closing. Qed.

Lemma closing_before_S (closing : list (list handle)) j :
  closing_before closing (S j) = closing_before (tl closing) j.
Proof. by destruct closing. Qed.

Lemma logStatus_loop_spec (todo : JSMap.t handle) closing st :
  (∀ r, room_closed r = false → logStatus r = None) →
  registry_ok st →
  (∀ k h h', (k, h) ∈ todo → JSMap.get (rooms st) k = Some h' → h' = h) →
  ∃ st' delta,
    logStatus_loop todo closing st = (None, st')
    ∧ trace st' = trace st ++ delta
    ∧ ∀ room,
        LogStatus room ∈ delta ↔
        ∃ i roomId,
          todo !! i = Some (roomId, room)
          ∧ JSMap.get (rooms st) roomId = Some room
          ∧ ∀ j h r, (j ≤ i)%nat → h ∈ closing_before closing j →
                     roomStore st !! h = Some r → room_roomId r ≠ roomId.
Proof.
  intros Hquiet. revert closing st.
  induction todo as [|[k h0] todo IH]; intros closing st Hok Htodo.
  - exists st, []. split; [done|]. split; [by rewrite app_nil_r|].
    intros room. split; [intros Hin; by apply elem_of_nil in Hin|].
    intros (i & roomId & Hlook & _). by destruct i.
  - simpl.
    pose proof (closes_ok (hd [] closing) st Hok) as Hok1.
    pose proof (closes_trace (hd [] closing) st) as Htr1.
    assert (∀ roomId x,
              JSMap.get (rooms (foldl (λ s h, on_RoomClose h s) st (hd [] closing)))
                roomId = Some x
              ↔ JSMap.get (rooms st) roomId = Some x
                ∧ ∀ h r, h ∈ hd [] closing → roomStore st !! h = Some r →
                         room_roomId r ≠ roomId) as Hget1.
    { intros roomId x. split.
      - intros Hget.
        assert (∀ h r, h ∈ hd [] closing → roomStore st !! h = Some r →
                       room_roomId r ≠ roomId) as Hmiss.
        { intros h r Hin Hr Hid.
          rewrite <- Hid, (closes_get_hit _ _ _ _ Hin Hr) in Hget. done. }
        split; [|done]. by rewrite closes_get_miss in Hget.
      - intros [Hget Hmiss]. by rewrite closes_get_miss. }
    assert (∀ h roomId,
              (∀ r, roomStore (foldl (λ s h, on_RoomClose h s) st (hd [] closing))
                      !! h = Some r → room_roomId r ≠ roomId)
              ↔ (∀ r, roomStore st !! h = Some r → room_roomId r ≠ roomId))
      as Hstore1.
    { intros h roomId. split.
      - intros Hne r Hr.
        destruct (closes_same_room (hd [] closing) st h r Hr)
          as (r1 & Hr1 & _ & Hid & _).
        rewrite <- Hid. by apply Hne.
      - intros Hne r1 Hr1.
        destruct (closes_store_inv _ _ _ _ Hr1) as (r & Hr & Hid).
        rewrite <- Hid. by apply Hne. }
    set (st1 := foldl (λ s h, on_RoomClose h s) st (hd [] closing)) in *.
    clearbody st1.
    assert (∀ s, rooms s = rooms st1 → roomStore s = roomStore st1 →
              registry_ok s →
              ∃ st' delta,
                logStatus_loop todo (tl closing) s = (None, st')
                ∧ trace st' = trace s ++ delta
                ∧ ∀ room,
                    LogStatus room ∈ delta ↔
                    ∃ i roomId,
                      todo !! i = Some (roomId, room)
                      ∧ JSMap.get (rooms st) roomId = Some room
                      ∧ ∀ j h r, (j ≤ S i)%nat → h ∈ closing_before closing j →
                                 roomStore st !! h = Some r →
                                 room_roomId r ≠ roomId) as Hnext.
    { intros s Hs1 Hs2 Hoks.
      destruct (IH (tl closing) s Hoks) as (st' & delta & Hloop & Htr & Hspec).
      { intros k' h h' Hin Hget. rewrite Hs1 in Hget.
        apply Hget1 in Hget as [Hget _].
        eapply Htodo; [by apply list_elem_of_further|done]. }
      exists st', delta. split; [done|]. split; [done|].
      intros room. rewrite Hspec. split.
      - intros (i & roomId & Hlook & Hget & Hsched).
        rewrite Hs1 in Hget. apply Hget1 in Hget as [Hget Hmiss].
        exists i, roomId. split; [done|]. split; [done|].
        intros [|j] h r Hj Hin Hr.
        + rewrite closing_before_0 in Hin. by eapply Hmiss.
        + rewrite closing_before_S in Hin.
          eapply (proj1 (Hstore1 h roomId)); [|exact Hr].
          intros r1 Hr1. rewrite <- Hs2 in Hr1.
          eapply (Hsched j); [lia|done|done].
      - intros (i & roomId & Hlook & Hget & Hsched).
        exists i, roomId. split; [done|]. split.
        + rewrite Hs1. apply Hget1. split; [done|].
          intros h r Hin Hr. eapply (Hsched 0); [lia| |done].
          by rewrite closing_before_0.
        + intros j h r1 Hj Hin Hr1. rewrite Hs2 in Hr1.
          eapply (proj2 (Hstore1 h roomId)); [|exact Hr1].
          intros r Hr. eapply (Hsched (S j)); [lia| |done].
          by rewrite closing_before_S. }
    destruct (JSMap.get (rooms st1) k) as [room'|] eqn:Hget.
    + assert (room' = h0) as ->.
      { apply Hget1 in Hget as [Hget _].
        eapply Htodo; [apply list_elem_of_here|done]. }
      rewrite decide_True by done.
      destruct (ok_registered _ _ (ok_rooms _ Hok1) _ _ Hget)
        as (r1 & Hr1 & _ & Hopen1).
      rewrite Hr1. simpl. rewrite (Hquiet r1 Hopen1).
      destruct (Hnext (emit (LogStatus h0) st1))
        as (st' & delta & Hloop & Htr & Hspec); [done|done|by apply emit_ok|].
      exists st', (LogStatus h0 :: delta). split; [done|]. split.
      { rewrite Htr. simpl. rewrite Htr1. by rewrite <- app_assoc. }
      intros room. rewrite elem_of_cons, Hspec. split.
      * intros [Heq|(i & roomId & Hlook & Hget' & Hsched)].
        -- injection Heq as ->. apply Hget1 in Hget as [Hget Hmiss].
           exists 0, k. split; [done|]. split; [done|].
           intros j h r Hj Hin Hr. assert (j = 0) as -> by lia.
           rewrite closing_before_0 in Hin. by eapply Hmiss.
        -- exists (S i), roomId. split; [done|]. by split.
      * intros (i & roomId & Hlook & Hget' & Hsched).
        destruct i as [|i]; simpl in Hlook.
        -- injection Hlook as <- <-. by left.
        -- right. by exists i, roomId.
    + destruct (Hnext st1) as (st' & delta & Hloop & Htr & Hspec); [done..|].
      exists st', delta. split; [done|]. split; [congruence|].
      intros room. rewrite Hspec. split.
      * intros (i & roomId & Hlook & Hget' & Hsched).
        exists (S i), roomId. split; [done|]. by split.
      * intros (i & roomId & Hlook & Hget' & Hsched).
        destruct i as [|i]; simpl in Hlook.
        -- injection Hlook as <- <-. exfalso.
           assert (JSMap.get (rooms st1) k = Some h0) as Habs.
           { apply Hget1. split; [done|]. intros h r Hin Hr.
             eapply (Hsched 0); [lia| |done]. by rewrite closing_before_0. }
           congruence.
        -- by exists i, roomId.
Qed.

(** C9: the status reporter tolerates rooms that close while it iterates.
    Whatever rooms emit ['close'] between the visits of an iteration, and
    even if [logStatus] would throw on a closed Room, the iteration raises
    no error.  The iterator of the [Map] is live and the ['close']
    listener deletes the entry of the identifier of the closing room:
    [logStatus] is called on exactly the registered rooms under whose
    identifier no room has emitted ['close'] by the time the iterator
    reaches their entry, and so a registered Room that has closed by then
    is skipped. *)
Theorem status_reporter_skips_closed_rooms (workers : list Worker)
    (evs : list Event) (closing : list (list handle)) :
  (∀ r, room_closed r = false → logStatus r = None) →
  let st := run_events (initial workers) evs in
  ∃ st' delta,
    on_statusInterval closing st = (None, st')
    ∧ trace st' = trace st ++ delta
    ∧ (∀ room,
         LogStatus room ∈ delta ↔
         ∃ i roomId,
           rooms st !! i = Some (roomId, room)
           ∧ ∀ j h r, (j ≤ i)%nat → h ∈ closing_before closing j →
                      roomStore st !! h = Some r → room_roomId r ≠ roomId)
    ∧ ∀ i j roomId room,
        rooms st !! i = Some (roomId, room) → (j ≤ i)%nat →
        room ∈ closing_before closing j → LogStatus room ∉ delta.
Proof.
  intros Hquiet st.
  assert (registry_ok st) as Hok by apply run_events_ok, initial_ok.
  clearbody st.
  assert (∀ roomId room, (roomId, room) ∈ rooms st →
            JSMap.get (rooms st) roomId = Some room) as Hentry.
  { intros roomId room Hin.
    apply JSMap_get_entry; [apply (ok_keys _ _ (ok_rooms _ Hok))|done]. }
  assert (∀ roomId room, (roomId, room) ∈ rooms st →
            ∃ r, roomStore st !! room = Some r ∧ room_roomId r = roomId
                 ∧ room_closed r = false) as Hentries.
  { intros roomId room Hin. by apply (ok_registered _ _ (ok_rooms _ Hok)), Hentry. }
  destruct (logStatus_loop_spec (rooms st) closing st Hquiet Hok)
    as (st' & delta & Hloop & Htr & Hspec).
  { intros k h h' Hin Hget. apply Hentry in Hin. congruence. }
  assert (∀ room,
            LogStatus room ∈ delta ↔
            ∃ i roomId,
              rooms st !! i = Some (roomId, room)
              ∧ ∀ j h r, (j ≤ i)%nat → h ∈ closing_before closing j →
                         roomStore st !! h = Some r → room_roomId r ≠ roomId)
    as Hspec'.
  { intros room. rewrite Hspec. split.
    - intros (i & roomId & Hlook & _ & Hsched). eauto.
    - intros (i & roomId & Hlook & Hsched). exists i, roomId.
      split; [done|]. split; [|done].
      apply Hentry. by eapply list_elem_of_lookup_2. }
  exists st', delta. split; [done|]. split; [done|]. split; [done|].
  intros i j roomId room Hlook Hj Hin Hlog.
  apply Hspec' in Hlog as (i' & roomId' & Hlook' & Hsched).
  destruct (Hentries roomId room) as (r & Hr & Hid & _);
    [by eapply list_elem_of_lookup_2|].
  destruct (Hentries roomId' room) as (r' & Hr' & Hid' & _);
    [by eapply list_elem_of_lookup_2|].
  assert (roomId' = roomId) as -> by congruence.
  assert (i' = i) as ->.
  { pose proof (ok_keys _ _ (ok_rooms _ Hok)) as Hnd. unfold JSMap.keys in Hnd.
    eapply NoDup_lookup; [exact Hnd| |];
      rewrite list_lookup_fmap; [by rewrite Hlook'|by rewrite Hlook]. }
  by apply (Hsched j room r).
Qed.

End StatusReporter.

(** ** Start-up of the workers *)
Section WorkerStartup.

Lemma lookup_references {A} (pre l post : list A) :
  omap (λ r, (pre ++ l ++ post) !! r) (seq (length pre) (length l)) = l.
Proof.
  revert pre. induction l as [|a l IH]; intros pre; simpl; [done|].
  rewrite list_lookup_middle by done. f_equal.
  specialize (IH (pre ++ [a])). rewrite length_app in IH. simpl in IH.
  rewrite Nat.add_1_r, <- app_assoc in IH. done.
Qed.

Lemma alter_references {A} (f : A → A) (pre l post : list A) :
  foldl (λ store r, alter f r store) (pre ++ l ++ post)
    (seq (length pre) (length l))
  = pre ++ (f <$> l) ++ post.
Proof.
  revert pre. induction l as [|a l IH]; intros pre; simpl; [done|].
  replace (length pre) with (length pre + 0) at 1 by lia.
  rewrite alter_app_r. simpl.
  specialize (IH (pre ++ [f a])). rewrite length_app in IH. simpl in IH.
  rewrite Nat.add_1_r, <- !app_assoc in IH. done.
Qed.

(** The workers launched so far and the store, after [n] turns of the
    loop. *)
Lemma launched_after (config : Config) (useWebRtcServer : bool) (n : nat) :
  let s := Nat.iter n (launchWorker config useWebRtcServer) (loaded config) in
  launched s
  = (λ i, {| worker_no := i;
             appData_webRtcServer :=
               if useWebRtcServer
               then Some (port_add i <$> webRtcServerOptions config)
               else None |}) <$> seq 0 n
  ∧ ∃ copies, listenInfoStore s = webRtcServerOptions config ++ copies.
Proof.
  induction n as [|n [IHl [copies IHs]]].
  - simpl. split; [done|]. exists []. by rewrite app_nil_r.
  - cbv zeta. rewrite Nat.iter_succ.
    set (s := Nat.iter n (launchWorker config useWebRtcServer) (loaded config)) in *.
    clearbody s. unfold launchWorker.
    assert (length (launched s) = n) as Hlen.
    { by rewrite IHl, length_fmap, length_seq. }
    rewrite seq_S, fmap_app, length_app, Hlen. cbn [length fmap list_fmap].
    replace (n + 1 - 1) with n by lia. rewrite Nat.add_0_l.
    destruct useWebRtcServer.
    + unfold utils_clone, config_listenInfos. rewrite IHs.
      pose proof (lookup_references [] (webRtcServerOptions config) copies)
        as Hclone.
      cbn [app length] in Hclone. rewrite Hclone.
      set (base := webRtcServerOptions config).
      pose proof (alter_references (port_add n) (base ++ copies) base []) as Hports.
      rewrite !app_nil_r in Hports. rewrite Hports.
      pose proof (lookup_references (base ++ copies) (port_add n <$> base) [])
        as Hread.
      rewrite !app_nil_r, length_fmap in Hread. rewrite Hread.
      split.
      * pose proof (alter_app_r (set_webRtcServer (port_add n <$> base))
                      (launched s)
                      [{| worker_no := n; appData_webRtcServer := None |}] 0)
          as Halter.
        rewrite Hlen, Nat.add_0_r in Halter. cbn [launched].
        rewrite Halter. by rewrite IHl.
      * exists (copies ++ (port_add n <$> base)). by rewrite <- app_assoc.
    + split; [cbn [launched]; by rewrite IHl|]. by exists copies.
Qed.

(** C10: every worker gets its own copy of the options, so worker [i]
    (for [i < numWorkers]) creates its WebRtcServer with the configured
    ports plus exactly [i], the other fields of each listen info as
    configured, and the objects of
    [config.mediasoup.webRtcServerOptions] are what they were when the
    configuration was loaded, whatever the number of workers. *)
Theorem worker_ports_offset_by_index (config : Config) (i : nat) :
  i < numWorkers config →
  let s := runMediasoupWorkers config true in
  (∃ worker webRtcServer,
     launched s !! i = Some worker
     ∧ worker_no worker = i
     ∧ appData_webRtcServer worker = Some webRtcServer
     ∧ length webRtcServer = length (webRtcServerOptions config)
     ∧ ∀ k listenInfo,
         webRtcServerOptions config !! k = Some listenInfo →
         ∃ listenInfo',
           webRtcServer !! k = Some listenInfo'
           ∧ port listenInfo' = (port listenInfo + Z.of_nat i)%Z
           ∧ protocol listenInfo' = protocol listenInfo
           ∧ ip listenInfo' = ip listenInfo)
  ∧ length (launched s) = numWorkers config
  ∧ ∀ k, k < length (webRtcServerOptions config) →
         listenInfoStore s !! k = webRtcServerOptions config !! k.
Proof.
  intros Hi s.
  destruct (launched_after config true (numWorkers config)) as [Hl [copies Hs]].
  fold (runMediasoupWorkers config true) in Hl, Hs. fold s in Hl, Hs.
  clearbody s. split; [|split].
  - exists {| worker_no := i;
              appData_webRtcServer :=
                Some (port_add i <$> webRtcServerOptions config) |},
           (port_add i <$> webRtcServerOptions config).
    split.
    { rewrite Hl, list_lookup_fmap, lookup_seq_lt by done. done. }
    split; [done|]. split; [done|]. split; [apply length_fmap|].
    intros k listenInfo Hk. exists (port_add i listenInfo).
    split; [|done]. by rewrite list_lookup_fmap, Hk.
  - by rewrite Hl, length_fmap, length_seq.
  - intros k Hk. rewrite Hs. by apply lookup_app_l.
Qed.

End WorkerStartup.

(** * Further properties of the code *)

(** ** The worker pool on its own *)
Section WorkerPool.
Context {num : JSNumber} {collab : RoomCollaborator}.
Implicit Types (st : State).

Lemma with_nextMediasoupWorkerIdx_same st :
  with_nextMediasoupWorkerIdx (nextMediasoupWorkerIdx st) st = st.
Proof. by destruct st. Qed.

Lemma with_nextMediasoupWorkerIdx_twice (i j : nat) st :
  with_nextMediasoupWorkerIdx i (with_nextMediasoupWorkerIdx j st)
  = with_nextMediasoupWorkerIdx i st.
Proof. done. Qed.

Lemma getMediasoupWorker_times_spec (n : nat) st :
  let pool := mediasoupWorkers st in
  let idx := nextMediasoupWorkerIdx st in
  idx < length pool →
  getMediasoupWorker_times n st
  = ((λ i, pool !! ((idx + i) mod length pool)) <$> seq 0 n,
     with_nextMediasoupWorkerIdx ((idx + n) mod length pool) st).
Proof.
  revert st. induction n as [|n IH]; intros st pool idx Hidx.
  - simpl. rewrite Nat.add_0_r, Nat.mod_small by done.
    subst idx. by rewrite with_nextMediasoupWorkerIdx_same.
  - cbn [getMediasoupWorker_times]. unfold getMediasoupWorker.
    fold pool idx.
    set (idx' := if decide (S idx = length pool) then 0 else S idx).
    assert (idx' = S idx mod length pool) as Hidx'.
    { subst idx'. rewrite succ_mod by lia. by rewrite Nat.mod_small. }
    assert (idx' < length pool) as Hlt.
    { rewrite Hidx'. apply Nat.mod_upper_bound. lia. }
    rewrite (IH (with_nextMediasoupWorkerIdx idx' st) Hlt).
    change (mediasoupWorkers (with_nextMediasoupWorkerIdx idx' st)) with pool.
    change (nextMediasoupWorkerIdx (with_nextMediasoupWorkerIdx idx' st))
      with idx'.
    rewrite with_nextMediasoupWorkerIdx_twice.
    assert (∀ i, (idx' + i) mod length pool = (idx + S i) mod length pool)
      as Hshift.
    { intros i. rewrite Hidx', Nat.Div0.add_mod_idemp_l. f_equal. lia. }
    rewrite Hshift. f_equal.
    change (seq 0 (S n)) with (0 :: seq 1 n). rewrite fmap_cons.
    f_equal; [by rewrite Nat.add_0_r, Nat.mod_small|].
    rewrite <- fmap_S_seq, <- list_fmap_compose.
    apply list_fmap_ext. intros i j _. simpl. by rewrite Hshift.
Qed.

(** X1: from any position of the cursor, as many calls of
    [getMediasoupWorker] as there are workers hand out every worker once,
    in the order of the pool rotated to the cursor, and leave the state as
    it was: the cursor is back where it started. *)
Theorem getMediasoupWorker_full_turn st :
  let pool := mediasoupWorkers st in
  let idx := nextMediasoupWorkerIdx st in
  idx < length pool →
  getMediasoupWorker_times (length pool) st
  = (Some <$> (drop idx pool ++ take idx pool), st)
  ∧ drop idx pool ++ take idx pool ≡ₚ pool.
Proof.
  intros pool idx Hidx. split.
  - rewrite getMediasoupWorker_times_spec by done. fold pool idx. f_equal.
    + apply list_eq. intros i. rewrite !list_lookup_fmap.
      destruct (decide (i < length pool)) as [Hi|Hi].
      * rewrite lookup_seq_lt by done. simpl.
        destruct (decide (i < length pool - idx)) as [Hl|Hr].
        -- rewrite lookup_app_l by (rewrite length_drop; lia).
           rewrite lookup_drop, Nat.mod_small by lia.
           by destruct (pool !! (idx + i)) eqn:Hp;
             [|apply lookup_ge_None in Hp; lia].
        -- rewrite lookup_app_r by (rewrite length_drop; lia).
           rewrite length_drop, lookup_take_lt by lia.
           replace (idx + i) with ((i - (length pool - idx)) + 1 * length pool)
             by lia.
           rewrite Nat.Div0.mod_add, Nat.mod_small by lia.
           by destruct (pool !! (i - (length pool - idx))) eqn:Hp;
             [|apply lookup_ge_None in Hp; lia].
      * rewrite lookup_seq_ge by lia. simpl.
        rewrite lookup_ge_None_2; [done|].
        rewrite length_app, length_drop, length_take. lia.
    + replace (idx + length pool) with (idx + 1 * length pool) by lia.
      rewrite Nat.Div0.mod_add, Nat.mod_small by done.
      apply with_nextMediasoupWorkerIdx_same.
  - rewrite Permutation_app_comm. by rewrite take_drop.
Qed.

(** X2: with an empty pool every call of [getMediasoupWorker] returns
    [undefined] and the cursor is never reset: [++idx] is never equal to
    the length 0, so after [n] calls the cursor has grown by [n]. *)
Theorem getMediasoupWorker_empty_pool (n : nat) st :
  mediasoupWorkers st = [] →
  getMediasoupWorker_times n st
  = (replicate n None,
     with_nextMediasoupWorkerIdx (nextMediasoupWorkerIdx st + n) st).
Proof.
  revert st. induction n as [|n IH]; intros st Hempty.
  - simpl. by rewrite Nat.add_0_r, with_nextMediasoupWorkerIdx_same.
  - cbn [getMediasoupWorker_times]. unfold getMediasoupWorker.
    rewrite Hempty, lookup_nil. cbn [length].
    destruct (decide (S (nextMediasoupWorkerIdx st) = 0)) as [Heq|_]; [lia|].
    rewrite (IH (with_nextMediasoupWorkerIdx (S (nextMediasoupWorkerIdx st)) st))
      by done.
    change (nextMediasoupWorkerIdx
              (with_nextMediasoupWorkerIdx (S (nextMediasoupWorkerIdx st)) st))
      with (S (nextMediasoupWorkerIdx st)).
    rewrite with_nextMediasoupWorkerIdx_twice. simpl replicate.
    do 2 f_equal. lia.
Qed.

End WorkerPool.

(** ** The queue and its tasks over whole runs *)
Section QueueRuns.
Context {num : JSNumber} {collab : RoomCollaborator}.
Implicit Types (st : State) (t : Task) (room : handle).

Lemma answered_app (tr1 tr2 : list Action) :
  answered (tr1 ++ tr2) = answered tr1 ++ answered tr2.
Proof. apply omap_app. Qed.

Lemma logStatus_loop_answered todo closing st :
  answered (trace (logStatus_loop todo closing st).2) = answered (trace st).
Proof.
  revert closing st. induction todo as [|[roomId room] todo IH];
    intros closing st; simpl; [done|].
  destruct (JSMap.get _ roomId) as [room'|];
    [|by rewrite IH, closes_trace].
  destruct (decide (room' = room)); [|by rewrite IH, closes_trace].
  destruct (_ ≫= logStatus); simpl.
  - by rewrite answered_app, app_nil_r, closes_trace.
  - rewrite IH. simpl. by rewrite answered_app, app_nil_r, closes_trace.
Qed.

Lemma task_then_answered t room st :
  (∀ r peerId, handleProtooConnection r peerId = None) →
  answered (trace (task_then t room st)) = answered (trace st) ++ [task_caller t].
Proof.
  intros Hquiet. destruct t as [conn roomId peerId c|req roomId]; simpl.
  - assert (roomStore st !! room ≫= (λ r, handleProtooConnection r peerId) = None)
      as ->.
    { destruct (roomStore st !! room); simpl; [apply Hquiet|done]. }
    simpl. rewrite <- app_assoc. by rewrite answered_app.
  - by rewrite answered_app.
Qed.

Lemma task_catch_answered t e st :
  answered (trace (task_catch t e st)) = answered (trace st) ++ [task_caller t].
Proof. destruct t; simpl; by rewrite answered_app. Qed.

Lemma AwaitQueue_next_answered pending st :
  (∀ r peerId, handleProtooConnection r peerId = None) →
  answered (trace (AwaitQueue_next pending st))
    ++ (task_caller <$> queued (AwaitQueue_next pending st))
  = answered (trace st) ++ (task_caller <$> pending).
Proof.
  intros Hquiet. revert st. induction pending as [|t pending IH]; intros st.
  - simpl. done.
  - cbn [AwaitQueue_next]. unfold getOrCreateRoom.
    destruct (JSMap.get (rooms st) (task_roomId t)) as [room|].
    + rewrite IH, task_then_answered by done.
      rewrite fmap_cons. by rewrite <- app_assoc.
    + unfold queued. simpl. rewrite answered_app. simpl.
      by rewrite app_nil_r.
Qed.

Lemma AwaitQueue_push_answered t st :
  (∀ r peerId, handleProtooConnection r peerId = None) →
  answered (trace (AwaitQueue_push t st))
    ++ (task_caller <$> queued (AwaitQueue_push t st))
  = answered (trace st) ++ (task_caller <$> queued st) ++ [task_caller t].
Proof.
  intros Hquiet. unfold AwaitQueue_push.
  destruct (executing st) as [[t0 w0]|] eqn:Hex.
  - unfold queued. simpl. rewrite Hex. simpl.
    rewrite !fmap_app. simpl. done.
  - rewrite AwaitQueue_next_answered by done.
    unfold queued. rewrite Hex. simpl. by rewrite fmap_app.
Qed.

Lemma step_answered st ev :
  (∀ r peerId, handleProtooConnection r peerId = None) →
  answered (trace (step st ev)) ++ (task_caller <$> queued (step st ev))
  = answered (trace st)
    ++ (task_caller <$> queued st) ++ (task_caller <$> admitted ev).
Proof.
  intros Hquiet.
  destruct ev as [conn query|req roomId|o|room|closing];
    cbn [step admitted].
  - unfold on_connectionrequest.
    destruct (_ || _); [|by apply AwaitQueue_push_answered].
    unfold queued. simpl. rewrite answered_app. simpl.
    by rewrite !app_nil_r.
  - by apply AwaitQueue_push_answered.
  - rewrite fmap_nil, app_nil_r. unfold on_RoomCreateSettled.
    destruct (executing st) as [[t w]|] eqn:Hex; [|done].
    assert (queued st = t :: pendingTasks st) as ->.
    { unfold queued. by rewrite Hex. }
    rewrite fmap_cons.
    destruct o as [|e]; simpl; rewrite AwaitQueue_next_answered by done.
    + rewrite task_then_answered by done. by rewrite <- app_assoc.
    + rewrite task_catch_answered. by rewrite <- app_assoc.
  - rewrite fmap_nil, app_nil_r. unfold queued.
    by rewrite on_RoomClose_trace, on_RoomClose_executing,
      on_RoomClose_pendingTasks.
  - rewrite fmap_nil, app_nil_r. unfold queued, on_statusInterval.
    by rewrite logStatus_loop_answered, logStatus_loop_executing,
      logStatus_loop_pendingTasks.
Qed.

(** X3: when [handleProtooConnection] does not throw, every task pushed
    on the queue is answered once and the answers come in the order of the
    pushes: the callers of the tasks pushed during a run are the callers
    already answered ([accept], [reject(error)], [next()] or an error
    response, in the order of the trace) followed by the callers of the
    tasks still in the queue.  No task is dropped, none is answered twice,
    none overtakes another. *)
Theorem queue_answers_in_order (workers : list Worker) (evs : list Event) :
  (∀ r peerId, handleProtooConnection r peerId = None) →
  let st := run_events (initial workers) evs in
  task_caller <$> (evs ≫= admitted)
  = answered (trace st) ++ (task_caller <$> queued st).
Proof.
  intros Hquiet.
  assert (∀ st,
            answered (trace (run_events st evs))
              ++ (task_caller <$> queued (run_events st evs))
            = answered (trace st) ++ (task_caller <$> queued st)
              ++ (task_caller <$> (evs ≫= admitted))) as Hrun.
  { induction evs as [|ev evs IH]; intros st.
    - simpl. by rewrite !app_nil_r.
    - change (run_events st (ev :: evs)) with (run_events (step st ev) evs).
      rewrite IH, app_assoc, step_answered by done.
      rewrite bind_cons, fmap_app. by rewrite <- !app_assoc. }
  intros st. subst st. by rewrite Hrun.
Qed.

(** *** Validation of a connection request *)

Lemma task_then_no_reject_code t room st :
  ∃ delta, trace (task_then t room st) = trace st ++ delta
           ∧ Forall not_reject_code delta.
Proof.
  destruct t as [conn roomId peerId c|req roomId]; simpl.
  - destruct (_ ≫= _); simpl; rewrite <- ?app_assoc; simpl;
      eexists; (split; [done|]); repeat constructor.
  - eexists. split; [done|]. repeat constructor.
Qed.

Lemma AwaitQueue_next_no_reject_code pending st :
  ∃ delta, trace (AwaitQueue_next pending st) = trace st ++ delta
           ∧ Forall not_reject_code delta.
Proof.
  revert st. induction pending as [|t pending IH]; intros st.
  - exists []. simpl. by rewrite app_nil_r.
  - cbn [AwaitQueue_next]. unfold getOrCreateRoom.
    destruct (JSMap.get (rooms st) (task_roomId t)) as [room|].
    + destruct (task_then_no_reject_code t room st) as (d1 & Htr1 & Hd1).
      destruct (IH (task_then t room st)) as (d2 & Htr2 & Hd2).
      exists (d1 ++ d2). split; [by rewrite Htr2, Htr1, app_assoc|].
      by apply Forall_app.
    + eexists. split; [done|]. repeat constructor.
Qed.

(** X4: the [connectionrequest] handler answers with [reject(400, ...)]
    exactly when [roomId] or [peerId] is missing or is the empty string.
    In that case this call is all it does; otherwise it pushes the task of
    the connection on the queue, with the identifiers of the query and with
    [consumerReplicas] 0 when the parameter is absent or not a number, and
    no [reject] with a status code is made. *)
Theorem reject_400_exactly_for_falsy_ids st conn (query : gmap string string) :
  let falsy (v : option string) := v = None ∨ v = Some "" in
  let st' := on_connectionrequest conn query st in
  (falsy (query !! "roomId") ∨ falsy (query !! "peerId") →
   st' = emit (Reject conn
                 (RejectCode 400 "Connection request without roomId and/or peerId"))
           st)
  ∧ (∀ roomId peerId,
       query !! "roomId" = Some roomId → roomId ≠ "" →
       query !! "peerId" = Some peerId → peerId ≠ "" →
       st' = AwaitQueue_push
               (SignalingTask conn roomId peerId
                  (if isNaN (JS_Number (query !! "consumerReplicas"))
                   then zero else JS_Number (query !! "consumerReplicas")))
               st
       ∧ ∃ delta, trace st' = trace st ++ delta ∧ Forall not_reject_code delta).
Proof.
  intros falsy st'. split.
  - intros Hfalsy. subst st'. unfold on_connectionrequest.
    assert (negb (truthy (query !! "roomId"))
            || negb (truthy (query !! "peerId")) = true) as ->; [|done].
    apply orb_true_iff.
    destruct Hfalsy as [[-> | ->] | [-> | ->]]; simpl; auto.
  - intros roomId peerId Hroom Hr Hpeer Hp. subst st'.
    rewrite (connectionrequest_pushes st conn query roomId peerId) by done.
    split; [done|]. unfold AwaitQueue_push.
    destruct (executing st).
    + exists []. simpl. by rewrite app_nil_r.
    + apply AwaitQueue_next_no_reject_code.
Qed.

(** *** No [NaN] reaches a room *)

Lemma AwaitQueue_next_replicas pending st :
  Forall (λ t, isNaN (task_consumerReplicas t) = false) pending →
  Forall replicas_ok (trace st) →
  Forall replicas_ok (trace (AwaitQueue_next pending st))
  ∧ Forall (λ t, isNaN (task_consumerReplicas t) = false)
      (queued (AwaitQueue_next pending st)).
Proof.
  revert st. induction pending as [|t pending IH]; intros st Hpending Htrace.
  - simpl. split; [done|]. unfold queued. simpl. constructor.
  - apply Forall_cons in Hpending as [Ht Hpending].
    cbn [AwaitQueue_next]. unfold getOrCreateRoom.
    destruct (JSMap.get (rooms st) (task_roomId t)) as [room|].
    + apply IH; [done|].
      destruct t as [conn roomId peerId c|req roomId]; simpl.
      * destruct (_ ≫= _); simpl; rewrite ?Forall_app; repeat split;
          try done; repeat constructor.
      * rewrite Forall_app. split; [done|]. repeat constructor.
    + unfold queued. simpl. split.
      * rewrite Forall_app. split; [done|]. constructor; [exact Ht|constructor].
      * by constructor.
Qed.

Lemma closes_replicas hs st :
  Forall (λ r, isNaN (room_consumerReplicas r) = false) (roomStore st) →
  Forall (λ r, isNaN (room_consumerReplicas r) = false)
    (roomStore (foldl (λ s h, on_RoomClose h s) st hs)).
Proof.
  revert st. induction hs as [|h hs IH]; intros st Hstore; simpl; [done|].
  apply IH. unfold on_RoomClose.
  destruct (roomStore st !! h) as [r|] eqn:Hr; [|done].
  simpl. apply Forall_insert; [done|]. simpl.
  by eapply (Forall_lookup_1 _ _ _ _ Hstore).
Qed.

Lemma logStatus_loop_replicas todo closing st :
  Forall replicas_ok (trace st) →
  Forall (λ r, isNaN (room_consumerReplicas r) = false) (roomStore st) →
  Forall replicas_ok (trace (logStatus_loop todo closing st).2)
  ∧ Forall (λ r, isNaN (room_consumerReplicas r) = false)
      (roomStore (logStatus_loop todo closing st).2).
Proof.
  revert closing st. induction todo as [|[roomId room] todo IH];
    intros closing st Htrace Hstore; simpl; [done|].
  pose proof (closes_replicas (hd [] closing) st Hstore) as Hstore1.
  pose proof (closes_trace (hd [] closing) st) as Htr1.
  set (st1 := foldl (λ s h, on_RoomClose h s) st (hd [] closing)) in *.
  clearbody st1. rewrite <- Htr1 in Htrace.
  assert (Forall replicas_ok (trace (emit (LogStatus room) st1))) as Hemit.
  { simpl. rewrite Forall_app. split; [done|]. repeat constructor. }
  destruct (JSMap.get _ roomId) as [room'|]; [|by apply IH].
  destruct (decide (room' = room)); [|by apply IH].
  destruct (_ ≫= logStatus); simpl; [done|]. by apply IH.
Qed.

(** X5: provided [isNaN(0)] is false, no [Room] is ever created with
    [NaN] as [consumerReplicas]: in every run each call of [Room.create]
    and each room of the store has a [consumerReplicas] that is a number,
    whatever the queries of the connection requests contain. *)
Theorem consumerReplicas_never_NaN (workers : list Worker) (evs : list Event) :
  isNaN zero = false →
  let st := run_events (initial workers) evs in
  Forall replicas_ok (trace st)
  ∧ Forall (λ r, isNaN (room_consumerReplicas r) = false) (roomStore st).
Proof.
  intros Hzero.
  assert (∀ st,
            Forall replicas_ok (trace st) →
            Forall (λ r, isNaN (room_consumerReplicas r) = false) (roomStore st) →
            Forall (λ t, isNaN (task_consumerReplicas t) = false) (queued st) →
            Forall replicas_ok (trace (run_events st evs))
            ∧ Forall (λ r, isNaN (room_consumerReplicas r) = false)
                (roomStore (run_events st evs))) as Hrun.
  { induction evs as [|ev evs IH]; intros st Htrace Hstore Hqueue; [done|].
    change (run_events st (ev :: evs)) with (run_events (step st ev) evs).
    assert (∀ t, isNaN (task_consumerReplicas t) = false →
              Forall replicas_ok (trace (AwaitQueue_push t st))
              ∧ Forall (λ t, isNaN (task_consumerReplicas t) = false)
                  (queued (AwaitQueue_push t st))) as Hpush.
    { intros t Ht. unfold AwaitQueue_push.
      destruct (executing st) as [[t0 w0]|] eqn:Hex.
      - split; [done|]. unfold queued in *. rewrite Hex in Hqueue. simpl in *.
        rewrite app_comm_cons, Forall_app. split; [done|]. by constructor.
      - apply AwaitQueue_next_replicas; [|done].
        unfold queued in Hqueue. rewrite Hex in Hqueue. simpl in Hqueue.
        rewrite Forall_app. split; [done|]. by constructor. }
    destruct ev as [conn query|req roomId|o|room|closing]; cbn [step].
    - unfold on_connectionrequest. destruct (_ || _).
      + apply IH; [|done|done]. simpl. rewrite Forall_app.
        split; [done|]. repeat constructor.
      + edestruct Hpush as [H1 H2]; [|apply IH; [exact H1| |exact H2]].
        * simpl. by destruct (isNaN (JS_Number _)) eqn:Hnan.
        * unfold AwaitQueue_push. destruct (executing st); [done|].
          by rewrite AwaitQueue_next_roomStore.
    - unfold on_roomId_param.
      edestruct Hpush as [H1 H2]; [|apply IH; [exact H1| |exact H2]].
      + done.
      + unfold AwaitQueue_push. destruct (executing st); [done|].
        by rewrite AwaitQueue_next_roomStore.
    - unfold on_RoomCreateSettled.
      destruct (executing st) as [[t w]|] eqn:Hex; [|by apply IH].
      unfold queued in Hqueue. rewrite Hex in Hqueue. simpl in Hqueue.
      apply Forall_cons in Hqueue as [Ht Hpending].
      destruct o as [|e]; simpl.
      + edestruct (AwaitQueue_next_replicas (pendingTasks st)) as [H1 H2];
          [exact Hpending| |apply IH; [exact H1| |exact H2]].
        * destruct t as [conn roomId peerId c|req roomId]; simpl.
          -- destruct (_ ≫= _); simpl; rewrite ?Forall_app; repeat split;
               try done; repeat constructor.
          -- rewrite Forall_app. split; [done|]. repeat constructor.
        * rewrite AwaitQueue_next_roomStore, task_then_roomStore. simpl.
          rewrite Forall_app. split; [done|]. constructor; [exact Ht|constructor].
      + edestruct (AwaitQueue_next_replicas (pendingTasks st)) as [H1 H2];
          [exact Hpending| |apply IH; [exact H1| |exact H2]].
        * destruct t; simpl; rewrite Forall_app; (split; [done|]);
            repeat constructor.
        * by rewrite AwaitQueue_next_roomStore, task_catch_roomStore.
    - apply IH.
      + by rewrite on_RoomClose_trace.
      + by apply (closes_replicas [room]).
      + unfold queued in *.
        by rewrite on_RoomClose_executing, on_RoomClose_pendingTasks.
    - destruct (logStatus_loop_replicas (rooms st) closing st Htrace Hstore)
        as [H1 H2].
      apply IH; [done|done|]. unfold queued, on_statusInterval in *.
      by rewrite logStatus_loop_executing, logStatus_loop_pendingTasks. }
  intros st. apply Hrun; simpl; constructor.
Qed.

(** *** A registered room stays until a ['close'] for its identifier *)

Lemma AwaitQueue_push_rooms t st : rooms (AwaitQueue_push t st) = rooms st.
Proof.
  unfold AwaitQueue_push. destruct (executing st); [done|].
  apply AwaitQueue_next_rooms.
Qed.

Lemma AwaitQueue_push_roomStore t st :
  roomStore (AwaitQueue_push t st) = roomStore st.
Proof.
  unfold AwaitQueue_push. destruct (executing st); [done|].
  apply AwaitQueue_next_roomStore.
Qed.

Lemma closes_keep_registered hs st roomId room :
  JSMap.get (rooms st) roomId = Some room →
  let st' := foldl (λ s h, on_RoomClose h s) st hs in
  JSMap.get (rooms st') roomId = Some room
  ∨ ∃ h r, h ∈ hs ∧ roomStore st' !! h = Some r ∧ room_roomId r = roomId.
Proof.
  revert st. induction hs as [|h hs IH]; intros st Hget; simpl; [by left|].
  destruct (roomStore st !! h) as [r|] eqn:Hr.
  - destruct (decide (room_roomId r = roomId)) as [Hid|Hne].
    + right.
      destruct (on_RoomClose_same_room h st h r Hr) as (r1 & Hr1 & _ & Hid1 & _).
      destruct (closes_same_room hs _ h r1 Hr1) as (r2 & Hr2 & _ & Hid2 & _).
      exists h, r2. split; [apply list_elem_of_here|]. split; [done|congruence].
    + destruct (IH (on_RoomClose h st)) as [Hkept|(h' & r' & Hin & Hr' & Hid')].
      * unfold on_RoomClose. rewrite Hr. simpl.
        by rewrite JSMap_get_delete_ne.
      * by left.
      * right. exists h', r'. split; [by apply list_elem_of_further|done].
  - destruct (IH (on_RoomClose h st)) as [Hkept|(h' & r' & Hin & Hr' & Hid')].
    + unfold on_RoomClose. by rewrite Hr.
    + by left.
    + right. exists h', r'. split; [by apply list_elem_of_further|done].
Qed.

Lemma elem_of_hd_join (closing : list (list handle)) h :
  h ∈ hd [] closing → h ∈ mjoin closing.
Proof.
  destruct closing as [|hs closing]; simpl; [done|].
  intros Hin. apply elem_of_app. by left.
Qed.

Lemma elem_of_tl_join (closing : list (list handle)) h :
  h ∈ mjoin (tl closing) → h ∈ mjoin closing.
Proof.
  destruct closing as [|hs closing]; simpl; [done|].
  intros Hin. apply elem_of_app. by right.
Qed.

Lemma logStatus_loop_keeps_registered todo closing st roomId room :
  JSMap.get (rooms st) roomId = Some room →
  let st' := (logStatus_loop todo closing st).2 in
  JSMap.get (rooms st') roomId = Some room
  ∨ ∃ h r, h ∈ mjoin closing ∧ roomStore st' !! h = Some r
           ∧ room_roomId r = roomId.
Proof.
  revert closing st. induction todo as [|[k h0] todo IH];
    intros closing st Hget; simpl; [by left|].
  destruct (closes_keep_registered (hd [] closing) st roomId room Hget)
    as [Hkept|(h & r & Hin & Hr & Hid)].
  - set (st1 := foldl (λ s h, on_RoomClose h s) st (hd [] closing)) in *.
    clearbody st1.
    assert (∀ s, rooms s = rooms st1 →
              JSMap.get (rooms (logStatus_loop todo (tl closing) s).2) roomId
              = Some room
              ∨ ∃ h r, h ∈ mjoin closing
                       ∧ roomStore (logStatus_loop todo (tl closing) s).2 !! h
                         = Some r
                       ∧ room_roomId r = roomId) as Hnext.
    { intros s Hs. destruct (IH (tl closing) s) as [?|(h & r & Hin & Hr & Hid)].
      - by rewrite Hs.
      - by left.
      - right. exists h, r. split; [by apply elem_of_tl_join|done]. }
    destruct (JSMap.get _ k) as [room'|]; [|by apply Hnext].
    destruct (decide (room' = h0)); [|by apply Hnext].
    destruct (_ ≫= logStatus); simpl; [by left|by apply Hnext].
  - right.
    set (st1 := foldl (λ s h, on_RoomClose h s) st (hd [] closing)) in *.
    clearbody st1.
    assert (∀ s, roomStore s = roomStore st1 →
              ∃ h r, h ∈ mjoin closing
                     ∧ roomStore (logStatus_loop todo (tl closing) s).2 !! h
                       = Some r
                     ∧ room_roomId r = roomId) as Hnext.
    { intros s Hs.
      destruct (logStatus_loop_same_room todo (tl closing) s h r)
        as (r' & Hr' & _ & Hid' & _); [by rewrite Hs|].
      exists h, r'. split; [by apply elem_of_hd_join|]. split; [done|congruence]. }
    destruct (JSMap.get _ k) as [room'|]; [|by apply Hnext].
    destruct (decide (room' = h0)); [|by apply Hnext].
    destruct (_ ≫= logStatus); simpl; [|by apply Hnext].
    exists h, r. split; [by apply elem_of_hd_join|done].
Qed.

Lemma step_keeps_registered st ev roomId room :
  registry_ok st → JSMap.get (rooms st) roomId = Some room →
  JSMap.get (rooms (step st ev)) roomId = Some room
  ∨ ∃ h r, h ∈ closes_of ev ∧ roomStore (step st ev) !! h = Some r
           ∧ room_roomId r = roomId.
Proof.
  intros Hok Hget.
  destruct ev as [conn query|req roomId'|o|h|closing]; cbn [step closes_of].
  - left. unfold on_connectionrequest.
    destruct (_ || _); [done|by rewrite AwaitQueue_push_rooms].
  - left. unfold on_roomId_param. by rewrite AwaitQueue_push_rooms.
  - left. unfold on_RoomCreateSettled.
    destruct (executing st) as [[t w]|] eqn:Hex; [|done].
    destruct o as [|e]; simpl; rewrite AwaitQueue_next_rooms.
    + rewrite task_then_rooms. simpl. rewrite JSMap_get_set_ne; [done|].
      intros Heq. pose proof (ok_executing _ Hok _ _ Hex) as Hnone.
      rewrite Heq in Hnone. congruence.
    + by rewrite task_catch_rooms.
  - destruct (closes_keep_registered [h] st roomId room Hget)
      as [?|(h' & r & Hin & Hr & Hid)]; [by left|].
    right. by exists h', r.
  - by apply logStatus_loop_keeps_registered.
Qed.

(** X6: a registered room is never overwritten.  When [roomId] is
    registered with a room at some point of a run, then at every later
    point [roomId] is still registered with that same room, unless a
    [Room] that was created for [roomId] has emitted ['close'] in between:
    [rooms.set] never replaces a registered room, only the ['close']
    listener of a room with this identifier removes it. *)
Theorem registered_room_is_kept_until_close (workers : list Worker)
    (evs0 evs : list Event) (roomId : string) (room : handle) :
  let st := run_events (initial workers) evs0 in
  let st' := run_events st evs in
  JSMap.get (rooms st) roomId = Some room →
  JSMap.get (rooms st') roomId = Some room
  ∨ ∃ h r, h ∈ evs ≫= closes_of ∧ roomStore st' !! h = Some r
           ∧ room_roomId r = roomId.
Proof.
  intros st. assert (registry_ok st) as Hok by apply run_events_ok, initial_ok.
  clearbody st. cbv zeta. revert st Hok.
  induction evs as [|ev evs IH]; intros st Hok Hget; [by left|].
  change (run_events st (ev :: evs)) with (run_events (step st ev) evs).
  rewrite bind_cons.
  destruct (step_keeps_registered st ev roomId room Hok Hget)
    as [Hkept|(h & r & Hin & Hr & Hid)].
  - destruct (IH (step st ev)) as [?|(h & r & Hin & Hr & Hid)];
      [by apply step_ok|done|by left|].
    right. exists h, r. split; [|done]. apply elem_of_app. by right.
  - right.
    destruct (run_events_same_room (step st ev) evs h r Hr)
      as (r' & Hr' & _ & Hid' & _).
    exists h, r'. split; [apply elem_of_app; by left|].
    split; [done|congruence].
Qed.

(** X17: the ['close'] listener deletes by identifier, not by room.  When
    a room emits ['close'] while another room is registered under its
    identifier, the registered room is removed from the registry although
    it has not closed and is otherwise untouched, and the next
    [getOrCreateRoom] for the identifier calls [Room.create] again. *)
Theorem stale_close_evicts_live_room st (old new : handle) (r_old r_new : Room)
    consumerReplicas :
  roomStore st !! old = Some r_old → roomStore st !! new = Some r_new →
  old ≠ new → JSMap.get (rooms st) (room_roomId r_old) = Some new →
  let roomId := room_roomId r_old in
  let worker := mediasoupWorkers st !! nextMediasoupWorkerIdx st in
  let st1 := on_RoomClose old st in
  JSMap.get (rooms st1) roomId = None
  ∧ roomStore st1 !! new = Some r_new
  ∧ ∃ st2,
      getOrCreateRoom roomId consumerReplicas st1 = (AwaitingRoomCreate worker, st2)
      ∧ trace st2 = trace st ++ [RoomCreateCall worker roomId consumerReplicas].
Proof.
  intros Hold Hnew Hne Hget roomId worker st1.
  assert (st1 = with_rooms (JSMap.delete (rooms st) roomId)
                  (with_roomStore (<[old := closed_room r_old]> (roomStore st)) st))
    as Hst1.
  { subst st1. unfold on_RoomClose. by rewrite Hold. }
  assert (JSMap.get (rooms st1) roomId = None) as Hnone.
  { rewrite Hst1. simpl. apply JSMap_get_delete_eq. }
  split; [done|]. split.
  - rewrite Hst1. simpl. by rewrite list_lookup_insert_ne.
  - eexists. split; [unfold getOrCreateRoom; rewrite Hnone; rewrite Hst1; done|].
    done.
Qed.

(** *** A construction that fails *)

(** X7: a rejected [Room.create] changes neither the registry nor the
    store of rooms, whatever tasks wait in the queue.  For a broadcaster
    request on an idle queue and an unknown [roomId] it means: the request
    is answered with the response of the error handler and with nothing
    else ([next()] is not called, [req.room] is not set), the queue is
    idle again, and the cursor has moved all the same, so that a new
    request for that [roomId] calls [Room.create] again, with the next
    worker. *)
Theorem failed_construction_of_broadcaster (workers : list Worker)
    (evs : list Event) (e : Error) :
  let st := run_events (initial workers) evs in
  (∀ st0,
     rooms (on_RoomCreateSettled (Rejected e) st0) = rooms st0
     ∧ roomStore (on_RoomCreateSettled (Rejected e) st0) = roomStore st0)
  ∧ ∀ req req' roomId,
      executing st = None → JSMap.get (rooms st) roomId = None →
      let st1 := step st (BroadcasterRequest req roomId) in
      let st2 := step st1 (RoomCreateSettled (Rejected e)) in
      let st3 := step st2 (BroadcasterRequest req' roomId) in
      let idx' :=
        if decide (S (nextMediasoupWorkerIdx st) = length (mediasoupWorkers st))
        then 0 else S (nextMediasoupWorkerIdx st) in
      ∃ res,
        errorHandler (Some e) = Some res
        ∧ trace st2
          = trace st ++
              [RoomCreateCall (mediasoupWorkers st !! nextMediasoupWorkerIdx st)
                 roomId zero;
               Send req res]
        ∧ req_room st2 = req_room st
        ∧ executing st2 = None ∧ pendingTasks st2 = []
        ∧ nextMediasoupWorkerIdx st2 = idx'
        ∧ executing st3
          = Some (BroadcasterTask req' roomId, mediasoupWorkers st !! idx').
Proof.
  intros st. split.
  - intros st0. unfold on_RoomCreateSettled.
    destruct (executing st0) as [[t w]|]; [|done]. simpl.
    by rewrite AwaitQueue_next_rooms, AwaitQueue_next_roomStore,
      task_catch_rooms, task_catch_roomStore.
  - assert (registry_ok st) as Hok by apply run_events_ok, initial_ok.
    clearbody st. intros req req' roomId Hex Hget. cbv zeta.
    pose proof (ok_idle _ Hok Hex) as Hpend.
    cbn [step]. unfold on_roomId_param.
    rewrite (push_creates (BroadcasterTask req roomId) st) by done.
    unfold getOrCreateRoom. simpl task_roomId. rewrite Hget.
    unfold on_RoomCreateSettled, getMediasoupWorker. simpl.
    eexists. split; [done|]. split; [by rewrite <- app_assoc|].
    split; [done|]. split; [done|]. split; [done|]. split; [done|].
    unfold AwaitQueue_push. simpl. unfold getOrCreateRoom. simpl.
    by rewrite Hget.
Qed.

(** *** While a construction is pending *)

Lemma step_while_pending st ev e :
  executing st = Some e → is_settlement ev = false →
  executing (step st ev) = Some e
  ∧ pendingTasks (step st ev) = pendingTasks st ++ admitted ev
  ∧ answered (trace (step st ev)) = answered (trace st)
  ∧ creations (trace (step st ev)) = creations (trace st).
Proof.
  intros Hex Hev.
  assert (∀ t, executing (AwaitQueue_push t st) = Some e
               ∧ pendingTasks (AwaitQueue_push t st) = pendingTasks st ++ [t]
               ∧ answered (trace (AwaitQueue_push t st)) = answered (trace st)
               ∧ creations (trace (AwaitQueue_push t st)) = creations (trace st))
    as Hpush.
  { intros t. unfold AwaitQueue_push. by rewrite Hex. }
  destruct ev as [conn query|req roomId|o|room|closing]; cbn [step admitted].
  - unfold on_connectionrequest. destruct (_ || _); [|apply Hpush].
    simpl. by rewrite app_nil_r, answered_app, creations_app, !app_nil_r.
  - apply Hpush.
  - done.
  - rewrite app_nil_r, on_RoomClose_executing, on_RoomClose_pendingTasks,
      on_RoomClose_trace. done.
  - rewrite app_nil_r. unfold on_statusInterval.
    rewrite logStatus_loop_executing, logStatus_loop_pendingTasks,
      logStatus_loop_answered.
    pose proof (logStatus_loop_pool (rooms st) closing st) as Hpool.
    by injection Hpool as _ _ Hcreations _.
Qed.

(** X14: the queue waits for the construction it has started.  As long
    as the [Room.create] of the executing task has not settled, whatever
    requests arrive, whatever rooms close and however often the status
    reporter runs, no queued caller is answered and no other [Room.create]
    is called: the requests only line up behind the executing task, also
    those for rooms that are registered. *)
Theorem pending_construction_blocks_the_queue st (evs : list Event) e :
  executing st = Some e →
  forallb (λ ev, negb (is_settlement ev)) evs = true →
  let st' := run_events st evs in
  executing st' = Some e
  ∧ pendingTasks st' = pendingTasks st ++ (evs ≫= admitted)
  ∧ answered (trace st') = answered (trace st)
  ∧ creations (trace st') = creations (trace st).
Proof.
  revert st. induction evs as [|ev evs IH]; intros st Hex Hevs.
  - simpl. by rewrite app_nil_r.
  - simpl in Hevs. apply andb_prop in Hevs as [Hev Hevs].
    apply negb_true_iff in Hev.
    destruct (step_while_pending st ev e Hex Hev) as (Hex1 & Hpend1 & Ha1 & Hc1).
    change (run_events st (ev :: evs)) with (run_events (step st ev) evs).
    destruct (IH (step st ev) Hex1 Hevs) as (Hex2 & Hpend2 & Ha2 & Hc2).
    cbv zeta. split; [done|].
    split; [by rewrite Hpend2, Hpend1, bind_cons, app_assoc|].
    split; congruence.
Qed.

(** *** [req.room] when the route handler runs *)

Lemma task_then_responses t room st :
  omap response_to (trace (task_then t room st))
  = omap response_to (trace st) ++ omap request_of [t].
Proof.
  destruct t as [conn roomId peerId c|req roomId]; simpl.
  - destruct (roomStore st !! room ≫= _); simpl;
      rewrite !omap_app; simpl; by rewrite !app_nil_r.
  - by rewrite omap_app.
Qed.

Lemma task_catch_responses t e st :
  omap response_to (trace (task_catch t e st))
  = omap response_to (trace st) ++ omap request_of [t].
Proof. destruct t; simpl; by rewrite omap_app. Qed.

Lemma AwaitQueue_next_responses pending st :
  omap response_to (trace (AwaitQueue_next pending st))
    ++ omap request_of (queued (AwaitQueue_next pending st))
  = omap response_to (trace st) ++ omap request_of pending.
Proof.
  revert st. induction pending as [|t pending IH]; intros st.
  - done.
  - cbn [AwaitQueue_next]. unfold getOrCreateRoom.
    destruct (JSMap.get (rooms st) (task_roomId t)) as [room|].
    + rewrite IH, task_then_responses, <- app_assoc.
      by rewrite <- omap_app.
    + unfold queued. simpl. rewrite omap_app. simpl. by rewrite app_nil_r.
Qed.

Lemma AwaitQueue_push_responses t st :
  omap response_to (trace (AwaitQueue_push t st))
    ++ omap request_of (queued (AwaitQueue_push t st))
  = omap response_to (trace st) ++ omap request_of (queued st ++ [t]).
Proof.
  unfold AwaitQueue_push. destruct (executing st) as [[t0 w0]|] eqn:Hex.
  - unfold queued. simpl. by rewrite Hex.
  - rewrite AwaitQueue_next_responses. unfold queued. by rewrite Hex.
Qed.

Lemma logStatus_loop_responses todo closing st :
  omap response_to (trace (logStatus_loop todo closing st).2)
  = omap response_to (trace st).
Proof.
  revert closing st. induction todo as [|[roomId room] todo IH];
    intros closing st; simpl; [done|].
  destruct (JSMap.get _ roomId) as [room'|];
    [|by rewrite IH, closes_trace].
  destruct (decide (room' = room)); [|by rewrite IH, closes_trace].
  destruct (_ ≫= logStatus); simpl.
  - by rewrite omap_app, app_nil_r, closes_trace.
  - rewrite IH. simpl. by rewrite omap_app, app_nil_r, closes_trace.
Qed.

Lemma step_responses st ev :
  omap response_to (trace (step st ev)) ++ omap request_of (queued (step st ev))
  = omap response_to (trace st) ++ omap request_of (queued st ++ admitted ev).
Proof.
  destruct ev as [conn query|req roomId|o|room|closing]; cbn [step admitted].
  - unfold on_connectionrequest.
    destruct (_ || _); [|by apply AwaitQueue_push_responses].
    unfold queued. simpl. rewrite omap_app. simpl. by rewrite !app_nil_r.
  - by apply AwaitQueue_push_responses.
  - rewrite app_nil_r. unfold on_RoomCreateSettled.
    destruct (executing st) as [[t w]|] eqn:Hex; [|done].
    assert (queued st = t :: pendingTasks st) as ->.
    { unfold queued. by rewrite Hex. }
    destruct o as [|e]; simpl; rewrite AwaitQueue_next_responses.
    + rewrite task_then_responses, <- app_assoc. by rewrite <- omap_app.
    + rewrite task_catch_responses, <- app_assoc. by rewrite <- omap_app.
  - rewrite app_nil_r. unfold queued.
    by rewrite on_RoomClose_trace, on_RoomClose_executing,
      on_RoomClose_pendingTasks.
  - rewrite app_nil_r. unfold queued, on_statusInterval.
    by rewrite logStatus_loop_responses, logStatus_loop_executing,
      logStatus_loop_pendingTasks.
Qed.

(** X15: the route handlers read [req.room] without a test, and they can:
    in every run, a request whose route handler has been started by
    [next()] has a [Room] of the store as [req.room].  Every request is
    answered once, by [next()] or by an error response, in the order of
    the requests: the requests pushed in a run are the requests answered
    followed by those still in the queue.  When the construction of the
    room of a request fails, wherever the request stood in the queue, all
    its task does is to send the error response: the route handler is not
    started. *)
Theorem route_handler_finds_its_room (workers : list Worker) (evs : list Event) :
  let st := run_events (initial workers) evs in
  (∀ req,
     Next req ∈ trace st →
     ∃ room r, req_room st !! req = Some room ∧ roomStore st !! room = Some r)
  ∧ omap request_of (evs ≫= admitted)
    = omap response_to (trace st) ++ omap request_of (queued st)
  ∧ ∀ st1 req roomId worker e,
      executing st1 = Some (BroadcasterTask req roomId, worker) →
      ∃ res,
        errorHandler (Some e) = Some res
        ∧ on_RoomCreateSettled (Rejected e) st1
          = AwaitQueue_next (pendingTasks st1) (emit (Send req res) st1).
Proof.
  intros st. split; [|split].
  - assert (admissions_ok (evs ≫= admitted) st) as [_ Hroutes].
    { apply (run_events_admissions [] (initial workers) evs).
      - apply initial_ok.
      - intros t Hin. by apply elem_of_nil in Hin.
      - apply initial_admissions. }
    intros req Hin. destruct (Hroutes req Hin) as (room & r & Hroom & Hr & _).
    eauto.
  - assert (∀ st,
              omap response_to (trace (run_events st evs))
                ++ omap request_of (queued (run_events st evs))
              = omap response_to (trace st)
                ++ omap request_of (queued st ++ (evs ≫= admitted))) as Hrun.
    { clear st. induction evs as [|ev evs IH]; intros st.
      - simpl. by rewrite app_nil_r.
      - change (run_events st (ev :: evs)) with (run_events (step st ev) evs).
        rewrite IH, omap_app, app_assoc, step_responses.
        rewrite bind_cons, !omap_app. by rewrite <- !app_assoc. }
    subst st. by rewrite Hrun.
  - intros st1 req roomId worker e Hex. eexists. split; [done|].
    by rewrite (settle_rejected st1 (BroadcasterTask req roomId) worker).
Qed.

(** *** What the registry holds *)

Lemma registry_exact_mono (closed1 closed2 : list handle) st st' :
  rooms st' = rooms st → roomStore st' = roomStore st →
  (∀ h, h ∈ closed1 → h ∈ closed2) →
  registry_exact closed1 st → registry_exact closed2 st'.
Proof.
  intros Hrooms Hstore Hsub [Hlive Hclosed]. split.
  - intros room r. rewrite Hrooms, Hstore. apply Hlive.
  - intros room r. rewrite Hstore. intros Hr Hc. eapply Hsub, Hclosed; done.
Qed.

Lemma on_RoomClose_exact closed_rooms h st :
  h ∉ closed_rooms →
  registry_exact closed_rooms st →
  registry_exact (closed_rooms ++ [h]) (on_RoomClose h st).
Proof.
  intros Hfresh [Hlive Hclosed]. unfold on_RoomClose.
  destruct (roomStore st !! h) as [r|] eqn:Hr.
  - assert (room_closed r = false) as Hopen.
    { destruct (room_closed r) eqn:Hc; [|done].
      exfalso. eapply Hfresh, Hclosed; done. }
    pose proof (Hlive _ _ Hr Hopen) as Hreg.
    split; simpl.
    + intros room r'. destruct (decide (h = room)) as [<-|Hne].
      * rewrite list_lookup_insert_eq by (by eapply lookup_lt_Some).
        intros [= <-]. done.
      * rewrite list_lookup_insert_ne by done. intros Hr' Hopen'.
        pose proof (Hlive _ _ Hr' Hopen') as Hreg'.
        rewrite JSMap_get_delete_ne; [done|]. intros Heq.
        rewrite Heq in Hreg. congruence.
    + intros room r'. destruct (decide (h = room)) as [<-|Hne].
      * intros _ _. apply elem_of_app. right. apply list_elem_of_here.
      * rewrite list_lookup_insert_ne by done. intros Hr' Hc.
        apply elem_of_app. left. eapply Hclosed; done.
  - split; [done|]. intros room r Hr' Hc. apply elem_of_app. left.
    eapply Hclosed; done.
Qed.

Lemma closes_exact closed_rooms hs st :
  NoDup (closed_rooms ++ hs) →
  registry_exact closed_rooms st →
  registry_exact (closed_rooms ++ hs) (foldl (λ s h, on_RoomClose h s) st hs).
Proof.
  revert closed_rooms st. induction hs as [|h hs IH];
    intros closed_rooms st Hnd Hinv; simpl.
  - by rewrite app_nil_r.
  - replace (closed_rooms ++ h :: hs) with ((closed_rooms ++ [h]) ++ hs) in *
      by (by rewrite <- app_assoc).
    apply IH; [done|]. apply on_RoomClose_exact; [|done].
    apply NoDup_app in Hnd as (Hnd & _ & _).
    apply NoDup_app in Hnd as (_ & Hnd & _).
    intros Hin. apply (Hnd h Hin), list_elem_of_here.
Qed.

Lemma mjoin_hd_tl (closing : list (list handle)) :
  mjoin closing = hd [] closing ++ mjoin (tl closing).
Proof. by destruct closing. Qed.

Lemma logStatus_loop_exact closed_rooms todo closing st :
  NoDup (closed_rooms ++ mjoin closing) →
  registry_exact closed_rooms st →
  registry_exact (closed_rooms ++ mjoin closing) (logStatus_loop todo closing st).2.
Proof.
  revert closed_rooms closing st. induction todo as [|[k h0] todo IH];
    intros closed_rooms closing st Hnd Hinv; simpl.
  - eapply registry_exact_mono; [done|done| |exact Hinv].
    intros h Hin. apply elem_of_app. by left.
  - rewrite mjoin_hd_tl in Hnd |- *.
    rewrite (assoc_L (++) closed_rooms) in Hnd |- *.
    assert (registry_exact (closed_rooms ++ hd [] closing)
              (foldl (λ s h, on_RoomClose h s) st (hd [] closing))) as Hinv1.
    { apply closes_exact; [|done]. by apply NoDup_app in Hnd as (Hnd & _ & _). }
    set (st1 := foldl (λ s h, on_RoomClose h s) st (hd [] closing)) in *.
    clearbody st1.
    assert (∀ s, rooms s = rooms st1 → roomStore s = roomStore st1 →
              registry_exact ((closed_rooms ++ hd [] closing) ++ mjoin (tl closing))
                (logStatus_loop todo (tl closing) s).2) as Hnext.
    { intros s Hs1 Hs2. apply IH; [done|].
      eapply registry_exact_mono; [exact Hs1|exact Hs2| |exact Hinv1]. done. }
    destruct (JSMap.get _ k) as [room'|]; [|by apply Hnext].
    destruct (decide (room' = h0)); [|by apply Hnext].
    destruct (_ ≫= logStatus); simpl; [|by apply Hnext].
    eapply registry_exact_mono; [| | |exact Hinv1]; [done|done|].
    intros h Hin. apply elem_of_app. by left.
Qed.

Lemma step_exact closed_rooms st ev :
  registry_ok st → NoDup (closed_rooms ++ closes_of ev) →
  registry_exact closed_rooms st →
  registry_exact (closed_rooms ++ closes_of ev) (step st ev).
Proof.
  intros Hok Hnd Hinv.
  assert (∀ s, rooms s = rooms st → roomStore s = roomStore st →
            registry_exact (closed_rooms ++ []) s) as Hframe.
  { intros s Hs1 Hs2. eapply registry_exact_mono; [done|done| |exact Hinv].
    intros h Hin. by rewrite app_nil_r. }
  destruct ev as [conn query|req roomId|o|h|closing]; cbn [step closes_of] in *.
  - apply Hframe; unfold on_connectionrequest; destruct (_ || _); try done.
    + apply AwaitQueue_push_rooms.
    + apply AwaitQueue_push_roomStore.
  - apply Hframe; [apply AwaitQueue_push_rooms|apply AwaitQueue_push_roomStore].
  - unfold on_RoomCreateSettled.
    destruct (executing st) as [[t w]|] eqn:Hex; [|by apply Hframe].
    destruct o as [|e]; simpl.
    + pose proof (ok_executing _ Hok _ _ Hex) as Hnone.
      destruct Hinv as [Hlive Hclosed]. split.
      * intros room r. rewrite AwaitQueue_next_rooms, AwaitQueue_next_roomStore,
          task_then_rooms, task_then_roomStore. simpl. intros Hr Hopen.
        destruct (decide (room < length (roomStore st))) as [Hlt|Hge].
        -- rewrite lookup_app_l in Hr by done.
           pose proof (Hlive _ _ Hr Hopen) as Hreg.
           rewrite JSMap_get_set_ne; [done|]. intros Heq.
           rewrite Heq in Hnone. congruence.
        -- apply lookup_lt_Some in Hr as Hlen. rewrite length_app in Hlen.
           simpl in Hlen. assert (room = length (roomStore st)) as -> by lia.
           rewrite list_lookup_middle in Hr by done. injection Hr as <-.
           simpl. apply JSMap_get_set_eq.
      * intros room r. rewrite AwaitQueue_next_roomStore, task_then_roomStore.
        simpl. intros Hr Hc. rewrite app_nil_r.
        destruct (decide (room < length (roomStore st))) as [Hlt|Hge].
        -- rewrite lookup_app_l in Hr by done. eapply Hclosed; done.
        -- apply lookup_lt_Some in Hr as Hlen. rewrite length_app in Hlen.
           simpl in Hlen. assert (room = length (roomStore st)) as -> by lia.
           rewrite list_lookup_middle in Hr by done. injection Hr as <-.
           done.
    + apply Hframe.
      * by rewrite AwaitQueue_next_rooms, task_catch_rooms.
      * by rewrite AwaitQueue_next_roomStore, task_catch_roomStore.
  - by apply (closes_exact closed_rooms [h]).
  - by apply logStatus_loop_exact.
Qed.

Lemma run_events_exact closed_rooms st (evs : list Event) :
  registry_ok st → NoDup (closed_rooms ++ (evs ≫= closes_of)) →
  registry_exact closed_rooms st →
  registry_exact (closed_rooms ++ (evs ≫= closes_of)) (run_events st evs).
Proof.
  revert closed_rooms st. induction evs as [|ev evs IH];
    intros closed_rooms st Hok Hnd Hinv.
  - simpl. by rewrite app_nil_r.
  - change (run_events st (ev :: evs)) with (run_events (step st ev) evs).
    rewrite bind_cons, (assoc_L (++) closed_rooms) in Hnd |- *.
    apply IH; [by apply step_ok|done|].
    apply step_exact; [done| |done].
    by apply NoDup_app in Hnd as (Hnd & _ & _).
Qed.

(** X16: as long as no room emits ['close'] a second time, the registry
    holds exactly the live rooms.  In every run in which each room emits
    ['close'] at most once, an identifier is registered with a handle if
    and only if that handle is a room of the store with this identifier
    that has not closed: a closed room is never left in the registry, a
    live room is never missing from it, and no room is registered under
    an identifier other than its own. *)
Theorem registry_holds_the_live_rooms (workers : list Worker) (evs : list Event)
    (roomId : string) (room : handle) :
  NoDup (evs ≫= closes_of) →
  let st := run_events (initial workers) evs in
  JSMap.get (rooms st) roomId = Some room
  ↔ ∃ r, roomStore st !! room = Some r
         ∧ room_roomId r = roomId ∧ room_closed r = false.
Proof.
  intros Hnd st.
  assert (registry_ok st) as [[_ Hreg] _ _] by apply run_events_ok, initial_ok.
  assert (registry_exact ([] ++ (evs ≫= closes_of)) st) as [Hlive _].
  { apply run_events_exact; [apply initial_ok|done|].
    split; simpl; intros h r Hr; by rewrite lookup_nil in Hr. }
  split; [apply Hreg|].
  intros (r & Hr & <- & Hopen). by apply Hlive.
Qed.

End QueueRuns.

(** ** The status reporter when no room closes *)
Section StatusRuns.
Context {num : JSNumber} {collab : RoomCollaborator}.
Implicit Types (st : State) (room : handle).

Lemma logStatus_calls_snoc (hs : list handle) room st :
  logStatus_calls (hs ++ [room]) st = emit (LogStatus room) (logStatus_calls hs st).
Proof. unfold logStatus_calls. by rewrite foldl_app. Qed.

Lemma logStatus_calls_frame (hs : list handle) st :
  trace (logStatus_calls hs st) = trace st ++ (LogStatus <$> hs)
  ∧ rooms (logStatus_calls hs st) = rooms st
  ∧ roomStore (logStatus_calls hs st) = roomStore st
  ∧ nextMediasoupWorkerIdx (logStatus_calls hs st) = nextMediasoupWorkerIdx st
  ∧ executing (logStatus_calls hs st) = executing st
  ∧ pendingTasks (logStatus_calls hs st) = pendingTasks st
  ∧ req_room (logStatus_calls hs st) = req_room st.
Proof.
  revert st. induction hs as [|h hs IH]; intros st.
  - simpl. by rewrite app_nil_r.
  - destruct (IH (emit (LogStatus h) st)) as (Htr & ? & ? & ? & ? & ? & ?).
    change (logStatus_calls (h :: hs) st)
      with (logStatus_calls hs (emit (LogStatus h) st)).
    split; [|done]. rewrite Htr. simpl. by rewrite <- app_assoc.
Qed.

Lemma logStatus_loop_quiet (todo : JSMap.t handle) st :
  (∀ roomId room, (roomId, room) ∈ todo →
     JSMap.get (rooms st) roomId = Some room) →
  (∀ roomId room r, (roomId, room) ∈ todo →
     roomStore st !! room = Some r → logStatus r = None) →
  logStatus_loop todo [] st = (None, logStatus_calls todo.*2 st).
Proof.
  revert st. induction todo as [|[k h] todo IH]; intros st Hreg Hquiet; [done|].
  cbn [logStatus_loop hd tl foldl].
  rewrite (Hreg k h) by apply list_elem_of_here. rewrite decide_True by done.
  assert (roomStore st !! h ≫= logStatus = None) as ->.
  { destruct (roomStore st !! h) as [r|] eqn:Hr; [|done]. simpl.
    eapply Hquiet; [apply list_elem_of_here|done]. }
  rewrite IH; [done| |].
  - intros roomId room Hin. apply Hreg. by apply list_elem_of_further.
  - intros roomId room r Hin Hr.
    apply (Hquiet roomId room r); [by apply list_elem_of_further|done].
Qed.

Lemma logStatus_loop_throw (pre post : JSMap.t handle) roomId room r e st :
  (∀ k h, (k, h) ∈ pre ++ [(roomId, room)] →
     JSMap.get (rooms st) k = Some h) →
  (∀ k h r', (k, h) ∈ pre → roomStore st !! h = Some r' → logStatus r' = None) →
  roomStore st !! room = Some r → logStatus r = Some e →
  logStatus_loop (pre ++ (roomId, room) :: post) [] st
  = (Some e, logStatus_calls (pre.*2 ++ [room]) st).
Proof.
  revert st. induction pre as [|[k h] pre IH];
    intros st Hreg Hquiet Hr Hthrow.
  - cbn [app logStatus_loop hd tl foldl].
    rewrite (Hreg roomId room) by apply list_elem_of_here.
    rewrite decide_True by done. rewrite Hr. simpl. by rewrite Hthrow.
  - cbn [app logStatus_loop hd tl foldl].
    rewrite (Hreg k h) by apply list_elem_of_here. rewrite decide_True by done.
    assert (roomStore st !! h ≫= logStatus = None) as ->.
    { destruct (roomStore st !! h) as [r'|] eqn:Hr'; [|done]. simpl.
      eapply Hquiet; [apply list_elem_of_here|done]. }
    rewrite IH; [done| | |done|done].
    + intros k' h' Hin. apply Hreg. by apply list_elem_of_further.
    + intros k' h' r' Hin Hr'.
      apply (Hquiet k' h' r'); [by apply list_elem_of_further|done].
Qed.

(** X8: when no room closes meanwhile and [logStatus] returns normally
    on live rooms, an iteration of the status reporter calls [logStatus]
    once on every registered room, in the order in which the rooms were
    registered, raises nothing and changes nothing: registry, store of
    rooms, cursor, queue and requests are as before. *)
Theorem status_reports_every_room_in_order (workers : list Worker)
    (evs : list Event) :
  (∀ r, room_closed r = false → logStatus r = None) →
  let st := run_events (initial workers) evs in
  ∃ st',
    on_statusInterval [] st = (None, st')
    ∧ trace st' = trace st ++ (LogStatus <$> JSMap.values (rooms st))
    ∧ rooms st' = rooms st
    ∧ roomStore st' = roomStore st
    ∧ nextMediasoupWorkerIdx st' = nextMediasoupWorkerIdx st
    ∧ executing st' = executing st
    ∧ pendingTasks st' = pendingTasks st
    ∧ req_room st' = req_room st.
Proof.
  intros Hquiet st.
  assert (registry_ok st) as Hok by apply run_events_ok, initial_ok.
  clearbody st. exists (logStatus_calls (JSMap.values (rooms st)) st).
  split; [|apply logStatus_calls_frame].
  unfold on_statusInterval. apply logStatus_loop_quiet.
  - intros roomId room Hin.
    apply JSMap_get_entry; [apply (ok_keys _ _ (ok_rooms _ Hok))|done].
  - intros roomId room r Hin Hr. apply Hquiet.
    assert (JSMap.get (rooms st) roomId = Some room) as Hget.
    { apply JSMap_get_entry; [apply (ok_keys _ _ (ok_rooms _ Hok))|done]. }
    destruct (ok_registered _ _ (ok_rooms _ Hok) _ _ Hget) as (r' & Hr' & _ & Hopen).
    congruence.
Qed.

(** X9: the loop of the status reporter has no [catch]: when [logStatus]
    throws for a room, the iteration ends with that exception, the rooms
    registered before that room have been reported, the rooms registered
    after it are not reported. *)
Theorem status_iteration_stops_at_exception (workers : list Worker)
    (evs : list Event) (pre post : JSMap.t handle) roomId room r e :
  let st := run_events (initial workers) evs in
  rooms st = pre ++ (roomId, room) :: post →
  (∀ k h r', (k, h) ∈ pre → roomStore st !! h = Some r' → logStatus r' = None) →
  roomStore st !! room = Some r → logStatus r = Some e →
  ∃ st',
    on_statusInterval [] st = (Some e, st')
    ∧ trace st' = trace st ++ (LogStatus <$> pre.*2 ++ [room]).
Proof.
  intros st Hrooms Hquiet Hr Hthrow.
  assert (registry_ok st) as Hok by apply run_events_ok, initial_ok.
  clearbody st. exists (logStatus_calls (pre.*2 ++ [room]) st).
  split; [|apply logStatus_calls_frame].
  unfold on_statusInterval. rewrite Hrooms.
  apply (logStatus_loop_throw pre post roomId room r e st); try done.
  intros k h Hin.
  apply JSMap_get_entry; [apply (ok_keys _ _ (ok_rooms _ Hok))|].
  rewrite Hrooms. apply elem_of_app in Hin as [Hin|Hin].
  - apply elem_of_app. by left.
  - apply list_elem_of_singleton in Hin as ->.
    apply elem_of_app. right. apply list_elem_of_here.
Qed.

End StatusRuns.

(** ** More on the start-up of the workers *)
Section StartupRuns.
Context {num : JSNumber} {collab : RoomCollaborator}.

Lemma store_after (config : Config) (useWebRtcServer : bool) (n : nat) :
  listenInfoStore
    (Nat.iter n (launchWorker config useWebRtcServer) (loaded config))
  = webRtcServerOptions config
    ++ (if useWebRtcServer
        then mjoin ((λ i, port_add i <$> webRtcServerOptions config) <$> seq 0 n)
        else []).
Proof.
  induction n as [|n IH].
  - simpl. destruct useWebRtcServer; by rewrite app_nil_r.
  - rewrite Nat.iter_succ.
    destruct (launched_after config useWebRtcServer n) as [Hl _].
    cbv zeta in Hl.
    set (s := Nat.iter n (launchWorker config useWebRtcServer) (loaded config)) in *.
    clearbody s. unfold launchWorker.
    assert (length (launched s) = n) as Hlen.
    { by rewrite Hl, length_fmap, length_seq. }
    rewrite length_app, Hlen. cbn [length].
    replace (n + 1 - 1) with n by lia.
    destruct useWebRtcServer; [|by cbn [listenInfoStore]].
    unfold utils_clone, config_listenInfos. rewrite IH.
    set (base := webRtcServerOptions config).
    set (copies := mjoin ((λ i, port_add i <$> base) <$> seq 0 n)).
    pose proof (lookup_references [] base copies) as Hclone.
    cbn [app length] in Hclone. rewrite Hclone.
    pose proof (alter_references (port_add n) (base ++ copies) base []) as Hports.
    rewrite !app_nil_r in Hports. rewrite Hports.
    cbn [listenInfoStore].
    rewrite seq_S, fmap_app, join_app. simpl. rewrite app_nil_r.
    by rewrite <- app_assoc.
Qed.

(** X10: no two workers listen on the same port for the same entry of
    [listenInfos]: the WebRtcServers of two different workers differ in
    the port of every entry. *)
Theorem workers_do_not_share_ports (config : Config) (i j k : nat)
    (worker_i worker_j : Worker) (server_i server_j : list ListenInfo)
    (listenInfo_i listenInfo_j : ListenInfo) :
  let s := runMediasoupWorkers config true in
  i ≠ j →
  launched s !! i = Some worker_i → launched s !! j = Some worker_j →
  appData_webRtcServer worker_i = Some server_i →
  appData_webRtcServer worker_j = Some server_j →
  server_i !! k = Some listenInfo_i → server_j !! k = Some listenInfo_j →
  port listenInfo_i ≠ port listenInfo_j.
Proof.
  intros s Hij Hi Hj Hsi Hsj Hki Hkj.
  destruct (launched_after config true (numWorkers config)) as [Hl _].
  fold (runMediasoupWorkers config true) in Hl. fold s in Hl. clearbody s.
  rewrite Hl, list_lookup_fmap in Hi, Hj.
  destruct (seq 0 (numWorkers config) !! i) as [i'|] eqn:Hi'; [|done].
  destruct (seq 0 (numWorkers config) !! j) as [j'|] eqn:Hj'; [|done].
  apply lookup_seq in Hi' as [-> _]. apply lookup_seq in Hj' as [-> _].
  simpl in Hi, Hj. injection Hi as <-. injection Hj as <-.
  simpl in Hsi, Hsj. injection Hsi as <-. injection Hsj as <-.
  rewrite list_lookup_fmap in Hki, Hkj.
  destruct (webRtcServerOptions config !! k) as [b|]; [|done].
  simpl in Hki, Hkj. injection Hki as <-. injection Hkj as <-.
  simpl. lia.
Qed.

(** X11: only the value ['false'] of [MEDIASOUP_USE_WEBRTC_SERVER] turns
    the WebRtcServers off.  With that value no worker has a WebRtcServer
    and no [listenInfo] object is created besides those of the
    configuration; with any other value, or with the variable not set,
    every worker has a WebRtcServer with as many listen infos as the
    configuration has.  The number of workers is [numWorkers] either
    way. *)
Theorem webRtcServer_unless_env_false (config : Config) (env : option string) :
  let s := runMediasoupWorkers config (useWebRtcServer env) in
  let base := webRtcServerOptions config in
  length (launched s) = numWorkers config
  ∧ (env = Some "false" →
     Forall (λ worker, appData_webRtcServer worker = None) (launched s)
     ∧ listenInfoStore s = base)
  ∧ (env ≠ Some "false" →
     Forall (λ worker,
               ∃ server, appData_webRtcServer worker = Some server
                         ∧ length server = length base) (launched s)).
Proof.
  intros s base.
  destruct (launched_after config (useWebRtcServer env) (numWorkers config))
    as [Hl _].
  pose proof (store_after config (useWebRtcServer env) (numWorkers config)) as Hs.
  fold (runMediasoupWorkers config (useWebRtcServer env)) in Hl, Hs.
  fold s in Hl, Hs. clearbody s. fold base in Hl, Hs.
  split; [by rewrite Hl, length_fmap, length_seq|]. split.
  - intros ->. unfold useWebRtcServer in Hl, Hs.
    rewrite bool_decide_eq_true_2 in Hl, Hs by done. simpl in Hl, Hs.
    split; [|by rewrite Hs, app_nil_r].
    rewrite Hl. apply Forall_fmap, Forall_true. done.
  - intros Henv. unfold useWebRtcServer in Hl, Hs.
    rewrite bool_decide_eq_false_2 in Hl, Hs by done. simpl in Hl, Hs.
    rewrite Hl. apply Forall_fmap, Forall_true. intros i. simpl.
    eexists. split; [done|]. apply length_fmap.
Qed.

(** X12: start-up and assignment together.  When the server has started
    with at least one worker and WebRtcServers on, the [k]-th call of
    [Room.create] in any run is given worker number [k mod numWorkers],
    whose WebRtcServer listens on the configured ports plus
    [k mod numWorkers]. *)
Theorem creation_call_gets_worker_and_ports (config : Config)
    (env : option string) (evs : list Event) (k : nat) (w : option Worker) :
  0 < numWorkers config → env ≠ Some "false" →
  creations (trace (run_events (started config env) evs)) !! k = Some w →
  w = Some {| worker_no := k mod numWorkers config;
              appData_webRtcServer :=
                Some (port_add (k mod numWorkers config)
                        <$> webRtcServerOptions config) |}.
Proof.
  intros HP Henv Hk. unfold started in Hk.
  destruct (launched_after config (useWebRtcServer env) (numWorkers config))
    as [Hl _].
  fold (runMediasoupWorkers config (useWebRtcServer env)) in Hl.
  set (pool := launched (runMediasoupWorkers config (useWebRtcServer env))) in *.
  assert (length pool = numWorkers config) as Hlen.
  { by rewrite Hl, length_fmap, length_seq. }
  assert (round_robin pool (pool_view (run_events (initial pool) evs)))
    as (_ & _ & Hround).
  { apply run_events_round_robin; [lia|]. split; [done|]. split.
    - simpl. by rewrite Nat.Div0.mod_0_l.
    - intros k' w' Hlook. simpl in Hlook. by rewrite lookup_nil in Hlook. }
  rewrite (Hround k w Hk), Hlen, Hl, list_lookup_fmap.
  rewrite lookup_seq_lt by (by apply Nat.mod_upper_bound, Nat.neq_0_lt_0).
  simpl. unfold useWebRtcServer.
  by rewrite bool_decide_eq_false_2.
Qed.

End StartupRuns.

(** ** More on the error handler *)

(** X13: the error handler leaves a status on the error it handled, that
    status is the status of the response and is never 0, and handling the
    error once more gives the same response: the status the handler has
    chosen is kept. *)
Theorem errorHandler_sets_the_status (error : Error) (res : Response) :
  errorHandler (Some error) = Some res →
  res_status res ≠ 0%Z
  ∧ err_status (errorHandler_error error) = Some (res_status res)
  ∧ errorHandler (Some (errorHandler_error error)) = Some res.
Proof.
  intros [= <-]. simpl.
  set (fallback := if decide (err_name error = "TypeError")
                   then 400%Z else 500%Z).
  assert (fallback ≠ 0%Z) as Hfallback.
  { subst fallback. by destruct (decide _). }
  assert (status_or (err_status error) fallback ≠ 0%Z) as Hnz.
  { destruct (err_status error) as [s|]; simpl; [|done].
    destruct (s =? 0)%Z eqn:Hs; [done|]. by apply Z.eqb_neq. }
  split; [done|]. split; [done|].
  apply Z.eqb_neq in Hnz. by rewrite Hnz.
Qed.

(** * The model at concrete inputs *)

#[local] Existing Instance integers.
#[local] Existing Instance quietRooms.

(** C2 as stated fails: with two workers, when the construction of ["A"]
    fails and ["B"] is created next, ["B"] is the first room created
    (number 0) and it is bound to the worker at index 1, not to the one at
    index [0 mod 2]. *)
Lemma creation_order_counterexample :
  let st := run_events (collab := quietRooms) (initial demoWorkers) demoFailedFirst in
  length demoWorkers = 2
  ∧ room_roomId <$> roomStore st = ["B"]
  ∧ room_mediasoupWorker <$> roomStore st = [demoWorkers !! 1]
  ∧ demoWorkers !! 1 ≠ demoWorkers !! (0 mod 2).
Proof. vm_compute. repeat split. discriminate. Qed.

(** C7 as stated fails: an error named ['Error'] that carries the status
    404 is not a ['TypeError'] without status, yet the response has the
    status 404 and not 500. *)
Lemma preset_status_counterexample :
  ¬ (err_name demoNotFound = "TypeError" ∧ err_status demoNotFound = None)
  ∧ ∃ res, errorHandler (Some demoNotFound) = Some res
           ∧ res_status res = 404%Z ∧ res_status res ≠ 500%Z.
Proof.
  split; [intros [Hname _]; discriminate|].
  eexists. split; [reflexivity|]. split; [reflexivity|discriminate].
Qed.


(** Pool of two, rooms ["A"], ["B"], ["C"] created in that order: the
    workers are number 0, 1 and 0. *)
Example three_rooms_two_workers :
  (λ r, worker_no <$> room_mediasoupWorker r)
    <$> roomStore (run_events (initial demoWorkers) demoThreeRooms)
  = [Some 0; Some 1; Some 0].
Proof. reflexivity. Qed.

(** When the construction of ["A"] fails nothing is registered, the
    connection is rejected with the error, and the cursor has moved on. *)
Example failed_construction_moves_cursor :
  let st := run_events (initial demoWorkers)
              [ConnectionRequest 1 (demoQuery "A" "alice");
               RoomCreateSettled (Rejected demoError)] in
  rooms st = [] ∧ roomStore st = [] ∧ nextMediasoupWorkerIdx st = 1
  ∧ trace st = [RoomCreateCall (demoWorkers !! 0) "A" (Some 0%Z);
                Reject 1 (RejectError demoError)].
Proof. repeat split. Qed.

(** A room that emits ['close'] again after its identifier has been
    registered anew removes the new room from the registry: when this
    happens just before the status reporter reaches the entry, the new
    room is not reported (the trace has not grown) although it has not
    closed. *)
Example second_close_hides_room_from_status :
  rooms demoReopened = [("A", 1)]
  ∧ room_closed <$> roomStore demoReopened = [true; false]
  ∧ (on_statusInterval [[0]] demoReopened).1 = None
  ∧ length (trace (on_statusInterval [[0]] demoReopened).2)
    = length (trace demoReopened)
  ∧ rooms (on_statusInterval [[0]] demoReopened).2 = [].
Proof.
  split; [vm_compute; reflexivity|]. split; [vm_compute; reflexivity|].
  split; [vm_compute; reflexivity|].
  split; vm_compute; reflexivity.
Qed.


Lemma round_robin_over_creation_calls_witness :
  let st := run_events (collab := quietRooms) (initial demoWorkers) demoThreeRooms in
  (0 < length demoWorkers
   ∧ forallb (λ ev, negb (is_rejection ev)) demoThreeRooms = true)
  ∧ nextMediasoupWorkerIdx st < 2
  ∧ ∀ k r, roomStore st !! k = Some r →
           room_mediasoupWorker r = demoWorkers !! (k mod 2).
Proof.
  assert (0 < length demoWorkers) as Hpool by (vm_compute; lia).
  split; [split; [exact Hpool|reflexivity]|].
  destruct (round_robin_over_creation_calls (collab := quietRooms)
              demoWorkers demoThreeRooms Hpool) as (Hidx & _ & Hrooms).
  split; [exact Hidx|]. exact (proj1 (Hrooms eq_refl)).
Defined.

Lemma closed_room_is_recreated_witness :
  (roomStore demoOneRoom !! 0 = Some demoRoomA ∧ room_closed demoRoomA = false)
  ∧ JSMap.get (rooms (on_RoomClose 0 demoOneRoom)) "A" = None
  ∧ ∃ st2 room' st3,
      getOrCreateRoom "A" (Some 2%Z) (on_RoomClose 0 demoOneRoom)
      = (AwaitingRoomCreate (demoWorkers !! 1), st2)
      ∧ getOrCreateRoom_resume "A" (demoWorkers !! 1) (Some 2%Z) Resolved st2
        = (inr room', st3)
      ∧ room' ≠ 0
      ∧ JSMap.get (rooms st3) "A" = Some room'.
Proof.
  assert (roomStore demoOneRoom !! 0 = Some demoRoomA) as Hroom by reflexivity.
  split; [split; [exact Hroom|reflexivity]|].
  destruct (closed_room_is_recreated demoOneRoom 0 demoRoomA (Some 2%Z)
              Hroom eq_refl)
    as (Hnone & st2 & Hbegin & _ & _ & room' & st3 & Hresume & Hne & _ & _ & Hreg).
  split; [exact Hnone|].
  exists st2, room', st3. split; [exact Hbegin|].
  split; [exact Hresume|]. split; [exact Hne|exact Hreg].
Defined.

Lemma accept_only_after_room_resolved_witness :
  let st := initial (num := integers) demoWorkers in
  let query := demoQuery "R1" "alice" in
  let t := SignalingTask (num := integers) 7 "R1" "alice" (Some 0%Z) in
  let st1 := step st (ConnectionRequest 7 query) in
  (query !! "roomId" = Some "R1" ∧ "R1" ≠ ""
   ∧ query !! "peerId" = Some "alice" ∧ "alice" ≠ ""
   ∧ query_consumerReplicas query = Some 0%Z
   ∧ executing st1 = Some (t, demoWorkers !! 0))
  ∧ st1 = AwaitQueue_next [t] st
  ∧ trace st1 = [RoomCreateCall (demoWorkers !! 0) "R1" (Some 0%Z)]
  ∧ ∀ e, on_RoomCreateSettled (Rejected e) st1
         = AwaitQueue_next (pendingTasks st1) (emit (Reject 7 (RejectError e)) st1).
Proof.
  assert ("R1" ≠ "") as Hroom by discriminate.
  assert ("alice" ≠ "") as Hpeer by discriminate.
  split; [repeat split; (reflexivity || assumption)|].
  destruct (accept_only_after_room_resolved demoWorkers []) as [_ Htask].
  destruct (Htask 7 "R1" "alice" (Some 0%Z)) as (Hpushed & _ & Hsettled).
  split; [exact (Hpushed (demoQuery "R1" "alice") eq_refl Hroom eq_refl Hpeer
                   eq_refl)|].
  split; [reflexivity|].
  exact (proj1 (Hsettled (step (initial demoWorkers)
                            (ConnectionRequest 7 (demoQuery "R1" "alice")))
                  (demoWorkers !! 0) eq_refl)).
Defined.

Lemma missing_ids_are_rejected_witness :
  let query : gmap string string := {[ "roomId" := "R1" ]} in
  let st' := step demoOneRoom (ConnectionRequest 9 query) in
  (query !! "roomId" = None ∨ query !! "peerId" = None)
  ∧ rooms st' = rooms demoOneRoom
  ∧ nextMediasoupWorkerIdx st' = nextMediasoupWorkerIdx demoOneRoom
  ∧ executing st' = executing demoOneRoom
  ∧ pendingTasks st' = pendingTasks demoOneRoom.
Proof.
  assert (({[ "roomId" := "R1" ]} : gmap string string) !! "roomId" = None
          ∨ ({[ "roomId" := "R1" ]} : gmap string string) !! "peerId" = None)
    as Hmissing by (right; reflexivity).
  split; [exact Hmissing|].
  destruct (missing_ids_are_rejected demoOneRoom 9 _ Hmissing)
    as (_ & _ & Hrooms & _ & _ & Hidx & Hex & Hpend & _).
  split; [exact Hrooms|]. split; [exact Hidx|]. split; [exact Hex|exact Hpend].
Defined.


Lemma error_status_mapping_witness :
  (err_status demoTypeError = None ∧ err_name demoTypeError = "TypeError")
  ∧ (err_status demoNotFound = Some 404%Z ∧ 404%Z ≠ 0%Z)
  ∧ res_status <$> errorHandler (Some demoTypeError) = Some 400%Z
  ∧ res_status <$> errorHandler (Some demoNotFound) = Some 404%Z.
Proof.
  assert (404%Z ≠ 0%Z) as Hnz by discriminate.
  split; [split; reflexivity|]. split; [split; [reflexivity|exact Hnz]|].
  destruct (error_status_mapping demoTypeError)
    as (res1 & Hres1 & _ & _ & _ & _ & Hunset).
  destruct (error_status_mapping demoNotFound)
    as (res2 & Hres2 & _ & _ & _ & Hpreset & _).
  rewrite Hres1, Hres2. simpl. split.
  - f_equal. exact (proj1 (Hunset (or_introl eq_refl)) eq_refl).
  - f_equal. exact (Hpreset 404%Z eq_refl Hnz).
Defined.

Lemma existing_room_is_returned_witness :
  JSMap.get (rooms demoOneRoom) "A" = Some 0
  ∧ getOrCreateRoom "A" (Some 3%Z) demoOneRoom = (Returned 0, demoOneRoom)
  ∧ getOrCreateRoom "A" (Some 0%Z) demoOneRoom = (Returned 0, demoOneRoom).
Proof.
  assert (JSMap.get (rooms demoOneRoom) "A" = Some 0) as Hget by reflexivity.
  split; [exact Hget|].
  destruct (existing_room_is_returned demoOneRoom "A" 0 Hget) as [Hcall _].
  split; apply Hcall.
Defined.

Lemma status_reporter_skips_closed_rooms_witness :
  let st := run_events (collab := strictRooms) (initial demoWorkers) demoTwoRooms in
  (∀ r : @Room integers,
     room_closed r = false → logStatus (RoomCollaborator := strictRooms) r = None)
  ∧ rooms st = [("A", 0); ("B", 1)]
  ∧ (on_statusInterval (collab := strictRooms) [[1]] st).1 = None
  ∧ LogStatus 1 ∉ drop (length (trace st))
                    (trace (on_statusInterval (collab := strictRooms) [[1]] st).2).
Proof.
  assert (∀ r : @Room integers,
            room_closed r = false
            → logStatus (RoomCollaborator := strictRooms) r = None) as Hquiet.
  { intros r Hopen. simpl. rewrite Hopen. reflexivity. }
  split; [exact Hquiet|]. split; [reflexivity|].
  destruct (status_reporter_skips_closed_rooms (collab := strictRooms)
              demoWorkers demoTwoRooms [[1]] Hquiet)
    as (st' & delta & Hloop & Htrace & _ & Hskipped).
  rewrite Hloop. cbn [fst snd]. split; [reflexivity|].
  rewrite Htrace, drop_app_length.
  apply (Hskipped 1 0 "B" 1); [reflexivity|lia|].
  apply list_elem_of_here.
Defined.

Lemma worker_ports_offset_by_index_witness :
  1 < numWorkers demoConfig
  ∧ ∃ worker webRtcServer listenInfo,
      launched (runMediasoupWorkers demoConfig true) !! 1 = Some worker
      ∧ appData_webRtcServer worker = Some webRtcServer
      ∧ webRtcServer !! 0 = Some listenInfo
      ∧ port listenInfo = 44445%Z.
Proof.
  assert (1 < numWorkers demoConfig) as Hi by (simpl; lia).
  split; [exact Hi|].
  destruct (worker_ports_offset_by_index demoConfig 1 Hi)
    as ((worker & webRtcServer & Hworker & _ & Hserver & _ & Hports) & _).
  destruct (Hports 0 {| protocol := "udp"; ip := "0.0.0.0"; port := 44444 |} eq_refl)
    as (listenInfo & Hfirst & Hport & _).
  exists worker, webRtcServer, listenInfo.
  split; [exact Hworker|]. split; [exact Hserver|]. split; [exact Hfirst|].
  exact Hport.
Defined.

Lemma getMediasoupWorker_full_turn_witness :
  nextMediasoupWorkerIdx demoOneRoom < length (mediasoupWorkers demoOneRoom)
  ∧ getMediasoupWorker_times 2 demoOneRoom
    = ([demoWorkers !! 1; demoWorkers !! 0], demoOneRoom).
Proof.
  assert (nextMediasoupWorkerIdx demoOneRoom
          < length (mediasoupWorkers demoOneRoom)) as Hidx by (vm_compute; lia).
  split; [exact Hidx|].
  exact (proj1 (getMediasoupWorker_full_turn demoOneRoom Hidx)).
Defined.

Lemma getMediasoupWorker_empty_pool_witness :
  mediasoupWorkers (initial (num := integers) []) = []
  ∧ getMediasoupWorker_times 3 (initial [])
    = ([None; None; None], with_nextMediasoupWorkerIdx 3 (initial [])).
Proof.
  split; [reflexivity|].
  exact (getMediasoupWorker_empty_pool 3 (initial []) eq_refl).
Defined.

Lemma queue_answers_in_order_witness :
  let st := run_events (initial demoWorkers) demoThreeRooms in
  (∀ (r : @Room integers) (peerId : string),
     handleProtooConnection r peerId = None)
  ∧ answered (trace st) ++ (task_caller <$> queued st)
    = [Connection 1; Request 2; Connection 3].
Proof.
  assert (∀ (r : @Room integers) (peerId : string),
            handleProtooConnection r peerId = None) as Hquiet by reflexivity.
  split; [exact Hquiet|].
  rewrite <- (queue_answers_in_order demoWorkers demoThreeRooms Hquiet).
  reflexivity.
Defined.

Lemma reject_400_exactly_for_falsy_ids_witness :
  let empty : gmap string string := {[ "roomId" := ""; "peerId" := "alice" ]} in
  let query := demoQuery "R1" "alice" in
  (empty !! "roomId" = Some ""
   ∧ query !! "roomId" = Some "R1" ∧ "R1" ≠ ""
   ∧ query !! "peerId" = Some "alice" ∧ "alice" ≠ "")
  ∧ trace (on_connectionrequest 1 empty demoOneRoom)
    = trace demoOneRoom ++
        [Reject 1 (RejectCode 400 "Connection request without roomId and/or peerId")]
  ∧ ∃ delta,
      trace (on_connectionrequest 2 query demoOneRoom)
      = trace demoOneRoom ++ delta
      ∧ Forall not_reject_code delta.
Proof.
  assert ("R1" ≠ "") as Hroom by discriminate.
  assert ("alice" ≠ "") as Hpeer by discriminate.
  split; [repeat split; (reflexivity || assumption)|]. split.
  - destruct (reject_400_exactly_for_falsy_ids demoOneRoom 1
                {[ "roomId" := ""; "peerId" := "alice" ]}) as [Hreject _].
    rewrite Hreject; [reflexivity|]. left. right. reflexivity.
  - destruct (reject_400_exactly_for_falsy_ids demoOneRoom 2
                (demoQuery "R1" "alice")) as [_ Hpush].
    exact (proj2 (Hpush "R1" "alice" eq_refl Hroom eq_refl Hpeer)).
Defined.

Lemma consumerReplicas_never_NaN_witness :
  let query : gmap string string :=
    {[ "roomId" := "R1"; "peerId" := "alice"; "consumerReplicas" := "many" ]} in
  let st := run_events (initial demoWorkers)
              [ConnectionRequest 1 query; RoomCreateSettled Resolved] in
  isNaN (JSNumber := integers) zero = false
  ∧ JS_Number (query !! "consumerReplicas") = None
  ∧ Forall (λ r, isNaN (room_consumerReplicas r) = false) (roomStore st).
Proof.
  split; [reflexivity|]. split; [reflexivity|].
  exact (proj2 (consumerReplicas_never_NaN demoWorkers _ eq_refl)).
Defined.

Lemma registered_room_is_kept_until_close_witness :
  let evs0 := [ConnectionRequest 1 (demoQuery "A" "alice");
               RoomCreateSettled Resolved] in
  let evs := [RoomClose 0; BroadcasterRequest 4 "A"; RoomCreateSettled Resolved] in
  let st := run_events (initial demoWorkers) evs0 in
  let reopened := run_events st evs in
  JSMap.get (rooms st) "A" = Some 0
  ∧ JSMap.get (rooms reopened) "A" = Some 1
  ∧ ∃ h r, h ∈ evs ≫= closes_of ∧ roomStore reopened !! h = Some r
           ∧ room_roomId r = "A".
Proof.
  assert (JSMap.get (rooms (run_events (initial demoWorkers)
                       [ConnectionRequest 1 (demoQuery "A" "alice");
                        RoomCreateSettled Resolved])) "A" = Some 0) as Hget
    by reflexivity.
  split; [exact Hget|]. split; [reflexivity|].
  destruct (registered_room_is_kept_until_close demoWorkers
              [ConnectionRequest 1 (demoQuery "A" "alice");
               RoomCreateSettled Resolved]
              [RoomClose 0; BroadcasterRequest 4 "A"; RoomCreateSettled Resolved]
              "A" 0 Hget) as [Hkept|Hclosed].
  - exfalso. revert Hkept. vm_compute. discriminate.
  - exact Hclosed.
Defined.

Lemma failed_construction_of_broadcaster_witness :
  let st := initial (num := integers) demoWorkers in
  let st2 := step (step st (BroadcasterRequest 3 "R9"))
               (RoomCreateSettled (Rejected demoError)) in
  (executing st = None ∧ JSMap.get (rooms st) "R9" = None)
  ∧ (∃ res, errorHandler (Some demoError) = Some res
            ∧ trace st2
              = [RoomCreateCall (demoWorkers !! 0) "R9" (Some 0%Z); Send 3 res])
  ∧ rooms st2 = [] ∧ nextMediasoupWorkerIdx st2 = 1.
Proof.
  split; [split; reflexivity|].
  destruct (failed_construction_of_broadcaster demoWorkers [] demoError)
    as [Hframe Hrequest].
  destruct (Hrequest 3 4 "R9" eq_refl eq_refl)
    as (res & Hres & Htrace & _ & _ & _ & Hidx & _).
  split; [exists res; split; [exact Hres|exact Htrace]|].
  split; [reflexivity|exact Hidx].
Defined.

Lemma status_reports_every_room_in_order_witness :
  let st := run_events (collab := strictRooms) (initial demoWorkers) demoTwoRooms in
  (∀ r : @Room integers,
     room_closed r = false → logStatus (RoomCollaborator := strictRooms) r = None)
  ∧ ∃ st', on_statusInterval (collab := strictRooms) [] st = (None, st')
           ∧ trace st' = trace st ++ [LogStatus 0; LogStatus 1].
Proof.
  assert (∀ r : @Room integers,
            room_closed r = false
            → logStatus (RoomCollaborator := strictRooms) r = None) as Hquiet.
  { intros r Hopen. simpl. rewrite Hopen. reflexivity. }
  split; [exact Hquiet|].
  destruct (status_reports_every_room_in_order (collab := strictRooms)
              demoWorkers demoTwoRooms Hquiet) as (st' & Hloop & Htrace & _).
  exists st'. split; [exact Hloop|exact Htrace].
Defined.

Lemma status_iteration_stops_at_exception_witness :
  let st := run_events (collab := moodyRooms) (initial demoWorkers) demoThreeRooms in
  let e := {| err_name := "Error"; err_message := "B"; err_status := None |} in
  rooms st = [("A", 0)] ++ ("B", 1) :: [("C", 2)]
  ∧ ∃ r st', roomStore st !! 1 = Some r
             ∧ logStatus (RoomCollaborator := moodyRooms) r = Some e
             ∧ on_statusInterval (collab := moodyRooms) [] st = (Some e, st')
             ∧ trace st' = trace st ++ [LogStatus 0; LogStatus 1].
Proof.
  assert (rooms (run_events (collab := moodyRooms) (initial demoWorkers)
                   demoThreeRooms)
          = [("A", 0)] ++ ("B", 1) :: [("C", 2)]) as Hrooms by reflexivity.
  split; [exact Hrooms|].
  set (r := @Build_Room integers (demoWorkers !! 1) "B" (Some 0%Z) false).
  assert (roomStore (run_events (collab := moodyRooms) (initial demoWorkers)
                       demoThreeRooms) !! 1 = Some r) as Hr by reflexivity.
  destruct (status_iteration_stops_at_exception (collab := moodyRooms)
              demoWorkers demoThreeRooms [("A", 0)] [("C", 2)] "B" 1 r
              {| err_name := "Error"; err_message := "B"; err_status := None |}
              Hrooms)
    as (st' & Hloop & Htrace); [|exact Hr|reflexivity|].
  { intros k h r' Hin Hr'. apply list_elem_of_singleton in Hin.
    injection Hin as -> ->. vm_compute in Hr'. injection Hr' as <-.
    reflexivity. }
  exists r, st'. split; [exact Hr|]. split; [reflexivity|].
  split; [exact Hloop|exact Htrace].
Defined.

Lemma workers_do_not_share_ports_witness :
  let udp (p : Z) := {| protocol := "udp"; ip := "0.0.0.0"; port := p |} in
  let tcp (p : Z) := {| protocol := "tcp"; ip := "0.0.0.0"; port := p |} in
  let s := runMediasoupWorkers demoConfig true in
  (0 ≠ 1
   ∧ appData_webRtcServer <$> launched s !! 0 = Some (Some [udp 44444%Z; tcp 44444%Z])
   ∧ appData_webRtcServer <$> launched s !! 1 = Some (Some [udp 44445%Z; tcp 44445%Z]))
  ∧ port (udp 44444%Z) ≠ port (udp 44445%Z).
Proof.
  assert (0 ≠ 1) as Hne by discriminate.
  split; [split; [exact Hne|split; reflexivity]|].
  exact (workers_do_not_share_ports demoConfig 0 1 0 _ _ _ _ _ _
           Hne eq_refl eq_refl eq_refl eq_refl eq_refl eq_refl).
Defined.

Lemma webRtcServer_unless_env_false_witness :
  (Some "false" = Some "false" ∧ (None : option string) ≠ Some "false")
  ∧ Forall (λ worker, appData_webRtcServer worker = None)
      (launched (runMediasoupWorkers demoConfig (useWebRtcServer (Some "false"))))
  ∧ Forall (λ worker,
              ∃ server, appData_webRtcServer worker = Some server
                        ∧ length server = 2)
      (launched (runMediasoupWorkers demoConfig (useWebRtcServer None))).
Proof.
  assert ((None : option string) ≠ Some "false") as Hunset by discriminate.
  split; [split; [reflexivity|exact Hunset]|].
  destruct (webRtcServer_unless_env_false demoConfig (Some "false"))
    as (_ & Hoff & _).
  destruct (webRtcServer_unless_env_false demoConfig None) as (_ & _ & Hon).
  split; [exact (proj1 (Hoff eq_refl))|exact (Hon Hunset)].
Defined.

Lemma creation_call_gets_worker_and_ports_witness :
  let st := run_events (started demoConfig None) demoThreeRooms in
  (0 < numWorkers demoConfig ∧ (None : option string) ≠ Some "false"
   ∧ creations (trace st) !! 2 = Some (demoWorkers !! 0))
  ∧ demoWorkers !! 0
    = Some {| worker_no := 0;
              appData_webRtcServer :=
                Some (port_add 0 <$> webRtcServerOptions demoConfig) |}.
Proof.
  assert (0 < numWorkers demoConfig) as Hpool by (simpl; lia).
  assert ((None : option string) ≠ Some "false") as Hunset by discriminate.
  assert (creations (trace (run_events (started demoConfig None) demoThreeRooms))
            !! 2 = Some (demoWorkers !! 0)) as Hcall by reflexivity.
  split; [split; [exact Hpool|split; [exact Hunset|exact Hcall]]|].
  exact (creation_call_gets_worker_and_ports demoConfig None demoThreeRooms 2
           (demoWorkers !! 0) Hpool Hunset Hcall).
Defined.

Lemma errorHandler_sets_the_status_witness :
  let res := {| res_status := 400%Z;
                res_statusMessage := Some "missing body.id";
                res_body := "TypeError: missing body.id" |} in
  errorHandler (Some demoTypeError) = Some res
  ∧ err_status (errorHandler_error demoTypeError) = Some 400%Z
  ∧ errorHandler (Some (errorHandler_error demoTypeError)) = Some res.
Proof.
  assert (errorHandler (Some demoTypeError)
          = Some {| res_status := 400%Z;
                    res_statusMessage := Some "missing body.id";
                    res_body := "TypeError: missing body.id" |}) as Hres
    by reflexivity.
  split; [exact Hres|].
  exact (proj2 (errorHandler_sets_the_status demoTypeError _ Hres)).
Defined.

Lemma pending_construction_blocks_the_queue_witness :
  let e : @Task integers * option Worker :=
    (BroadcasterTask 5 "B", demoWorkers !! 1) in
  let st' := run_events demoCreatingB demoMeanwhile in
  (executing demoCreatingB = Some e
   ∧ forallb (λ ev, negb (is_settlement ev)) demoMeanwhile = true
   ∧ JSMap.get (rooms demoCreatingB) "A" = Some 0)
  ∧ executing st' = Some e
  ∧ task_caller <$> pendingTasks st' = [Connection 6]
  ∧ answered (trace st') = answered (trace demoCreatingB).
Proof.
  split; [split; [reflexivity|split; reflexivity]|].
  destruct (pending_construction_blocks_the_queue demoCreatingB demoMeanwhile
              (BroadcasterTask 5 "B", demoWorkers !! 1) eq_refl eq_refl)
    as (Hex & Hpend & Hanswered & _).
  split; [exact Hex|]. split; [|exact Hanswered].
  rewrite Hpend. reflexivity.
Defined.

Lemma route_handler_finds_its_room_witness :
  let st := run_events (initial demoWorkers) demoTwoRooms in
  (Next 2 ∈ trace st
   ∧ executing demoCreatingB = Some (BroadcasterTask 5 "B", demoWorkers !! 1))
  ∧ (∃ room r, req_room st !! 2 = Some room ∧ roomStore st !! room = Some r)
  ∧ omap response_to (trace st) ++ omap request_of (queued st) = [1; 2]
  ∧ ∃ res, on_RoomCreateSettled (Rejected demoError) demoCreatingB
           = AwaitQueue_next (pendingTasks demoCreatingB)
               (emit (Send 5 res) demoCreatingB).
Proof.
  assert (Next 2 ∈ trace (run_events (initial demoWorkers) demoTwoRooms))
    as Hnext.
  { apply list_elem_of_lookup. exists 3. reflexivity. }
  split; [split; [exact Hnext|reflexivity]|].
  destruct (route_handler_finds_its_room demoWorkers demoTwoRooms)
    as (Hroom & Hanswered & Hfailed).
  split; [exact (Hroom 2 Hnext)|]. split; [rewrite <- Hanswered; reflexivity|].
  destruct (Hfailed demoCreatingB 5 "B" (demoWorkers !! 1) demoError eq_refl)
    as (res & _ & Hrun).
  exists res. exact Hrun.
Defined.

Lemma registry_holds_the_live_rooms_witness :
  let evs := [ConnectionRequest 1 (demoQuery "A" "alice");
              RoomCreateSettled Resolved;
              RoomClose 0; BroadcasterRequest 4 "A"; RoomCreateSettled Resolved] in
  let st := run_events (initial demoWorkers) evs in
  (NoDup (evs ≫= closes_of) ∧ JSMap.get (rooms st) "A" = Some 1)
  ∧ ∃ r, roomStore st !! 1 = Some r
         ∧ room_roomId r = "A" ∧ room_closed r = false.
Proof.
  assert (NoDup ([ConnectionRequest 1 (demoQuery "A" "alice");
                  RoomCreateSettled Resolved;
                  RoomClose 0; BroadcasterRequest 4 "A";
                  RoomCreateSettled Resolved] ≫= closes_of)) as Hnd.
  { simpl. apply NoDup_singleton. }
  assert (JSMap.get (rooms (run_events (initial demoWorkers)
                       [ConnectionRequest 1 (demoQuery "A" "alice");
                        RoomCreateSettled Resolved;
                        RoomClose 0; BroadcasterRequest 4 "A";
                        RoomCreateSettled Resolved])) "A" = Some 1) as Hget
    by reflexivity.
  split; [split; [exact Hnd|exact Hget]|].
  exact (proj1 (registry_holds_the_live_rooms demoWorkers _ "A" 1 Hnd) Hget).
Defined.

Lemma stale_close_evicts_live_room_witness :
  let st := run_events (initial demoWorkers)
              [ConnectionRequest 1 (demoQuery "A" "alice");
               RoomCreateSettled Resolved;
               RoomClose 0; BroadcasterRequest 4 "A"; RoomCreateSettled Resolved] in
  let r_old := @Build_Room integers (demoWorkers !! 0) "A" (Some 0%Z) true in
  let r_new := @Build_Room integers (demoWorkers !! 1) "A" (Some 0%Z) false in
  (roomStore st !! 0 = Some r_old ∧ roomStore st !! 1 = Some r_new ∧ 0 ≠ 1
   ∧ JSMap.get (rooms st) "A" = Some 1)
  ∧ rooms (on_RoomClose 0 st) = []
  ∧ roomStore (on_RoomClose 0 st) !! 1 = Some r_new
  ∧ room_closed r_new = false.
Proof.
  assert (0 ≠ 1) as Hne by discriminate.
  split; [split; [reflexivity|split; [reflexivity|split; [exact Hne|reflexivity]]]|].
  split; [reflexivity|]. split; [|reflexivity].
  exact (proj1 (proj2
           (stale_close_evicts_live_room
              (run_events (initial demoWorkers)
                 [ConnectionRequest 1 (demoQuery "A" "alice");
                  RoomCreateSettled Resolved;
                  RoomClose 0; BroadcasterRequest 4 "A";
                  RoomCreateSettled Resolved])
              0 1
              (@Build_Room integers (demoWorkers !! 0) "A" (Some 0%Z) true)
              (@Build_Room integers (demoWorkers !! 1) "A" (Some 0%Z) false)
              (Some 0%Z) eq_refl eq_refl Hne eq_refl))).
Defined.
